(** * The in-memory authentication backend of AI Mini Games

    A shallow embedding of [src/auth_backend.py]: the [InMemoryUserStore]
    with its user directory, lockout counters, refresh-token ledger,
    blacklist and password-reset tokens, and the route handlers built on it.

    Conventions of the embedding.
    - A [datetime] is the number of microseconds since the epoch, a
      [timedelta] a number of microseconds; both are integers ([Z]).
    - A [str] is a string of code points below 256; on these [str.lower]
      acts character by character. Strings with other code points are
      outside the embedding.
    - [datetime.now(timezone.utc)] is an input: every operation that reads
      the clock takes the reading [now]; a route handler is given one
      reading for the whole call. The login handler is also modelled with
      each of its readings apart ([login_at]): what it answers for a locked
      account depends on two of them.
    - A request model ([UserCreate], [PasswordResetRequest]) is validated
      and normalised by pydantic when it is constructed, before the handler
      runs; a handler is given the fields of the constructed object. The
      validation of an [EmailStr] is an external collaborator, the class
      [Validator].
    - The order in which the dictionary [users] enumerates its keys (the
      order of insertion) is not part of the store: the one operation that
      depends on it, [list_users], is given the enumeration.
    - Random draws ([secrets.token_hex], [secrets.token_urlsafe], the salt
      of the password hash) are inputs of the operation that draws them.
    - The password hasher (passlib) and the token codec (jose) are external
      collaborators, gathered in the class [External].
    - A reference to a [UserInDB] object is the key under which the
      dictionary [users] holds it: [users] is the only container of user
      objects, and every insertion stores a new object, so an in-place
      mutation through a reference is an update of [users] at that key.
    - An exception leaves the mutations made before it in place: a
      computation returns its outcome together with the store. *)

From Stdlib Require Import ZArith Ascii String.
From stdpp Require Import base gmap strings list fin_maps fin_sets pretty.

Open Scope Z_scope.

(** ** Time *)

Abbreviation Time := Z.

Module timedelta.
Definition minutes (n : Z) : Z := n * 60 * 1000000.
Definition hours (n : Z) : Z := n * 3600 * 1000000.
Definition days (n : Z) : Z := n * 86400 * 1000000.
(** The [.seconds] attribute of a normalised timedelta: the seconds within
    the day, between 0 and 86399. *)
Definition seconds (d : Z) : Z := (d `mod` days 1) `div` 1000000.
End timedelta.

(** ** Configuration *)

Module settings.
Definition ACCESS_TOKEN_EXPIRE_MINUTES : Z := 30.
Definition REFRESH_TOKEN_EXPIRE_DAYS : Z := 7.
Definition PASSWORD_MIN_LENGTH : Z := 8.
Definition PASSWORD_MAX_LENGTH : Z := 128.
Definition MAX_LOGIN_ATTEMPTS : Z := 5.
Definition LOGIN_TIMEOUT_MINUTES : Z := 15.
End settings.

(** ** Python strings *)

(** Truthiness of a string: the empty string is false. *)
Definition truthy (s : string) : bool :=
  match s with EmptyString => false | String _ _ => true end.

(** [str.lower] on one code point below 256: the letters A to Z and the
    capital letters of Latin-1 (U+00C0 to U+00DE, the multiplication sign
    U+00D7 apart) move up by 32; every other code point is kept. *)
Definition ascii_lower (c : ascii) : ascii :=
  let n := nat_of_ascii c in
  if (((65 <=? n) && (n <=? 90)) ||
      ((192 <=? n) && (n <=? 222) && negb (n =? 215)))%nat
  then ascii_of_nat (n + 32) else c.

Fixpoint lower (s : string) : string :=
  match s with
  | EmptyString => EmptyString
  | String c r => String (ascii_lower c) (lower r)
  end.

(** ** Python lists *)

(** The position an index of a slice stands for in a list of length [len]:
    a negative index counts from the end, and both ends are clamped. *)
Definition slice_index (i : Z) (len : nat) : nat :=
  if bool_decide (i < 0) then Z.to_nat (Z.max (i + Z.of_nat len) 0)
  else Nat.min (Z.to_nat i) len.

(** [l[start:stop]] *)
Definition slice {A} (start stop : Z) (l : list A) : list A :=
  let a := slice_index start (length l) in
  let b := slice_index stop (length l) in
  take (b - a)%nat (drop a l).

(** ** Models *)

Inductive TokenType := ACCESS | REFRESH.

Definition TokenType_value (t : TokenType) : string :=
  match t with ACCESS => "access" | REFRESH => "refresh" end.

Inductive UserRole := ADMIN | USER | PREMIUM.

Record UserCreate := {
  uc_email : string;
  uc_username : string;
  uc_full_name : option string;
  uc_password : string;
  uc_confirm_password : string
}.

Record UserInDB := {
  id : string;
  email : string;
  username : string;
  full_name : option string;
  hashed_password : string;
  role : UserRole;
  is_active : bool;
  created_at : Time;
  updated_at : Time;
  last_login : option Time;
  failed_login_attempts : Z;
  locked_until : option Time
}.

Record UserResponse := {
  ur_id : string;
  ur_email : string;
  ur_username : string;
  ur_full_name : option string;
  ur_role : UserRole;
  ur_is_active : bool;
  ur_created_at : Time;
  ur_last_login : option Time
}.

Record Token := {
  tk_access_token : string;
  tk_refresh_token : string;
  tk_token_type : string;
  tk_expires_in : Z;
  tk_user : UserResponse
}.

(** The claims of a decoded token; [payload.get k] is [None] when the key is
    missing. *)
Record Claims := {
  c_user_id : option string;
  c_username : option string;
  c_type : option string;
  c_exp : Time;
  c_iat : Time
}.

(** The values of the dictionaries [refresh_tokens] and
    [password_reset_tokens]. *)
Record TokenData := {
  td_user_id : string;
  td_expires_at : Time;
  td_created_at : Time
}.

(** A JSON object returned by a handler: its keys, in order, with their
    values. *)
Definition Response := list (string * string).

Definition shape (r : Response) : list string := r.*1.

(** ** Field updates of a user object *)

Definition set_full_name v u := Build_UserInDB (id u) (email u) (username u) v
  (hashed_password u) (role u) (is_active u) (created_at u) (updated_at u)
  (last_login u) (failed_login_attempts u) (locked_until u).
Definition set_id v u := Build_UserInDB v (email u) (username u) (full_name u)
  (hashed_password u) (role u) (is_active u) (created_at u) (updated_at u)
  (last_login u) (failed_login_attempts u) (locked_until u).
Definition set_email v u := Build_UserInDB (id u) v (username u) (full_name u)
  (hashed_password u) (role u) (is_active u) (created_at u) (updated_at u)
  (last_login u) (failed_login_attempts u) (locked_until u).
Definition set_username v u := Build_UserInDB (id u) (email u) v (full_name u)
  (hashed_password u) (role u) (is_active u) (created_at u) (updated_at u)
  (last_login u) (failed_login_attempts u) (locked_until u).
Definition set_hashed_password v u := Build_UserInDB (id u) (email u)
  (username u) (full_name u) v (role u) (is_active u) (created_at u)
  (updated_at u) (last_login u) (failed_login_attempts u) (locked_until u).
Definition set_role v u := Build_UserInDB (id u) (email u) (username u)
  (full_name u) (hashed_password u) v (is_active u) (created_at u)
  (updated_at u) (last_login u) (failed_login_attempts u) (locked_until u).
Definition set_is_active v u := Build_UserInDB (id u) (email u) (username u)
  (full_name u) (hashed_password u) (role u) v (created_at u) (updated_at u)
  (last_login u) (failed_login_attempts u) (locked_until u).
Definition set_created_at v u := Build_UserInDB (id u) (email u) (username u)
  (full_name u) (hashed_password u) (role u) (is_active u) v (updated_at u)
  (last_login u) (failed_login_attempts u) (locked_until u).
Definition set_updated_at v u := Build_UserInDB (id u) (email u) (username u)
  (full_name u) (hashed_password u) (role u) (is_active u) (created_at u) v
  (last_login u) (failed_login_attempts u) (locked_until u).
Definition set_last_login v u := Build_UserInDB (id u) (email u) (username u)
  (full_name u) (hashed_password u) (role u) (is_active u) (created_at u)
  (updated_at u) v (failed_login_attempts u) (locked_until u).
Definition set_failed_login_attempts v u := Build_UserInDB (id u) (email u)
  (username u) (full_name u) (hashed_password u) (role u) (is_active u)
  (created_at u) (updated_at u) (last_login u) v (locked_until u).
Definition set_locked_until v u := Build_UserInDB (id u) (email u)
  (username u) (full_name u) (hashed_password u) (role u) (is_active u)
  (created_at u) (updated_at u) (last_login u) (failed_login_attempts u) v.

(** One item of the dictionary given to [update_user]: an attribute with a
    value of its declared type. [A_other] is a key for which
    [hasattr user key] is false. *)
Inductive Attr :=
| A_id (v : string)
| A_email (v : string)
| A_username (v : string)
| A_full_name (v : option string)
| A_hashed_password (v : string)
| A_role (v : UserRole)
| A_is_active (v : bool)
| A_created_at (v : Time)
| A_updated_at (v : Time)
| A_last_login (v : option Time)
| A_failed_login_attempts (v : Z)
| A_locked_until (v : option Time)
| A_other (key : string).

(** [if hasattr(user, key): setattr(user, key, value)] *)
Definition setattr (a : Attr) (u : UserInDB) : UserInDB :=
  match a with
  | A_id v => set_id v u
  | A_email v => set_email v u
  | A_username v => set_username v u
  | A_full_name v => set_full_name v u
  | A_hashed_password v => set_hashed_password v u
  | A_role v => set_role v u
  | A_is_active v => set_is_active v u
  | A_created_at v => set_created_at v u
  | A_updated_at v => set_updated_at v u
  | A_last_login v => set_last_login v u
  | A_failed_login_attempts v => set_failed_login_attempts v u
  | A_locked_until v => set_locked_until v u
  | A_other _ => u
  end.

(** ** The store *)

Record InMemoryUserStore := {
  users : gmap string UserInDB;
  email_index : gmap string string;
  username_index : gmap string string;
  refresh_tokens : gmap string TokenData;
  blacklisted_tokens : gset string;
  password_reset_tokens : gmap string TokenData
}.

Definition with_users v s := Build_InMemoryUserStore v (email_index s)
  (username_index s) (refresh_tokens s) (blacklisted_tokens s)
  (password_reset_tokens s).
Definition with_email_index v s := Build_InMemoryUserStore (users s) v
  (username_index s) (refresh_tokens s) (blacklisted_tokens s)
  (password_reset_tokens s).
Definition with_username_index v s := Build_InMemoryUserStore (users s)
  (email_index s) v (refresh_tokens s) (blacklisted_tokens s)
  (password_reset_tokens s).
Definition with_refresh_tokens v s := Build_InMemoryUserStore (users s)
  (email_index s) (username_index s) v (blacklisted_tokens s)
  (password_reset_tokens s).
Definition with_blacklisted_tokens v s := Build_InMemoryUserStore (users s)
  (email_index s) (username_index s) (refresh_tokens s) v
  (password_reset_tokens s).
Definition with_password_reset_tokens v s := Build_InMemoryUserStore (users s)
  (email_index s) (username_index s) (refresh_tokens s)
  (blacklisted_tokens s) v.

(** ** Exceptions and the monad of store computations *)

Inductive Exception :=
| HTTPException (status_code : Z) (detail : string)
| ValueError (msg : string)
| AttributeError (msg : string)
| TypeError (msg : string).

Inductive Result (A : Type) :=
| Return (a : A)
| Raise (e : Exception).
Arguments Return {A} a.
Arguments Raise {A} e.

Definition M (A : Type) : Type := InMemoryUserStore → Result A * InMemoryUserStore.

Definition ret {A} (a : A) : M A := λ s, (Return a, s).
Definition raise {A} (e : Exception) : M A := λ s, (Raise e, s).
Definition bind {A B} (m : M A) (k : A → M B) : M B := λ s,
  match m s with
  | (Return a, s') => k a s'
  | (Raise e, s') => (Raise e, s')
  end.
Definition gets {A} (f : InMemoryUserStore → A) : M A := λ s, (Return (f s), s).
Definition modify (f : InMemoryUserStore → InMemoryUserStore) : M unit :=
  λ s, (Return tt, f s).

#[global] Instance M_ret : MRet M := @ret.
#[global] Instance M_bind : MBind M := λ A B k m, bind m k.

(** The store after a computation, and its outcome. *)
Definition exec {A} (m : M A) (s : InMemoryUserStore) : InMemoryUserStore := (m s).2.
Definition eval {A} (m : M A) (s : InMemoryUserStore) : Result A := (m s).1.

(** ** External collaborators *)

(** [pwd_context.hash] draws a salt; [jwt.decode] checks the signature and
    the expiry against the clock and fails with [JWTError] ([None]). *)
Class External := {
  pwd_hash : string → string → string;
  pwd_verify : string → string → bool;
  jwt_encode : Claims → string;
  jwt_decode : string → Time → option Claims
}.

(** [EmailStr]: the validation of an address by the email-validator
    library, which refuses it ([None]) or returns its normalised form. *)
Class Validator := {
  validate_email : string → option string
}.

Section Backend.
Context `{Ext : External}.

Definition verify_password (plain_password hashed_password : string) : bool :=
  pwd_verify plain_password hashed_password.

Definition get_password_hash (salt password : string) : string :=
  pwd_hash salt password.

(** [data] is the dictionary with the keys ["user_id"] and ["username"]. A
    zero [expires_delta] is false, like [None]. The clock is read for the
    expiry ([now]) and again for the claim ["iat"] ([issued]). *)
Definition create_token_at (data : string * string) (token_type : TokenType)
    (expires_delta : option Z) (now issued : Time) : string :=
  let expire :=
    match expires_delta with
    | Some d =>
        if bool_decide (d = 0) then
          match token_type with
          | ACCESS => now + timedelta.minutes settings.ACCESS_TOKEN_EXPIRE_MINUTES
          | REFRESH => now + timedelta.days settings.REFRESH_TOKEN_EXPIRE_DAYS
          end
        else now + d
    | None =>
        match token_type with
        | ACCESS => now + timedelta.minutes settings.ACCESS_TOKEN_EXPIRE_MINUTES
        | REFRESH => now + timedelta.days settings.REFRESH_TOKEN_EXPIRE_DAYS
        end
    end in
  jwt_encode {| c_user_id := Some data.1; c_username := Some data.2;
                c_type := Some (TokenType_value token_type);
                c_exp := expire; c_iat := issued |}.

(** [create_token] with one reading of the clock. *)
Definition create_token (data : string * string) (token_type : TokenType)
    (expires_delta : option Z) (now : Time) : string :=
  create_token_at data token_type expires_delta now now.

Definition decode_token (token : string) (now : Time) : M Claims :=
  match jwt_decode token now with
  | Some payload => mret payload
  | None => raise (HTTPException 401 "Could not validate credentials")
  end.

(** ** InMemoryUserStore *)

Definition admin_user (salt : string) (now : Time) : UserInDB :=
  {| id := "admin-001"; email := "admin@aimini.games"; username := "admin";
     full_name := Some "System Administrator";
     hashed_password := get_password_hash salt "Admin123!";
     role := ADMIN; is_active := true; created_at := now; updated_at := now;
     last_login := None; failed_login_attempts := 0; locked_until := None |}.

(** [__init__] followed by [_init_admin_user]. *)
Definition init (salt : string) (now : Time) : InMemoryUserStore :=
  let admin := admin_user salt now in
  {| users := {[ "admin-001" := admin ]};
     email_index := {[ email admin := "admin-001" ]};
     username_index := {[ username admin := "admin-001" ]};
     refresh_tokens := ∅; blacklisted_tokens := ∅;
     password_reset_tokens := ∅ |}.

(** [hex] is the draw of [secrets.token_hex(8)]. *)
Definition create_user (user_data : UserCreate) (hex salt : string)
    (now : Time) : M UserInDB := λ s,
  if bool_decide (uc_email user_data ∈ dom (email_index s)) then
    (Raise (ValueError "Email already registered"), s)
  else if bool_decide (lower (uc_username user_data) ∈ dom (username_index s)) then
    (Raise (ValueError "Username already taken"), s)
  else
    let user_id := "user-" +:+ hex in
    let user :=
      {| id := user_id; email := uc_email user_data;
         username := lower (uc_username user_data);
         full_name := uc_full_name user_data;
         hashed_password := get_password_hash salt (uc_password user_data);
         role := USER; is_active := true; created_at := now;
         updated_at := now; last_login := None;
         failed_login_attempts := 0; locked_until := None |} in
    (Return user,
     with_username_index (<[username user := user_id]> (username_index s))
       (with_email_index (<[email user := user_id]> (email_index s))
          (with_users (<[user_id := user]> (users s)) s))).

(** [self.users.get(user_id)]: the reference to the object stored under
    [user_id], if there is one. *)
Definition users_get (user_id : string) (s : InMemoryUserStore) : option string :=
  match users s !! user_id with Some _ => Some user_id | None => None end.

Definition get_user_by_email (email : string) (s : InMemoryUserStore) : option string :=
  match email_index s !! email with
  | Some user_id => if truthy user_id then users_get user_id s else None
  | None => None
  end.

Definition get_user_by_username (username : string) (s : InMemoryUserStore) : option string :=
  match username_index s !! lower username with
  | Some user_id => if truthy user_id then users_get user_id s else None
  | None => None
  end.

Definition get_user_by_id (user_id : string) (s : InMemoryUserStore) : option string :=
  users_get user_id s.

(** Returns the reference to the updated object, or [None]. *)
Definition update_user (user_id : string) (update_data : list Attr)
    (now : Time) : M (option string) := λ s,
  match users s !! user_id with
  | None => (Return None, s)
  | Some user =>
      let user' := set_updated_at now (foldl (λ u a, setattr a u) user update_data) in
      (Return (Some user_id), with_users (<[user_id := user']> (users s)) s)
  end.

Definition store_refresh_token (token user_id : string) (expires_at now : Time) : M unit :=
  modify (λ s, with_refresh_tokens
    (<[token := {| td_user_id := user_id; td_expires_at := expires_at; td_created_at := now |}]>
       (refresh_tokens s)) s).

Definition validate_refresh_token (token : string) (now : Time) : M (option string) := λ s,
  if bool_decide (token ∈ blacklisted_tokens s) then (Return None, s)
  else
    match refresh_tokens s !! token with
    | None => (Return None, s)
    | Some token_data =>
        if bool_decide (now > td_expires_at token_data) then
          (Return None, with_refresh_tokens (delete token (refresh_tokens s)) s)
        else (Return (Some (td_user_id token_data)), s)
    end.

Definition blacklist_token (token : string) : M unit :=
  modify (λ s, with_blacklisted_tokens ({[ token ]} ∪ blacklisted_tokens s) s).

Definition is_token_blacklisted (token : string) (s : InMemoryUserStore) : bool :=
  bool_decide (token ∈ blacklisted_tokens s).

(** The tokens of [user_id] are collected first, then each is deleted from
    the ledger and added to the blacklist. *)
Definition cleanup_user_tokens (uid : string) : M unit :=
  modify (λ s,
    let tokens_to_remove := filter (λ kv, td_user_id kv.2 = uid) (refresh_tokens s) in
    with_blacklisted_tokens (dom tokens_to_remove ∪ blacklisted_tokens s)
      (with_refresh_tokens (filter (λ kv, td_user_id kv.2 ≠ uid) (refresh_tokens s)) s)).

Definition delete_user (user_id : string) : M bool := λ s,
  match users s !! user_id with
  | None => (Return false, s)
  | Some user =>
      let s1 := with_email_index (delete (email user) (email_index s)) s in
      let s2 := with_username_index (delete (username user) (username_index s1)) s1 in
      let s3 := with_users (delete user_id (users s2)) s2 in
      (Return true, exec (cleanup_user_tokens user_id) s3)
  end.

(** *** Methods that mutate the user object they are given *)

Definition increment_failed_login (user : string) (now : Time) : M unit := λ s,
  match users s !! user with
  | None => (Return tt, s)
  | Some u =>
      let u1 := set_failed_login_attempts (failed_login_attempts u + 1) u in
      let u2 :=
        if bool_decide (failed_login_attempts u1 >= settings.MAX_LOGIN_ATTEMPTS) then
          set_locked_until
            (Some (now + timedelta.minutes settings.LOGIN_TIMEOUT_MINUTES)) u1
        else u1 in
      (Return tt, with_users (<[user := u2]> (users s)) s)
  end.

Definition reset_failed_login (user : string) : M unit := λ s,
  match users s !! user with
  | None => (Return tt, s)
  | Some u =>
      (Return tt,
       with_users (<[user := set_locked_until None (set_failed_login_attempts 0 u)]>
                     (users s)) s)
  end.

Definition is_user_locked (user : string) (now : Time) : M bool := λ s,
  match users s !! user with
  | None => (Return false, s)
  | Some u =>
      match locked_until u with
      | Some lu =>
          if bool_decide (now < lu) then (Return true, s)
          else
            (Return false,
             with_users (<[user := set_failed_login_attempts 0 (set_locked_until None u)]>
                           (users s)) s)
      | None => (Return false, s)
      end
  end.

(** *** Password-reset tokens; [rnd] is the draw of [secrets.token_urlsafe(32)] *)

Definition create_password_reset_token (uid rnd : string) (now : Time) : M string := λ s,
  (Return rnd,
   with_password_reset_tokens
     (<[rnd := {| td_user_id := uid; td_created_at := now;
                  td_expires_at := now + timedelta.hours 1 |}]>
        (password_reset_tokens s)) s).

Definition validate_reset_token (token : string) (now : Time) : M (option string) := λ s,
  match password_reset_tokens s !! token with
  | None => (Return None, s)
  | Some token_data =>
      if bool_decide (now > td_expires_at token_data) then
        (Return None,
         with_password_reset_tokens (delete token (password_reset_tokens s)) s)
      else (Return (Some (td_user_id token_data)), s)
  end.

(** *** Statistics; counting the locked users runs [is_user_locked] on each *)

Record Stats := {
  total_users : nat;
  active_users : nat;
  locked_users : nat;
  active_refresh_tokens : nat;
  blacklisted_tokens_count : nat;
  pending_reset_tokens : nat
}.

Definition locked_at (now : Time) (u : UserInDB) : bool :=
  match locked_until u with
  | Some lu => bool_decide (now < lu)
  | None => false
  end.

Definition unlock_expired (now : Time) (u : UserInDB) : UserInDB :=
  match locked_until u with
  | Some lu =>
      if bool_decide (now < lu) then u
      else set_failed_login_attempts 0 (set_locked_until None u)
  | None => u
  end.

Definition get_stats (now : Time) : M Stats := λ s,
  (Return
     {| total_users := size (users s);
        active_users := size (filter (λ kv, is_active kv.2 = true) (users s));
        locked_users := size (filter (λ kv, locked_at now kv.2 = true) (users s));
        active_refresh_tokens := size (refresh_tokens s);
        blacklisted_tokens_count := size (blacklisted_tokens s);
        pending_reset_tokens := size (password_reset_tokens s) |},
   with_users (unlock_expired now <$> users s) s).

(** The count of the locked users as the generator of [get_stats] takes it:
    [is_user_locked] is called on the users one after the other. *)
Definition count_locked (now : Time) (user_ids : list string) : M nat :=
  foldr (λ user rest,
           locked ← is_user_locked user now;
           n ← rest;
           mret (if (locked : bool) then S n else n))
        (mret 0%nat) user_ids.

(** ** Dependencies *)

(** Reading an attribute through a reference. *)
Definition getattr {A} (f : UserInDB → A) (user : string) : M A := λ s,
  match users s !! user with
  | Some u => (Return (f u), s)
  | None => (Raise (AttributeError "'NoneType' object has no attribute"), s)
  end.

Definition get_current_user (token : string) (now : Time) : M string :=
  blacklisted ← gets (is_token_blacklisted token);
  if (blacklisted : bool) then raise (HTTPException 401 "Token has been revoked")
  else
    payload ← decode_token token now;
    match c_user_id payload with
    | None => raise (HTTPException 401 "Invalid token")
    | Some user_id =>
        if bool_decide (c_type payload ≠ Some (TokenType_value ACCESS)) then
          raise (HTTPException 401 "Invalid token")
        else
          user ← gets (get_user_by_id user_id);
          match user with
          | None => raise (HTTPException 404 "User not found")
          | Some user =>
              active ← getattr is_active user;
              if (active : bool) then mret user
              else raise (HTTPException 403 "Inactive user")
          end
    end.

Definition get_current_active_user (token : string) (now : Time) : M string :=
  current_user ← get_current_user token now;
  active ← getattr is_active current_user;
  if (active : bool) then mret current_user
  else raise (HTTPException 400 "Inactive user").

Definition get_admin_user (token : string) (now : Time) : M string :=
  current_user ← get_current_user token now;
  r ← getattr role current_user;
  match r with
  | ADMIN => mret current_user
  | _ => raise (HTTPException 403 "Not enough permissions")
  end.

(** ** Routes *)

Definition response_of (u : UserInDB) : UserResponse :=
  {| ur_id := id u; ur_email := email u; ur_username := username u;
     ur_full_name := full_name u; ur_role := role u;
     ur_is_active := is_active u; ur_created_at := created_at u;
     ur_last_login := last_login u |}.

Definition user_response (user : string) : M UserResponse :=
  getattr response_of user.

Definition register (user_data : UserCreate) (hex salt : string) (now : Time)
    : M UserResponse := λ s,
  match create_user user_data hex salt now s with
  | (Return u, s') => (Return (response_of u), s')
  | (Raise (ValueError e), s') => (Raise (HTTPException 400 e), s')
  | (Raise e, s') => (Raise e, s')
  end.

Definition bad_credentials : Exception :=
  HTTPException 401 "Incorrect email/username or password".

Definition account_locked (remaining_time : Z) : Exception :=
  HTTPException 423
    ("Account locked. Try again in " +:+ pretty remaining_time +:+ " minutes").

(** The identifier is tried as an email first, then as a username. *)
Definition find_user (identifier : string) (s : InMemoryUserStore) : option string :=
  match get_user_by_email identifier s with
  | Some user => Some user
  | None => get_user_by_username identifier s
  end.

(** The readings of the clock during one call of [login], in the order in
    which the handler takes them: in [is_user_locked], for the time left
    of a lock, in [increment_failed_login], for [last_login], twice in
    each of the two calls of [create_token], for the expiry passed to
    [store_refresh_token], and in [store_refresh_token]. *)
Record LoginClock := {
  at_lock_check : Time;
  at_remaining : Time;
  at_failure : Time;
  at_last_login : Time;
  at_access_expire : Time;
  at_access_issued : Time;
  at_refresh_expire : Time;
  at_refresh_issued : Time;
  at_expires : Time;
  at_stored : Time
}.

Definition login_at (form_username form_password : string) (clock : LoginClock)
    : M Token :=
  user ← gets (find_user form_username);
  match user with
  | None => raise bad_credentials
  | Some user =>
      locked ← is_user_locked user (at_lock_check clock);
      if (locked : bool) then
        lu ← getattr locked_until user;
        match lu with
        | Some lu =>
            raise (account_locked
                     (timedelta.seconds (lu - at_remaining clock) `div` 60))
        | None => raise (TypeError "unsupported operand type(s) for -")
        end
      else
        hashed ← getattr hashed_password user;
        if negb (verify_password form_password hashed) then
          increment_failed_login user (at_failure clock);;
          raise bad_credentials
        else
          reset_failed_login user;;
          modify (λ s, with_users
                         (alter (set_last_login (Some (at_last_login clock))) user
                            (users s)) s);;
          data ← getattr (λ u, (id u, username u)) user;
          let access_token :=
            create_token_at data ACCESS
              (Some (timedelta.minutes settings.ACCESS_TOKEN_EXPIRE_MINUTES))
              (at_access_expire clock) (at_access_issued clock) in
          let refresh_token :=
            create_token_at data REFRESH
              (Some (timedelta.days settings.REFRESH_TOKEN_EXPIRE_DAYS))
              (at_refresh_expire clock) (at_refresh_issued clock) in
          store_refresh_token refresh_token data.1
            (at_expires clock + timedelta.days settings.REFRESH_TOKEN_EXPIRE_DAYS)
            (at_stored clock);;
          resp ← user_response user;
          mret {| tk_access_token := access_token;
                  tk_refresh_token := refresh_token;
                  tk_token_type := "bearer";
                  tk_expires_in := settings.ACCESS_TOKEN_EXPIRE_MINUTES * 60;
                  tk_user := resp |}
  end.

(** The clock of a call during which it does not advance. *)
Definition same_reading (now : Time) : LoginClock :=
  {| at_lock_check := now; at_remaining := now; at_failure := now;
     at_last_login := now; at_access_expire := now; at_access_issued := now;
     at_refresh_expire := now; at_refresh_issued := now;
     at_expires := now; at_stored := now |}.

(** [login] with one reading of the clock for the whole call. *)
Definition login (form_username form_password : string) (now : Time) : M Token :=
  login_at form_username form_password (same_reading now).

Definition refresh_token (request_refresh_token : string) (now : Time) : M Token :=
  payload ← decode_token request_refresh_token now;
  if bool_decide (c_type payload ≠ Some (TokenType_value REFRESH)) then
    raise (HTTPException 401 "Invalid token type")
  else
    user_id ← validate_refresh_token request_refresh_token now;
    match user_id with
    | None => raise (HTTPException 401 "Invalid refresh token")
    | Some user_id =>
        if negb (truthy user_id) then raise (HTTPException 401 "Invalid refresh token")
        else
          user ← gets (get_user_by_id user_id);
          match user with
          | None => raise (HTTPException 401 "User not found or inactive")
          | Some user =>
              active ← getattr is_active user;
              if negb active then raise (HTTPException 401 "User not found or inactive")
              else
                data ← getattr (λ u, (id u, username u)) user;
                let access_token :=
                  create_token data ACCESS
                    (Some (timedelta.minutes settings.ACCESS_TOKEN_EXPIRE_MINUTES)) now in
                let new_refresh_token :=
                  create_token data REFRESH
                    (Some (timedelta.days settings.REFRESH_TOKEN_EXPIRE_DAYS)) now in
                blacklist_token request_refresh_token;;
                store_refresh_token new_refresh_token data.1
                  (now + timedelta.days settings.REFRESH_TOKEN_EXPIRE_DAYS) now;;
                resp ← user_response user;
                mret {| tk_access_token := access_token;
                        tk_refresh_token := new_refresh_token;
                        tk_token_type := "bearer";
                        tk_expires_in := settings.ACCESS_TOKEN_EXPIRE_MINUTES * 60;
                        tk_user := resp |}
          end
    end.

Definition message (text : string) : Response := [("message", text)].

Definition root : M Response :=
  mret [("message", "AI Mini Games Authentication API"); ("version", "1.0.0");
        ("status", "operational"); ("docs", "/docs"); ("health", "/health")].

Definition logout (current_user token : string) : M Response :=
  blacklist_token token;;
  uid ← getattr id current_user;
  cleanup_user_tokens uid;;
  mret (message "Successfully logged out").

Definition get_current_user_profile (current_user : string) : M UserResponse :=
  user_response current_user.

Definition update_profile (full_name : option string) (current_user : string)
    (now : Time) : M Response :=
  let update_data :=
    match full_name with Some v => [A_full_name (Some v)] | None => [] end in
  match update_data with
  | [] => mret (message "Profile updated successfully")
  | _ =>
      uid ← getattr id current_user;
      update_user uid update_data now;;
      mret (message "Profile updated successfully")
  end.

Definition change_password (current_password new_password : string)
    (current_user salt : string) (now : Time) : M Response :=
  hashed ← getattr hashed_password current_user;
  if negb (verify_password current_password hashed) then
    raise (HTTPException 400 "Incorrect current password")
  else
    let new_hashed_password := get_password_hash salt new_password in
    uid ← getattr id current_user;
    update_user uid [A_hashed_password new_hashed_password] now;;
    cleanup_user_tokens uid;;
    mret (message "Password updated successfully. Please login again.").

Definition reset_link_sent : string :=
  "If the email exists, a reset link has been sent".

(** [request_email] is [request.email], the address as the request model
    has normalised it. *)
Definition request_password_reset (request_email rnd : string) (now : Time)
    : M Response :=
  user ← gets (get_user_by_email request_email);
  match user with
  | Some user =>
      uid ← getattr id user;
      reset_token ← create_password_reset_token uid rnd now;
      mret [("message", reset_link_sent); ("reset_token", reset_token)]
  | None => mret [("message", reset_link_sent)]
  end.

Definition invalid_or_expired : Exception :=
  HTTPException 400 "Invalid or expired reset token".

Definition reset_password (reset_token new_password salt : string) (now : Time)
    : M Response :=
  user_id ← validate_reset_token reset_token now;
  match user_id with
  | None => raise invalid_or_expired
  | Some user_id =>
      if negb (truthy user_id) then raise invalid_or_expired
      else
        let new_hashed_password := get_password_hash salt new_password in
        update_user user_id
          [A_hashed_password new_hashed_password;
           A_failed_login_attempts 0;
           A_locked_until None] now;;
        cleanup_user_tokens user_id;;
        modify (λ s, with_password_reset_tokens
                       (delete reset_token (password_reset_tokens s)) s);;
        user ← gets (get_user_by_id user_id);
        match user with
        | None => raise (AttributeError "'NoneType' object has no attribute 'email'")
        | Some _ => mret (message "Password reset successfully")
        end
  end.

Definition delete_account (current_user token : string) : M Response :=
  blacklist_token token;;
  uid ← getattr id current_user;
  deleted ← delete_user uid;
  if (deleted : bool) then mret (message "Account deleted successfully")
  else raise (HTTPException 500 "Failed to delete account").

(** [list(user_store.users.values())[skip:skip + limit]], where [user_ids]
    is the order in which the dictionary enumerates its keys. *)
Definition list_users (user_ids : list string) (skip limit : Z)
    : M (list UserResponse) :=
  gets (λ s, response_of <$>
               slice skip (skip + limit) (omap (λ k, users s !! k) user_ids)).

Definition get_system_stats (now : Time) : M Stats := get_stats now.

Definition health_check (now : Time) : M Stats := get_stats now.

Definition activate_user (user_id : string) (now : Time) : M Response :=
  user ← gets (get_user_by_id user_id);
  match user with
  | None => raise (HTTPException 404 "User not found")
  | Some _ =>
      update_user user_id [A_is_active true] now;;
      mret (message "User activated successfully")
  end.

Definition deactivate_user (user_id current_user : string) (now : Time) : M Response :=
  user ← gets (get_user_by_id user_id);
  match user with
  | None => raise (HTTPException 404 "User not found")
  | Some user =>
      uid ← getattr id user;
      cid ← getattr id current_user;
      if bool_decide (uid = cid) then
        raise (HTTPException 400 "Cannot deactivate your own account")
      else
        update_user user_id [A_is_active false] now;;
        cleanup_user_tokens user_id;;
        mret (message "User deactivated successfully")
  end.

End Backend.

(** ** Request models *)

Section Requests.
Context `{Ext : External} `{Val : Validator}.

(** [PasswordResetRequest(email=...)]: the field as pydantic stores it, or
    [None] when the address is refused and the handler does not run. *)
Definition PasswordResetRequest (email : string) : option string :=
  validate_email email.

(** The route [/auth/request-password-reset]: the request model is built
    from the body, then the handler runs on it. *)
Definition post_request_password_reset (body_email rnd : string) (now : Time)
    : option (M Response) :=
  request_email ← PasswordResetRequest body_email;
  Some (request_password_reset request_email rnd now).

End Requests.

(** No attribute of the patch is one the directory is indexed by. *)
Definition key_free (update_data : list Attr) : Prop :=
  Forall (λ a, match a with A_id _ | A_email _ | A_username _ => False | _ => True end)
    update_data.

(** ** Operations and reachable stores *)

(** One call of a method of the store, or one request served by a route; a
    route with dependencies runs them first. A request is given by the
    fields of its request model, as validated and normalised. *)
Inductive Op :=
| Call_create_user (user_data : UserCreate) (hex salt : string) (now : Time)
| Call_update_user (user_id : string) (update_data : list Attr) (now : Time)
| Call_delete_user (user_id : string)
| Call_store_refresh_token (token user_id : string) (expires_at now : Time)
| Call_validate_refresh_token (token : string) (now : Time)
| Call_blacklist_token (token : string)
| Call_cleanup_user_tokens (user_id : string)
| Call_increment_failed_login (user : string) (now : Time)
| Call_reset_failed_login (user : string)
| Call_is_user_locked (user : string) (now : Time)
| Call_create_password_reset_token (user_id rnd : string) (now : Time)
| Call_validate_reset_token (token : string) (now : Time)
| Call_get_stats (now : Time)
| Post_register (user_data : UserCreate) (hex salt : string) (now : Time)
| Post_login (form_username form_password : string) (now : Time)
| Post_refresh (request_refresh_token : string) (now : Time)
| Post_logout (token : string) (now : Time)
| Get_me (token : string) (now : Time)
| Put_me (full_name : option string) (token : string) (now : Time)
| Put_change_password (current_password new_password token salt : string) (now : Time)
| Post_request_password_reset (request_email rnd : string) (now : Time)
| Post_reset_password (reset_token new_password salt : string) (now : Time)
| Delete_account (token : string) (now : Time)
| Get_admin_users (skip limit : Z) (token : string) (now : Time)
| Get_admin_stats (token : string) (now : Time)
| Put_activate (user_id token : string) (now : Time)
| Put_deactivate (user_id token : string) (now : Time)
| Get_health (now : Time)
| Get_root.

Section Run.
Context `{Ext : External}.

(** The computation of an operation, its result forgotten. *)
Definition void {A} (m : M A) : M unit := m ≫= λ _, mret tt.

(** The page of [list_users] being forgotten, the enumeration it is given
    here, the keys in their order in the map, stands for any other. *)
Definition run (op : Op) : M unit :=
  match op with
  | Call_create_user d hex salt now => void (create_user d hex salt now)
  | Call_update_user uid upd now => void (update_user uid upd now)
  | Call_delete_user uid => void (delete_user uid)
  | Call_store_refresh_token t uid e now => store_refresh_token t uid e now
  | Call_validate_refresh_token t now => void (validate_refresh_token t now)
  | Call_blacklist_token t => blacklist_token t
  | Call_cleanup_user_tokens uid => cleanup_user_tokens uid
  | Call_increment_failed_login u now => increment_failed_login u now
  | Call_reset_failed_login u => reset_failed_login u
  | Call_is_user_locked u now => void (is_user_locked u now)
  | Call_create_password_reset_token uid rnd now =>
      void (create_password_reset_token uid rnd now)
  | Call_validate_reset_token t now => void (validate_reset_token t now)
  | Call_get_stats now => void (get_stats now)
  | Post_register d hex salt now => void (register d hex salt now)
  | Post_login u p now => void (login u p now)
  | Post_refresh t now => void (refresh_token t now)
  | Post_logout t now =>
      void (current_user ← get_current_user t now; logout current_user t)
  | Get_me t now =>
      void (current_user ← get_current_active_user t now;
            get_current_user_profile current_user)
  | Put_me full_name t now =>
      void (current_user ← get_current_active_user t now;
            update_profile full_name current_user now)
  | Put_change_password cur new t salt now =>
      void (current_user ← get_current_active_user t now;
            change_password cur new current_user salt now)
  | Post_request_password_reset e rnd now => void (request_password_reset e rnd now)
  | Post_reset_password t new salt now => void (reset_password t new salt now)
  | Delete_account t now =>
      void (current_user ← get_current_active_user t now;
            delete_account current_user t)
  | Get_admin_users skip limit t now =>
      void (get_admin_user t now;;
            user_ids ← gets (λ s, (map_to_list (users s)).*1);
            list_users user_ids skip limit)
  | Get_admin_stats t now => void (get_admin_user t now;; get_system_stats now)
  | Put_activate uid t now => void (get_admin_user t now;; activate_user uid now)
  | Put_deactivate uid t now =>
      void (current_user ← get_admin_user t now; deactivate_user uid current_user now)
  | Get_health now => void (health_check now)
  | Get_root => void root
  end.

Definition step (op : Op) (s : InMemoryUserStore) : InMemoryUserStore :=
  exec (run op) s.

Definition steps (ops : list Op) (s : InMemoryUserStore) : InMemoryUserStore :=
  foldl (λ s op, step op s) s ops.

(** The stores the operations can produce from the initial one. *)
Inductive reachable : InMemoryUserStore → Prop :=
| reachable_init salt now : reachable (init salt now)
| reachable_step op s : reachable s → reachable (step op s).

(** An operation the directory is safe under: the id drawn for a new user
    is not in use, and a patch of [update_user] leaves the id, the email and
    the username alone (as every patch the routes build does). *)
Definition directory_safe (op : Op) (s : InMemoryUserStore) : Prop :=
  match op with
  | Call_create_user _ hex _ _ | Post_register _ hex _ _ =>
      users s !! ("user-" +:+ hex) = None
  | Call_update_user _ upd _ => key_free upd
  | _ => True
  end.

Inductive reachable_safely : InMemoryUserStore → Prop :=
| reachable_safely_init salt now : reachable_safely (init salt now)
| reachable_safely_step op s :
    reachable_safely s → directory_safe op s → reachable_safely (step op s).

(** Login requests for [ident], one for each password and time of [attempts]. *)
Definition login_attempts (ident : string) (attempts : list (string * Time)) : list Op :=
  (λ a, Post_login ident a.1 a.2) <$> attempts.

(** Every operation of [ops], run in turn from [s], is safe where it runs. *)
Fixpoint all_safe (ops : list Op) (s : InMemoryUserStore) : Prop :=
  match ops with
  | [] => True
  | op :: ops => directory_safe op s ∧ all_safe ops (step op s)
  end.

End Run.

(** ** Vocabulary of the properties *)

(** A computation respects [R] when every run relates the store it starts
    from to the store it leaves. *)
Definition preserves (R : relation InMemoryUserStore) {A} (m : M A) : Prop :=
  ∀ s, R s (m s).2.

(** The operations that neither create nor delete a user, nor patch an
    attribute the directory is indexed by. *)
Definition directory_neutral (op : Op) : Prop :=
  match op with
  | Call_create_user _ _ _ _ | Post_register _ _ _ _
  | Call_delete_user _ | Delete_account _ _ => False
  | Call_update_user _ upd _ => key_free upd
  | _ => True
  end.

(** The blacklist of [s'] contains the blacklist of [s]. *)
Definition blacklist_le (s s' : InMemoryUserStore) : Prop :=
  blacklisted_tokens s ⊆ blacklisted_tokens s'.

(** The failure kind [InvalidToken] of the refresh operation: a token that
    is malformed or past its own expiry, of the wrong kind, or blacklisted,
    unknown or expired in the ledger. *)
Definition InvalidToken (e : Exception) : Prop :=
  e = HTTPException 401 "Could not validate credentials" ∨
  e = HTTPException 401 "Invalid token type" ∨
  e = HTTPException 401 "Invalid refresh token".

(** Every user of [s'] is a user of [s] or is stored under a non-empty id. *)
Definition users_le (s s' : InMemoryUserStore) : Prop :=
  ∀ k, is_Some (users s' !! k) → is_Some (users s !! k) ∨ truthy k = true.

Section Rotation.
Context `{Ext : External}.

(** The token pair the refresh route answers with for the user [u], and the
    store it leaves: the presented token blacklisted, the new refresh token
    recorded. *)
Definition rotated (token : string) (u : UserInDB) (now : Time)
    (s : InMemoryUserStore) : Token * InMemoryUserStore :=
  let data := (id u, username u) in
  let new_refresh_token :=
    create_token data REFRESH
      (Some (timedelta.days settings.REFRESH_TOKEN_EXPIRE_DAYS)) now in
  ({| tk_access_token :=
        create_token data ACCESS
          (Some (timedelta.minutes settings.ACCESS_TOKEN_EXPIRE_MINUTES)) now;
      tk_refresh_token := new_refresh_token;
      tk_token_type := "bearer";
      tk_expires_in := settings.ACCESS_TOKEN_EXPIRE_MINUTES * 60;
      tk_user := response_of u |},
   with_refresh_tokens
     (<[new_refresh_token :=
          {| td_user_id := id u;
             td_expires_at := now + timedelta.days settings.REFRESH_TOKEN_EXPIRE_DAYS;
             td_created_at := now |}]> (refresh_tokens s))
     (with_blacklisted_tokens ({[token]} ∪ blacklisted_tokens s) s)).

End Rotation.

(** The directory is the same in [s] and [s']: the indices are equal, and
    the same ids hold users with the same id, email and username. *)
Definition same_user (u u' : UserInDB) : Prop :=
  id u' = id u ∧ email u' = email u ∧ username u' = username u.

Definition same_directory (s s' : InMemoryUserStore) : Prop :=
  email_index s' = email_index s ∧ username_index s' = username_index s ∧
  ∀ k, option_Forall2 same_user (users s !! k) (users s' !! k).

(** The indices agree with the user records: an index entry leads to a
    stored user with that email or username, and a stored user is indexed
    under its email and under its username. *)
Definition index_consistent (s : InMemoryUserStore) : Prop :=
  (∀ e k, email_index s !! e = Some k →
     ∃ u, users s !! k = Some u ∧ email u = e) ∧
  (∀ n k, username_index s !! n = Some k →
     ∃ u, users s !! k = Some u ∧ username u = n) ∧
  (∀ k u, users s !! k = Some u →
     email_index s !! email u = Some k ∧ username_index s !! username u = Some k).

(** Consistency of the indices carries over from [s] to [s']. *)
Definition keeps_consistent (s s' : InMemoryUserStore) : Prop :=
  index_consistent s → index_consistent s'.

(** The stored users of [s'] have the property [P] when those of [s] do. *)
Definition users_have (P : string → UserInDB → Prop) (s : InMemoryUserStore) : Prop :=
  ∀ k u, users s !! k = Some u → P k u.

Definition keeps_users (P : string → UserInDB → Prop)
    (s s' : InMemoryUserStore) : Prop :=
  users_have P s → users_have P s'.

(** ** A sample instance of the external collaborators

    A transparent hasher and codec on which the operations can be evaluated:
    the hash is the salt, a dollar sign and the password; a token spells out
    its claims, separated by dots, and is refused once its expiry is past. *)

Module Sample.

Fixpoint after (sep : ascii) (s : string) : string :=
  match s with
  | EmptyString => EmptyString
  | String c r => if Ascii.eqb c sep then r else after sep r
  end.

Fixpoint split_on (sep : ascii) (s : string) : list string :=
  match s with
  | EmptyString => [EmptyString]
  | String c r =>
      if Ascii.eqb c sep then EmptyString :: split_on sep r
      else
        match split_on sep r with
        | h :: t => String c h :: t
        | [] => [String c EmptyString]
        end
  end.

Fixpoint digits (s : string) (acc : Z) : Z :=
  match s with
  | EmptyString => acc
  | String c r => digits r (acc * 10 + (Z.of_nat (nat_of_ascii c) - 48))
  end.

Definition encode (c : Claims) : string :=
  default "" (c_type c) +:+ "." +:+ default "" (c_user_id c) +:+ "." +:+
  default "" (c_username c) +:+ "." +:+ pretty (c_exp c) +:+ "." +:+
  pretty (c_iat c).

Definition decode (token : string) (now : Time) : option Claims :=
  match split_on "." token with
  | [ty; uid; un; e; i] =>
      if bool_decide (digits e 0 < now) then None
      else Some {| c_user_id := Some uid; c_username := Some un;
                   c_type := Some ty; c_exp := digits e 0;
                   c_iat := digits i 0 |}
  | _ => None
  end.

(** The address split at its last at sign. *)
Fixpoint rsplit_at (s : string) : option (string * string) :=
  match s with
  | EmptyString => None
  | String c r =>
      match rsplit_at r with
      | Some (l, d) => Some (String c l, d)
      | None => if Ascii.eqb c "@" then Some (EmptyString, r) else None
      end
  end.

(** A validator that accepts an address with a non-empty local part and a
    non-empty domain, keeps the local part and lower-cases the domain, as
    email-validator normalises an address. *)
Definition normalize (email : string) : option string :=
  match rsplit_at email with
  | Some (l, d) =>
      if truthy l && truthy d then Some (l +:+ "@" +:+ lower d) else None
  | None => None
  end.

#[export] Instance val : Validator := {| validate_email := normalize |}.

#[export] Instance ext : External :=
  {| pwd_hash salt password := salt +:+ "$" +:+ password;
     pwd_verify plain hashed := String.eqb (after "$" hashed) plain;
     jwt_encode := encode;
     jwt_decode := decode |}.

Definition s0 : InMemoryUserStore := init "salt0" 1000.

Definition bob : UserCreate :=
  {| uc_email := "Bob@x.com"; uc_username := "Bob";
     uc_full_name := None; uc_password := "Passw0rd";
     uc_confirm_password := "Passw0rd" |}.

(** Bob registers, the administrator logs in and deactivates him, and Bob
    logs in again. *)
Definition admin_access_token : string := "access.admin-001.admin.1800002000.2000".
Definition admin_refresh_token : string := "refresh.admin-001.admin.604800002000.2000".
Definition bob_refresh_token : string := "refresh.user-b0b.bob.604800003000.3000".

Definition deactivated_ops : list Op :=
  [Post_register bob "b0b" "salt1" 1500;
   Post_login "admin" "Admin123!" 2000;
   Put_deactivate "user-b0b" admin_access_token 2500;
   Post_login "bob" "Passw0rd" 3000].

(** The store after Bob has registered. *)
Definition s1 : InMemoryUserStore :=
  step (Post_register bob "b0b" "salt1" 1500) s0.

(** Five failed logins of the administrator, then a request to reset the
    password. *)
Definition locked_ops : list Op :=
  login_attempts "admin"
    [("a", 2000); ("b", 2001); ("c", 2002); ("d", 2003); ("e", 2004)] ++
  [Post_request_password_reset "admin@aimini.games" "rst" 3000].

(** The record stored under [k] and the reset token recorded as [t], where
    there is one. *)
Definition stored (k : string) (s : InMemoryUserStore) : UserInDB :=
  default (admin_user "salt0" 1000) (users s !! k).

Definition recorded (t : string) (s : InMemoryUserStore) : TokenData :=
  default {| td_user_id := ""; td_expires_at := 0; td_created_at := 0 |}
    (password_reset_tokens s !! t).

End Sample.

(** * Properties *)

(** Unfolding the monad of store computations. *)
Ltac run_monad :=
  unfold mbind, M_bind, bind, mret, M_ret, ret, raise, gets, modify; simpl.

(** Closed goals over the sample instance are settled by evaluation. *)
Ltac by_compute := vm_compute; first [reflexivity | exact I | done].

(** ** Relations that every step of a computation respects *)

Section Preserve.
Context (R : relation InMemoryUserStore) `{!PreOrder R}.

Lemma preserves_ret {A} (a : A) : preserves R (mret a).
Proof. intros s. reflexivity. Qed.

Lemma preserves_raise {A} e : preserves R (@raise A e).
Proof. intros s. reflexivity. Qed.

Lemma preserves_gets {A} (f : InMemoryUserStore → A) : preserves R (gets f).
Proof. intros s. reflexivity. Qed.

Lemma preserves_bind {A B} (m : M A) (k : A → M B) :
  preserves R m → (∀ a, preserves R (k a)) → preserves R (m ≫= k).
Proof.
  intros Hm Hk s. unfold mbind, M_bind, bind.
  specialize (Hm s). destruct (m s) as [[a|e] s1]; simpl in *; [|done].
  etrans; [exact Hm|apply Hk].
Qed.

Lemma preserves_void {A} (m : M A) : preserves R m → preserves R (void m).
Proof. intros Hm. apply preserves_bind; [done|intros; apply preserves_ret]. Qed.

Context `{Ext : External}.

Lemma preserves_getattr {A} (f : UserInDB → A) user : preserves R (getattr f user).
Proof. intros s. unfold getattr. destruct (users s !! user); reflexivity. Qed.

Lemma preserves_decode_token token now : preserves R (decode_token token now).
Proof.
  unfold decode_token. destruct (jwt_decode token now);
    [apply preserves_ret|apply preserves_raise].
Qed.

Hypothesis R_update_user : ∀ uid upd now,
  key_free upd → preserves R (update_user uid upd now).
Hypothesis R_store_refresh_token : ∀ t uid e now,
  preserves R (store_refresh_token t uid e now).
Hypothesis R_validate_refresh_token : ∀ t now, preserves R (validate_refresh_token t now).
Hypothesis R_blacklist_token : ∀ t, preserves R (blacklist_token t).
Hypothesis R_cleanup_user_tokens : ∀ uid, preserves R (cleanup_user_tokens uid).
Hypothesis R_increment_failed_login : ∀ u now, preserves R (increment_failed_login u now).
Hypothesis R_reset_failed_login : ∀ u, preserves R (reset_failed_login u).
Hypothesis R_is_user_locked : ∀ u now, preserves R (is_user_locked u now).
Hypothesis R_create_password_reset_token : ∀ uid rnd now,
  preserves R (create_password_reset_token uid rnd now).
Hypothesis R_validate_reset_token : ∀ t now, preserves R (validate_reset_token t now).
Hypothesis R_get_stats : ∀ now, preserves R (get_stats now).
Hypothesis R_set_last_login : ∀ user now,
  preserves R (modify (λ s, with_users (alter (set_last_login (Some now)) user (users s)) s)).
Hypothesis R_delete_reset_token : ∀ t,
  preserves R (modify (λ s, with_password_reset_tokens
                            (delete t (password_reset_tokens s)) s)).

Ltac preserve_step :=
  first
    [ apply preserves_ret | apply preserves_raise | apply preserves_gets
    | apply preserves_getattr | apply preserves_decode_token
    | apply R_store_refresh_token | apply R_validate_refresh_token
    | apply R_blacklist_token | apply R_cleanup_user_tokens
    | apply R_increment_failed_login | apply R_reset_failed_login
    | apply R_is_user_locked | apply R_create_password_reset_token
    | apply R_validate_reset_token | apply R_get_stats
    | apply R_set_last_login | apply R_delete_reset_token
    | apply R_update_user; repeat constructor
    | apply preserves_void
    | apply preserves_bind; [|intros ?]
    | match goal with
      | |- preserves _ (match ?x with _ => _ end) => destruct x
      end ].

Ltac preserve := repeat preserve_step.

Lemma preserves_get_current_user token now : preserves R (get_current_user token now).
Proof. unfold get_current_user. preserve. Qed.

Lemma preserves_get_current_active_user token now :
  preserves R (get_current_active_user token now).
Proof.
  unfold get_current_active_user. apply preserves_bind;
    [apply preserves_get_current_user|intros ?]. preserve.
Qed.

Lemma preserves_get_admin_user token now : preserves R (get_admin_user token now).
Proof.
  unfold get_admin_user. apply preserves_bind;
    [apply preserves_get_current_user|intros ?]. preserve.
Qed.

Lemma preserves_login u p now : preserves R (login u p now).
Proof. unfold login, login_at, user_response. preserve. Qed.

Lemma preserves_refresh_token t now : preserves R (refresh_token t now).
Proof. unfold refresh_token, user_response. preserve. Qed.

Lemma preserves_logout cu t : preserves R (logout cu t).
Proof. unfold logout. preserve. Qed.

Lemma preserves_update_profile fn cu now : preserves R (update_profile fn cu now).
Proof. unfold update_profile. destruct fn; preserve. Qed.

Lemma preserves_change_password cur new cu salt now :
  preserves R (change_password cur new cu salt now).
Proof. unfold change_password. preserve. Qed.

Lemma preserves_request_password_reset e rnd now :
  preserves R (request_password_reset e rnd now).
Proof. unfold request_password_reset. preserve. Qed.

Lemma preserves_reset_password t new salt now :
  preserves R (reset_password t new salt now).
Proof. unfold reset_password. preserve. Qed.

Lemma preserves_activate_user uid now : preserves R (activate_user uid now).
Proof. unfold activate_user. preserve. Qed.

Lemma preserves_deactivate_user uid cu now : preserves R (deactivate_user uid cu now).
Proof. unfold deactivate_user. preserve. Qed.

Lemma preserves_run op : directory_neutral op → preserves R (run op).
Proof.
  destruct op; simpl; intros Hop; try done;
    try (apply preserves_void);
    try (apply preserves_bind;
         [first [apply preserves_get_current_user
                |apply preserves_get_current_active_user
                |apply preserves_get_admin_user]|intros ?]);
    first
      [ by apply R_update_user
      | apply preserves_login | apply preserves_refresh_token
      | apply preserves_logout | apply preserves_update_profile
      | apply preserves_change_password | apply preserves_request_password_reset
      | apply preserves_reset_password | apply preserves_activate_user
      | apply preserves_deactivate_user
      | unfold get_current_user_profile, user_response, list_users,
          get_system_stats, health_check; preserve ].
Qed.

(** With the three remaining methods, every operation. *)
Hypothesis R_create_user : ∀ d hex salt now, preserves R (create_user d hex salt now).
Hypothesis R_delete_user : ∀ uid, preserves R (delete_user uid).
Hypothesis R_update_user_any : ∀ uid upd now, preserves R (update_user uid upd now).

Lemma preserves_register d hex salt now : preserves R (register d hex salt now).
Proof.
  intros s. unfold register. pose proof (R_create_user d hex salt now s) as Hc.
  destruct (create_user d hex salt now s) as [[u|[]] s']; done.
Qed.

Lemma preserves_delete_account cu t : preserves R (delete_account cu t).
Proof. unfold delete_account. preserve. apply R_delete_user. Qed.

Lemma preserves_run_any op : preserves R (run op).
Proof.
  destruct op; try (apply preserves_run; exact I); simpl.
  - apply preserves_void, R_create_user.
  - apply preserves_void, R_update_user_any.
  - apply preserves_void, R_delete_user.
  - apply preserves_void, preserves_register.
  - apply preserves_void, preserves_bind;
      [apply preserves_get_current_active_user|intros cu].
    apply preserves_delete_account.
Qed.

End Preserve.

(** ** The blacklist only grows *)

Lemma blacklist_le_preorder : PreOrder blacklist_le.
Proof. split; unfold blacklist_le; [intros s|intros s1 s2 s3]; set_solver. Qed.
#[local] Existing Instance blacklist_le_preorder.

Section Blacklist.
Context `{Ext : External}.

Ltac prim :=
  intros s; unfold blacklist_le, modify; simpl;
  repeat case_match; simpl; set_solver.

Lemma blacklist_le_run op : preserves blacklist_le (run op).
Proof.
  apply preserves_run_any; try apply _;
    intros; unfold create_user, update_user, delete_user, exec,
      cleanup_user_tokens, blacklist_token, store_refresh_token,
      validate_refresh_token, increment_failed_login, reset_failed_login,
      is_user_locked, create_password_reset_token, validate_reset_token,
      get_stats; prim.
Qed.

Lemma blacklist_le_step op s : blacklisted_tokens s ⊆ blacklisted_tokens (step op s).
Proof. apply (blacklist_le_run op s). Qed.

Lemma blacklist_le_steps ops s : blacklisted_tokens s ⊆ blacklisted_tokens (steps ops s).
Proof.
  revert s. induction ops as [|op ops IH]; intros s; simpl; [done|].
  etrans; [apply (blacklist_le_step op)|apply IH].
Qed.

Lemma cleanup_user_tokens_blacklist uid s t :
  t ∈ blacklisted_tokens (exec (cleanup_user_tokens uid) s) ↔
  t ∈ blacklisted_tokens s ∨
  ∃ d, refresh_tokens s !! t = Some d ∧ td_user_id d = uid.
Proof.
  unfold cleanup_user_tokens, exec, modify; simpl.
  rewrite elem_of_union, elem_of_dom. unfold is_Some.
  setoid_rewrite (map_lookup_filter_Some (λ kv : string * TokenData, td_user_id kv.2 = uid)).
  simpl. split; [intros [[d [? ?]]|?]|intros [?|[d [? ?]]]]; eauto.
Qed.

Lemma cleanup_user_tokens_ledger uid s t :
  refresh_tokens (exec (cleanup_user_tokens uid) s) !! t =
  match refresh_tokens s !! t with
  | Some d => if decide (td_user_id d = uid) then None else Some d
  | None => None
  end.
Proof.
  unfold cleanup_user_tokens, exec, modify; simpl.
  destruct (refresh_tokens s !! t) as [d|] eqn:E.
  - case_decide.
    + apply map_lookup_filter_None. right. intros d' Hd'. simpl. naive_solver.
    + apply map_lookup_filter_Some. done.
  - apply map_lookup_filter_None. left. done.
Qed.

Lemma delete_user_exec uid s :
  exec (delete_user uid) s =
  match users s !! uid with
  | None => s
  | Some u =>
      exec (cleanup_user_tokens uid)
        (with_users (delete uid (users s))
           (with_username_index (delete (username u) (username_index s))
              (with_email_index (delete (email u) (email_index s)) s)))
  end.
Proof. unfold delete_user, exec at 1. by destruct (users s !! uid). Qed.

(** C9. No operation removes an entry from the blacklist: after any single
    call of a method of the store or of a route handler, the blacklist
    contains the blacklist before it. Revoking the tokens of a user adds
    exactly the refresh tokens the ledger holds for that user, and deleting
    an existing user does the same. *)
Theorem blacklist_only_grows :
  (∀ op s, blacklisted_tokens s ⊆ blacklisted_tokens (step op s)) ∧
  (∀ uid s t,
     t ∈ blacklisted_tokens (exec (cleanup_user_tokens uid) s) ↔
     t ∈ blacklisted_tokens s ∨
     ∃ d, refresh_tokens s !! t = Some d ∧ td_user_id d = uid) ∧
  (∀ uid s t,
     t ∈ blacklisted_tokens (exec (delete_user uid) s) ↔
     t ∈ blacklisted_tokens s ∨
     is_Some (users s !! uid) ∧
     ∃ d, refresh_tokens s !! t = Some d ∧ td_user_id d = uid).
Proof.
  split; [apply blacklist_le_step|]. split; [apply cleanup_user_tokens_blacklist|].
  intros uid s t. rewrite delete_user_exec.
  destruct (users s !! uid) as [u|] eqn:E.
  - rewrite cleanup_user_tokens_blacklist. simpl.
    split; [intros [?|?]|intros [?|[_ ?]]]; eauto.
  - split; [by left|]. intros [?|[[? ?] _]]; done.
Qed.

End Blacklist.

(** ** The token ledger *)

Section Ledger.
Context `{Ext : External}.

Lemma validate_refresh_token_blacklisted token now s :
  token ∈ blacklisted_tokens s →
  validate_refresh_token token now s = (Return None, s).
Proof. intros Hb. unfold validate_refresh_token. by rewrite bool_decide_eq_true_2. Qed.

Lemma validate_refresh_token_valid token now s d :
  token ∉ blacklisted_tokens s → refresh_tokens s !! token = Some d →
  ¬ (now > td_expires_at d) →
  validate_refresh_token token now s = (Return (Some (td_user_id d)), s).
Proof.
  intros Hb Hd He. unfold validate_refresh_token.
  rewrite bool_decide_eq_false_2 by done. rewrite Hd.
  by rewrite bool_decide_eq_false_2.
Qed.

Lemma validate_refresh_token_expired token now s d :
  token ∉ blacklisted_tokens s → refresh_tokens s !! token = Some d →
  now > td_expires_at d →
  validate_refresh_token token now s =
  (Return None, with_refresh_tokens (delete token (refresh_tokens s)) s).
Proof.
  intros Hb Hd He. unfold validate_refresh_token.
  rewrite bool_decide_eq_false_2 by done. rewrite Hd.
  by rewrite bool_decide_eq_true_2.
Qed.

Lemma validate_refresh_token_unknown token now s :
  refresh_tokens s !! token = None →
  validate_refresh_token token now s = (Return None, s).
Proof.
  intros Hd. unfold validate_refresh_token. rewrite Hd. by case_bool_decide.
Qed.

(** C5, as amended. Validating a refresh token returns the owning user id
    exactly when the token is not blacklisted, is known to the ledger and is
    unexpired, and returns absent exactly when it is blacklisted, unknown or
    expired. The expired entry of a token that is not blacklisted is evicted
    by the lookup; in every other case, a blacklisted token with an expired
    entry included, the store is left as it was. *)
Theorem validate_refresh_token_spec token now s :
  (∀ uid, eval (validate_refresh_token token now) s = Return (Some uid) ↔
     (token ∉ blacklisted_tokens s) ∧
     ∃ d, refresh_tokens s !! token = Some d ∧ ¬ (now > td_expires_at d) ∧
          td_user_id d = uid) ∧
  (eval (validate_refresh_token token now) s = Return None ↔
     token ∈ blacklisted_tokens s ∨ refresh_tokens s !! token = None ∨
     ∃ d, refresh_tokens s !! token = Some d ∧ now > td_expires_at d) ∧
  exec (validate_refresh_token token now) s =
    match refresh_tokens s !! token with
    | Some d =>
        if decide ((token ∉ blacklisted_tokens s) ∧ now > td_expires_at d)
        then with_refresh_tokens (delete token (refresh_tokens s)) s
        else s
    | None => s
    end.
Proof.
  unfold eval, exec.
  destruct (decide (token ∈ blacklisted_tokens s)) as [Hb|Hb].
  { rewrite validate_refresh_token_blacklisted by done. simpl.
    split; [|split].
    - intros uid. split; [done|]. intros [? _]. done.
    - split; [by left|done].
    - destruct (refresh_tokens s !! token); [|done].
      rewrite decide_False; [done|]. intros [? _]. done. }
  destruct (refresh_tokens s !! token) as [d|] eqn:Hd.
  2:{ rewrite validate_refresh_token_unknown by done. simpl.
      split; [|split].
      - intros uid. split; [done|]. intros [_ [d [? _]]]. done.
      - split; [auto|done].
      - done. }
  destruct (decide (now > td_expires_at d)) as [He|He].
  - rewrite (validate_refresh_token_expired _ _ _ d) by done. simpl.
    split; [|split].
    + intros uid. split; [done|]. intros [_ [d' [? [? _]]]]. congruence.
    + split; [|done]. intros _. right. right. eauto.
    + by rewrite decide_True.
  - rewrite (validate_refresh_token_valid _ _ _ d) by done. simpl.
    split; [|split].
    + intros uid. split.
      * intros [= <-]. eauto 6.
      * intros [_ [d' [? [_ <-]]]]. congruence.
    + split; [done|]. intros [?|[?|[d' [? ?]]]]; [done|done|congruence].
    + rewrite decide_False; [done|]. intros [_ ?]. done.
Qed.

(** A blacklisted token stays unusable whatever happens next. *)
Lemma blacklisted_never_valid s token ops now :
  token ∈ blacklisted_tokens s →
  validate_refresh_token token now (steps ops s) = (Return None, steps ops s).
Proof.
  intros Hb. apply validate_refresh_token_blacklisted.
  by apply (blacklist_le_steps ops s).
Qed.

Lemma blacklist_token_exec token s :
  exec (blacklist_token token) s =
  with_blacklisted_tokens ({[token]} ∪ blacklisted_tokens s) s.
Proof. done. Qed.

End Ledger.

(** ** Users are stored under non-empty ids *)

Lemma users_le_preorder : PreOrder users_le.
Proof.
  split; unfold users_le; [intros s k; auto|intros s1 s2 s3 H12 H23 k Hk].
  destruct (H23 k Hk) as [H2|?]; [|by right]. exact (H12 k H2).
Qed.
#[local] Existing Instance users_le_preorder.

Section Keys.
Context `{Ext : External}.

Lemma users_le_same s s' : users s' = users s → users_le s s'.
Proof. intros E k. rewrite E. auto. Qed.

Lemma users_le_insert s k0 u0 u :
  users s !! k0 = Some u0 → users_le s (with_users (<[k0 := u]> (users s)) s).
Proof.
  intros E k. simpl. destruct (decide (k0 = k)) as [<-|Hne].
  - rewrite E. eauto.
  - rewrite lookup_insert_ne by done. auto.
Qed.

Ltac keys :=
  intros s; unfold modify; simpl;
  repeat case_match; simpl;
  first [ by apply users_le_same
        | by eapply users_le_insert
        | reflexivity ].

Lemma users_le_run op : preserves users_le (run op).
Proof.
  apply preserves_run_any; try apply _; intros.
  - unfold update_user. keys.
  - keys.
  - unfold validate_refresh_token. keys.
  - keys.
  - keys.
  - unfold increment_failed_login. keys.
  - unfold reset_failed_login. keys.
  - unfold is_user_locked. keys.
  - unfold create_password_reset_token. keys.
  - unfold validate_reset_token. keys.
  - intros s k. simpl. rewrite lookup_fmap, fmap_is_Some. auto.
  - intros s k. simpl. rewrite lookup_alter_is_Some. auto.
  - keys.
  - intros s k. unfold create_user. repeat case_match; simpl; auto.
    destruct (decide ("user-" +:+ hex = k)) as [<-|Hne]; [by right|].
    rewrite lookup_insert_ne by done. auto.
  - intros s k. change ((delete_user uid s).2) with (exec (delete_user uid) s).
    rewrite delete_user_exec. destruct (users s !! uid); [|auto]. simpl.
    rewrite lookup_delete_is_Some. intros [_ ?]. auto.
  - unfold update_user. keys.
Qed.

Lemma reachable_users_truthy s k :
  reachable s → is_Some (users s !! k) → truthy k = true.
Proof.
  induction 1 as [salt now|op s Hs IH].
  - simpl. intros [u Hu]. apply lookup_singleton_Some in Hu as [<- _]. done.
  - intros Hk. destruct (users_le_run op s k Hk); auto.
Qed.

End Keys.

(** ** Rotation of refresh tokens *)

Section Refresh.
Context `{Ext : External}.

Lemma getattr_Some {A} (f : UserInDB → A) user s u :
  users s !! user = Some u → getattr f user s = (Return (f u), s).
Proof. intros Hu. unfold getattr. by rewrite Hu. Qed.

(** A blacklisted token is refused by the refresh route, with [InvalidToken]. *)
Lemma refresh_token_blacklisted token now s :
  token ∈ blacklisted_tokens s →
  ∃ e, refresh_token token now s = (Raise e, s) ∧ InvalidToken e.
Proof.
  intros Hb. unfold refresh_token, decode_token, InvalidToken.
  destruct (jwt_decode token now) as [payload|]; run_monad; [|eauto].
  case_bool_decide; [eauto 6|].
  rewrite validate_refresh_token_blacklisted by done. eauto 6.
Qed.

Lemma refresh_token_rotates token now s payload d u :
  jwt_decode token now = Some payload →
  c_type payload = Some (TokenType_value REFRESH) →
  token ∉ blacklisted_tokens s →
  refresh_tokens s !! token = Some d →
  ¬ (now > td_expires_at d) →
  truthy (td_user_id d) = true →
  users s !! td_user_id d = Some u →
  is_active u = true →
  refresh_token token now s =
  (Return (rotated token u now s).1, (rotated token u now s).2).
Proof.
  intros Hdec Hty Hb Hd He Ht Hu Ha.
  unfold refresh_token, decode_token. rewrite Hdec. run_monad.
  rewrite bool_decide_eq_false_2; [|intros Hne; apply Hne; exact Hty].
  rewrite (validate_refresh_token_valid _ _ _ d) by done.
  rewrite Ht. simpl. unfold get_user_by_id, users_get. rewrite Hu.
  rewrite (getattr_Some _ _ _ u) by exact Hu. rewrite Ha. simpl.
  rewrite (getattr_Some _ _ _ u) by exact Hu. unfold user_response.
  rewrite (getattr_Some _ _ _ u) by exact Hu. done.
Qed.

Lemma validate_refresh_token_Some token now s uid :
  eval (validate_refresh_token token now) s = Return (Some uid) →
  (token ∉ blacklisted_tokens s) ∧
  ∃ d, refresh_tokens s !! token = Some d ∧ ¬ (now > td_expires_at d) ∧
       td_user_id d = uid.
Proof.
  unfold eval, validate_refresh_token. case_bool_decide; [done|].
  destruct (refresh_tokens s !! token) as [d|]; [|done].
  case_bool_decide; [done|]. intros [= <-]. eauto.
Qed.

Lemma reachable_steps ops s : reachable s → reachable (steps ops s).
Proof.
  revert s. induction ops as [|op ops IH]; intros s Hs; simpl; [done|].
  apply IH. by constructor.
Qed.

(** C4, as amended. A token of the blacklist is never valid, in any store
    (reachable or not) and whether or not the ledger still holds an entry
    for it: its validation returns absent and changes nothing, now and
    after any further operations. Blacklisting does not remove the ledger
    entry: [blacklist_token] marks the token and keeps the ledger as it is,
    and so does the rotation of the refresh route, after which the presented
    token is in the blacklist and still has an entry in the ledger. Only
    [cleanup_user_tokens] deletes the entry of each token of the user and
    blacklists it in the same step. *)
Theorem blacklisted_token_unusable s token :
  (token ∈ blacklisted_tokens s →
   ∀ ops now,
     validate_refresh_token token now (steps ops s) = (Return None, steps ops s)) ∧
  (let s' := exec (blacklist_token token) s in
   token ∈ blacklisted_tokens s' ∧ refresh_tokens s' = refresh_tokens s ∧
   ∀ ops now,
     validate_refresh_token token now (steps ops s') = (Return None, steps ops s')) ∧
  (∀ now payload d u,
     jwt_decode token now = Some payload →
     c_type payload = Some (TokenType_value REFRESH) →
     (token ∉ blacklisted_tokens s) →
     refresh_tokens s !! token = Some d → ¬ (now > td_expires_at d) →
     truthy (td_user_id d) = true →
     users s !! td_user_id d = Some u → is_active u = true →
     let s' := exec (refresh_token token now) s in
     token ∈ blacklisted_tokens s' ∧
     is_Some (refresh_tokens s' !! token) ∧
     (create_token (id u, username u) REFRESH
        (Some (timedelta.days settings.REFRESH_TOKEN_EXPIRE_DAYS)) now ≠ token →
      refresh_tokens s' !! token = Some d) ∧
     ∀ ops now',
       validate_refresh_token token now' (steps ops s') = (Return None, steps ops s')) ∧
  (∀ uid d, refresh_tokens s !! token = Some d → td_user_id d = uid →
     let s' := exec (cleanup_user_tokens uid) s in
     refresh_tokens s' !! token = None ∧ token ∈ blacklisted_tokens s' ∧
     ∀ ops now,
       validate_refresh_token token now (steps ops s') = (Return None, steps ops s')).
Proof.
  split_and!.
  - intros Hb ops now. by apply blacklisted_never_valid.
  - assert (token ∈ blacklisted_tokens (exec (blacklist_token token) s)) as Hb.
    { rewrite blacklist_token_exec. simpl. set_solver. }
    split; [done|]. split; [done|].
    intros ops now. by apply blacklisted_never_valid.
  - intros now payload d u Hdec Hty Hnb Hd He Ht Hu Ha s'.
    pose proof (refresh_token_rotates token now s payload d u
                  Hdec Hty Hnb Hd He Ht Hu Ha) as Hr.
    assert (s' = (rotated token u now s).2) as Hs'
      by (unfold s', exec; by rewrite Hr).
    assert (token ∈ blacklisted_tokens s') as Hb
      by (rewrite Hs'; simpl; set_solver).
    split_and!; [done| | |].
    + rewrite Hs'. simpl. apply lookup_insert_is_Some'. right. eauto.
    + intros Hne. rewrite Hs'. simpl. by rewrite lookup_insert_ne.
    + intros ops now'. by apply blacklisted_never_valid.
  - intros uid d Hd Hu s'.
    assert (token ∈ blacklisted_tokens s') as Hb.
    { apply cleanup_user_tokens_blacklist. eauto. }
    split; [|split; [done|]].
    + unfold s'. rewrite cleanup_user_tokens_ledger, Hd. by rewrite decide_True.
    + intros ops now. by apply blacklisted_never_valid.
Qed.

(** A ledger-valid token of kind refresh whose owner is not stored, or is
    deactivated, is refused; the store is left as it is. *)
Lemma refresh_token_owner_refused token now s payload d :
  jwt_decode token now = Some payload →
  c_type payload = Some (TokenType_value REFRESH) →
  token ∉ blacklisted_tokens s →
  refresh_tokens s !! token = Some d →
  ¬ (now > td_expires_at d) →
  refresh_token token now s =
  (Raise
     (if truthy (td_user_id d) then HTTPException 401 "User not found or inactive"
      else HTTPException 401 "Invalid refresh token"), s) ∨
  ∃ u, users s !! td_user_id d = Some u ∧ is_active u = true ∧
       truthy (td_user_id d) = true.
Proof.
  intros Hdec Hty Hb Hd He.
  unfold refresh_token, decode_token. rewrite Hdec. run_monad.
  rewrite bool_decide_eq_false_2; [|intros Hne; apply Hne; exact Hty].
  rewrite (validate_refresh_token_valid _ _ _ d) by done.
  destruct (truthy (td_user_id d)) eqn:Ht; simpl; [|by left].
  unfold get_user_by_id, users_get.
  destruct (users s !! td_user_id d) as [u|] eqn:Hu; [|by left].
  rewrite (getattr_Some _ _ _ u) by exact Hu.
  destruct (is_active u) eqn:Ha; simpl; [right; eauto|by left].
Qed.

(** C1, as amended. In every store the operations can reach, for every
    refresh token that decodes as a token of kind refresh and is valid in
    the ledger. If its owner is a stored, active user, the refresh operation
    succeeds and returns an access and a refresh token issued for that user
    at that time; in the store it leaves, the presented token is blacklisted
    and the returned refresh token is recorded for the user with the refresh
    lifetime; the returned refresh token is valid in the ledger until that
    lifetime ends whenever it is a string other than the presented one and
    was not blacklisted before; and refreshing with the presented token
    again, at any time and after any further operations, fails with
    InvalidToken. If the owner id is not empty and the owner is not stored
    or is deactivated, the operation is refused with 401 "User not found or
    inactive"; if the owner id is empty, with 401 "Invalid refresh token";
    in both cases the store is left as it is. *)
Theorem refresh_rotates_once s token now payload uid :
  reachable s →
  jwt_decode token now = Some payload →
  c_type payload = Some (TokenType_value REFRESH) →
  eval (validate_refresh_token token now) s = Return (Some uid) →
  (∀ u, users s !! uid = Some u → is_active u = true →
     let s' := exec (refresh_token token now) s in
     let access :=
       create_token (id u, username u) ACCESS
         (Some (timedelta.minutes settings.ACCESS_TOKEN_EXPIRE_MINUTES)) now in
     let new :=
       create_token (id u, username u) REFRESH
         (Some (timedelta.days settings.REFRESH_TOKEN_EXPIRE_DAYS)) now in
     let expiry := now + timedelta.days settings.REFRESH_TOKEN_EXPIRE_DAYS in
     eval (refresh_token token now) s =
       Return {| tk_access_token := access; tk_refresh_token := new;
                 tk_token_type := "bearer";
                 tk_expires_in := settings.ACCESS_TOKEN_EXPIRE_MINUTES * 60;
                 tk_user := response_of u |} ∧
     blacklisted_tokens s' = {[token]} ∪ blacklisted_tokens s ∧
     refresh_tokens s' =
       <[new := {| td_user_id := id u; td_expires_at := expiry;
                   td_created_at := now |}]> (refresh_tokens s) ∧
     (new ≠ token → (new ∉ blacklisted_tokens s) →
      ∀ now', now' ≤ expiry →
        validate_refresh_token new now' s' = (Return (Some (id u)), s')) ∧
     ∀ ops now',
       ∃ e, eval (refresh_token token now') (steps ops s') = Raise e ∧
            InvalidToken e) ∧
  (uid ≠ "" →
   users s !! uid = None ∨ (∃ u, users s !! uid = Some u ∧ is_active u = false) →
   refresh_token token now s =
     (Raise (HTTPException 401 "User not found or inactive"), s)) ∧
  (uid = "" →
   refresh_token token now s =
     (Raise (HTTPException 401 "Invalid refresh token"), s)).
Proof.
  intros Hs Hdec Hty Hv.
  apply validate_refresh_token_Some in Hv as (Hb & d & Hd & He & <-).
  split_and!.
  - intros u Hu Ha s' access new expiry.
    assert (truthy (td_user_id d) = true) as Ht
      by (apply (reachable_users_truthy s); eauto).
    pose proof (refresh_token_rotates token now s payload d u
                  Hdec Hty Hb Hd He Ht Hu Ha) as Hr.
    assert (s' = (rotated token u now s).2) as Hs'
      by (unfold s', exec; by rewrite Hr).
    split_and!.
    + unfold eval. by rewrite Hr.
    + by rewrite Hs'.
    + by rewrite Hs'.
    + intros Hne Hnb now' Hle. rewrite Hs'.
      apply (validate_refresh_token_valid _ _ _
               {| td_user_id := id u; td_expires_at := expiry;
                  td_created_at := now |}).
      * simpl. fold new. set_solver.
      * simpl. fold new. by rewrite lookup_insert_eq.
      * simpl. lia.
    + intros ops now'.
      destruct (refresh_token_blacklisted token now' (steps ops s')) as (e & He' & Hi).
      { apply (blacklist_le_steps ops). rewrite Hs'. simpl. set_solver. }
      exists e. unfold eval. by rewrite He'.
  - intros Hne Hor.
    destruct (refresh_token_owner_refused token now s payload d Hdec Hty Hb Hd He)
      as [Hr|(u & Hu & Ha & _)].
    + rewrite Hr. by destruct (td_user_id d).
    + destruct Hor as [Hn|(u' & Hu' & Ha')]; congruence.
  - intros Hempty.
    destruct (refresh_token_owner_refused token now s payload d Hdec Hty Hb Hd He)
      as [Hr|(u & _ & _ & Ht)].
    + by rewrite Hr, Hempty.
    + by rewrite Hempty in Ht.
Qed.

End Refresh.

Section Refresh_examples.
#[local] Existing Instance Sample.ext.

Lemma refresh_rotates_once_witness :
  let s := steps [Post_login "admin" "Admin123!" 2000] Sample.s0 in
  let s' := exec (refresh_token Sample.admin_refresh_token 3000) s in
  eval (refresh_token Sample.admin_refresh_token 3000) s =
    Return {| tk_access_token := "access.admin-001.admin.1800003000.3000";
              tk_refresh_token := "refresh.admin-001.admin.604800003000.3000";
              tk_token_type := "bearer"; tk_expires_in := 1800;
              tk_user :=
                {| ur_id := "admin-001"; ur_email := "admin@aimini.games";
                   ur_username := "admin";
                   ur_full_name := Some "System Administrator";
                   ur_role := ADMIN; ur_is_active := true;
                   ur_created_at := 1000; ur_last_login := Some 2000 |} |} ∧
  validate_refresh_token "refresh.admin-001.admin.604800003000.3000" 4000 s' =
    (Return (Some "admin-001"), s') ∧
  ∃ e, eval (refresh_token Sample.admin_refresh_token 4000) s' = Raise e ∧
       InvalidToken e.
Proof.
  intros s s'.
  destruct (refresh_rotates_once s Sample.admin_refresh_token 3000
    {| c_user_id := Some "admin-001"; c_username := Some "admin";
       c_type := Some "refresh"; c_exp := 604800002000; c_iat := 2000 |}
    "admin-001") as (Hok & _ & _).
  - apply reachable_steps. constructor.
  - by_compute.
  - by_compute.
  - by_compute.
  - destruct (Hok (set_last_login (Some 2000) (admin_user "salt0" 1000)))
      as (Hret & _ & _ & Hnew & Hagain); [by_compute|by_compute|].
    split; [exact Hret|]. split; [|exact (Hagain [] 4000)].
    apply Hnew; [by_compute|apply (bool_decide_unpack _); by_compute|by_compute].
Defined.

(** C1, as stated, fails in two ways. A deactivated user can still log in,
    the refresh token this login records is valid in the ledger, and the
    refresh operation refuses it. And a refresh at the clock reading at
    which the presented token was issued succeeds for an active user but
    returns the presented string again, which it has just blacklisted: the
    returned refresh token is not new and is not valid. *)
Lemma refresh_refused_or_not_new :
  (let s := steps Sample.deactivated_ops Sample.s0 in
   reachable s ∧
   eval (validate_refresh_token Sample.bob_refresh_token 4000) s =
     Return (Some "user-b0b") ∧
   eval (refresh_token Sample.bob_refresh_token 4000) s =
     Raise (HTTPException 401 "User not found or inactive")) ∧
  (let s := steps [Post_login "admin" "Admin123!" 2000] Sample.s0 in
   let s' := exec (refresh_token Sample.admin_refresh_token 2000) s in
   reachable s ∧
   eval (validate_refresh_token Sample.admin_refresh_token 2000) s =
     Return (Some "admin-001") ∧
   (∃ tok, eval (refresh_token Sample.admin_refresh_token 2000) s = Return tok ∧
           tk_refresh_token tok = Sample.admin_refresh_token) ∧
   eval (validate_refresh_token Sample.admin_refresh_token 2001) s' = Return None).
Proof.
  split.
  - intros s. split; [apply reachable_steps; constructor|]. split; by_compute.
  - intros s s'. split; [apply reachable_steps; constructor|].
    split; [by_compute|]. split; [eexists; split; by_compute|by_compute].
Qed.

(** C4, as stated, fails: after a login and a rotation, the rotated token
    is in the blacklist and its entry, not yet expired, is still in the
    ledger; blacklisting did not remove it. The token no longer validates. *)
Lemma rotated_token_in_ledger_and_blacklist :
  let s := steps [Post_login "admin" "Admin123!" 2000;
                  Post_refresh Sample.admin_refresh_token 3000] Sample.s0 in
  reachable s ∧
  Sample.admin_refresh_token ∈ blacklisted_tokens s ∧
  (∃ d, refresh_tokens s !! Sample.admin_refresh_token = Some d ∧
        4000 ≤ td_expires_at d) ∧
  eval (validate_refresh_token Sample.admin_refresh_token 4000) s = Return None.
Proof.
  intros s. split; [apply reachable_steps; constructor|].
  split; [apply (bool_decide_unpack _); by_compute|].
  split; [eexists; split; [by_compute|]|by_compute].
  simpl. lia.
Qed.

(** C5, as stated, fails on the eviction: the entry of a rotated token stays
    in the ledger, blacklisted; once it has expired, a lookup returns absent
    at the blacklist check and leaves the expired entry where it is. *)
Lemma blacklisted_expired_entry_not_evicted :
  let s := steps [Post_login "admin" "Admin123!" 2000;
                  Post_refresh Sample.admin_refresh_token 3000] Sample.s0 in
  let now := 604800002001 in
  reachable s ∧
  (∃ d, refresh_tokens s !! Sample.admin_refresh_token = Some d ∧
        now > td_expires_at d) ∧
  eval (validate_refresh_token Sample.admin_refresh_token now) s = Return None ∧
  is_Some (refresh_tokens (exec (validate_refresh_token Sample.admin_refresh_token now) s)
             !! Sample.admin_refresh_token).
Proof.
  intros s now. split; [apply reachable_steps; constructor|].
  split; [eexists; split; by_compute|]. split; [by_compute|].
  eexists. by_compute.
Qed.

End Refresh_examples.

(** ** Login *)

Section Login.
Context `{Ext : External}.

Lemma users_get_Some k s r : users_get k s = Some r → r = k ∧ is_Some (users s !! r).
Proof.
  unfold users_get. destruct (users s !! k) eqn:E; [|done].
  intros [= <-]. rewrite E. eauto.
Qed.

Lemma find_user_Some ident s r : find_user ident s = Some r → is_Some (users s !! r).
Proof.
  unfold find_user, get_user_by_email, get_user_by_username.
  intros H. repeat case_match; simplify_eq;
    match goal with H : users_get _ _ = Some _ |- _ =>
      by apply users_get_Some in H as [_ ?] end.
Qed.

Lemma is_user_locked_eval r now s u :
  users s !! r = Some u →
  eval (is_user_locked r now) s = Return (locked_at now u) ∧
  exec (is_user_locked r now) s =
    if locked_at now u then s
    else match locked_until u with
         | Some _ =>
             with_users (<[r := set_failed_login_attempts 0 (set_locked_until None u)]>
                           (users s)) s
         | None => s
         end.
Proof.
  intros Hu. unfold eval, exec, is_user_locked, locked_at. rewrite Hu.
  destruct (locked_until u); [|done]. by case_bool_decide.
Qed.

Lemma is_user_locked_users r now s u :
  users s !! r = Some u →
  users (exec (is_user_locked r now) s) !! r = Some (unlock_expired now u).
Proof.
  intros Hu. unfold exec, is_user_locked, unlock_expired. rewrite Hu.
  destruct (locked_until u); [|done]. case_bool_decide; [done|].
  simpl. by rewrite lookup_insert_eq.
Qed.

Lemma increment_failed_login_returns r now s :
  increment_failed_login r now s = (Return tt, exec (increment_failed_login r now) s).
Proof. unfold exec, increment_failed_login. by destruct (users s !! r). Qed.

(** The outcome of a login and the store it leaves, case by case. *)
Lemma login_at_cases ident password clock s :
  match find_user ident s with
  | None => login_at ident password clock s = (Raise bad_credentials, s)
  | Some r =>
      ∃ u, users s !! r = Some u ∧
        if locked_at (at_lock_check clock) u then
          ∃ lu, locked_until u = Some lu ∧ at_lock_check clock < lu ∧
            login_at ident password clock s =
              (Raise (account_locked
                        (timedelta.seconds (lu - at_remaining clock) `div` 60)), s)
        else
          let s1 := exec (is_user_locked r (at_lock_check clock)) s in
          if verify_password password (hashed_password u) then
            let u' := set_last_login (Some (at_last_login clock))
                        (set_locked_until None
                           (set_failed_login_attempts 0
                              (unlock_expired (at_lock_check clock) u))) in
            let refresh :=
              create_token_at (id u, username u) REFRESH
                (Some (timedelta.days settings.REFRESH_TOKEN_EXPIRE_DAYS))
                (at_refresh_expire clock) (at_refresh_issued clock) in
            login_at ident password clock s =
              (Return
                 {| tk_access_token :=
                      create_token_at (id u, username u) ACCESS
                        (Some (timedelta.minutes settings.ACCESS_TOKEN_EXPIRE_MINUTES))
                        (at_access_expire clock) (at_access_issued clock);
                    tk_refresh_token := refresh;
                    tk_token_type := "bearer";
                    tk_expires_in := settings.ACCESS_TOKEN_EXPIRE_MINUTES * 60;
                    tk_user := response_of u' |},
               exec (store_refresh_token refresh (id u)
                       (at_expires clock +
                        timedelta.days settings.REFRESH_TOKEN_EXPIRE_DAYS)
                       (at_stored clock))
                 (with_users (<[r := u']> (users s)) s))
          else
            login_at ident password clock s =
              (Raise bad_credentials,
               exec (increment_failed_login r (at_failure clock)) s1)
  end.
Proof.
  unfold login_at. run_monad.
  destruct (find_user ident s) as [r|] eqn:Hf; [|done].
  destruct (find_user_Some _ _ _ Hf) as [u Hu]. exists u. split; [done|].
  set (now := at_lock_check clock).
  destruct (is_user_locked_eval r now s u Hu) as [Hev Hex].
  pose proof (is_user_locked_users r now s u Hu) as Hu1.
  unfold eval in Hev. unfold exec in Hex, Hu1 |- *.
  destruct (is_user_locked r now s) as [res s1]. simpl in *. subst res.
  destruct (locked_at now u) eqn:Hl.
  - subst s1. unfold locked_at in Hl. destruct (locked_until u) as [lu|] eqn:Hlu; [|done].
    apply bool_decide_eq_true_1 in Hl. exists lu. split; [done|]. split; [done|].
    rewrite (getattr_Some _ _ _ u) by done. by rewrite Hlu.
  - rewrite (getattr_Some _ _ _ (unlock_expired now u)) by done.
    assert (hashed_password (unlock_expired now u) = hashed_password u) as ->.
    { unfold unlock_expired. repeat case_match; done. }
    destruct (verify_password password (hashed_password u)); simpl.
    2:{ by rewrite (increment_failed_login_returns r (at_failure clock) s1). }
    unfold reset_failed_login. rewrite Hu1. simpl.
    unfold getattr, user_response, getattr. simpl.
    rewrite lookup_alter_eq, lookup_insert_eq. simpl.
    assert (id (unlock_expired now u) = id u ∧
            username (unlock_expired now u) = username u) as [-> ->].
    { unfold unlock_expired. repeat case_match; done. }
    rewrite !lookup_alter_eq, !lookup_insert_eq. simpl. f_equal.
    unfold exec, store_refresh_token, modify, with_refresh_tokens, with_users.
    simpl.
    assert (alter (set_last_login (Some (at_last_login clock))) r
              (<[r:=set_locked_until None
                      (set_failed_login_attempts 0 (unlock_expired now u))]>
                 (users s1)) =
            <[r:=set_last_login (Some (at_last_login clock))
                   (set_locked_until None
                      (set_failed_login_attempts 0 (unlock_expired now u)))]>
              (users s)) as ->.
    { apply map_eq. intros k. destruct (decide (r = k)) as [<-|Hne].
      - by rewrite lookup_alter_eq, !lookup_insert_eq.
      - rewrite lookup_alter_ne, !lookup_insert_ne by done.
        subst s1. destruct (locked_until u); simpl; by rewrite ?lookup_insert_ne. }
    subst s1. by destruct (locked_until u).
Qed.

Lemma login_cases ident password now s :
  match find_user ident s with
  | None => login ident password now s = (Raise bad_credentials, s)
  | Some r =>
      ∃ u, users s !! r = Some u ∧
        if locked_at now u then
          ∃ lu, locked_until u = Some lu ∧ now < lu ∧
            login ident password now s =
              (Raise (account_locked (timedelta.seconds (lu - now) `div` 60)), s)
        else
          let s1 := exec (is_user_locked r now) s in
          if verify_password password (hashed_password u) then
            let u' := set_last_login (Some now)
                        (set_locked_until None
                           (set_failed_login_attempts 0 (unlock_expired now u))) in
            let refresh :=
              create_token (id u, username u) REFRESH
                (Some (timedelta.days settings.REFRESH_TOKEN_EXPIRE_DAYS)) now in
            login ident password now s =
              (Return
                 {| tk_access_token :=
                      create_token (id u, username u) ACCESS
                        (Some (timedelta.minutes settings.ACCESS_TOKEN_EXPIRE_MINUTES)) now;
                    tk_refresh_token := refresh;
                    tk_token_type := "bearer";
                    tk_expires_in := settings.ACCESS_TOKEN_EXPIRE_MINUTES * 60;
                    tk_user := response_of u' |},
               exec (store_refresh_token refresh (id u)
                       (now + timedelta.days settings.REFRESH_TOKEN_EXPIRE_DAYS) now)
                 (with_users (<[r := u']> (users s)) s))
          else
            login ident password now s =
              (Raise bad_credentials, exec (increment_failed_login r now) s1)
  end.
Proof. exact (login_at_cases ident password (same_reading now) s). Qed.

End Login.

(** ** The user directory and its indices *)

Lemma same_user_equiv : Equivalence same_user.
Proof.
  unfold same_user. split.
  - intros u. done.
  - intros u v (? & ? & ?). done.
  - intros u v w (? & ? & ?) (? & ? & ?). split_and!; congruence.
Qed.
#[local] Existing Instance same_user_equiv.

Lemma same_directory_preorder : PreOrder same_directory.
Proof.
  split.
  - intros s. split_and!; try done; intros k; reflexivity.
  - intros s1 s2 s3 (He1 & Hn1 & Hu1) (He2 & Hn2 & Hu2).
    split_and!; [congruence|congruence|]. intros k.
    pose proof (Hu1 k) as H1. pose proof (Hu2 k) as H2.
    destruct H1 as [u1 u2 H12|]; inversion H2 as [? u3 H23|]; constructor.
    by etrans.
Qed.
#[local] Existing Instance same_directory_preorder.

Section Directory.
Context `{Ext : External}.

Lemma same_directory_same s s' :
  users s' = users s → email_index s' = email_index s →
  username_index s' = username_index s → same_directory s s'.
Proof. intros Hu He Hn. split_and!; try done; intros k; by rewrite Hu. Qed.

Lemma same_directory_insert s k0 u0 u :
  users s !! k0 = Some u0 → same_user u0 u →
  same_directory s (with_users (<[k0 := u]> (users s)) s).
Proof.
  intros E Hu. split_and!; try done; intros k; simpl.
  destruct (decide (k0 = k)) as [<-|Hne].
  - rewrite lookup_insert_eq, E. by constructor.
  - by rewrite lookup_insert_ne.
Qed.

Lemma same_directory_map s (f : UserInDB → UserInDB) :
  (∀ u, same_user u (f u)) → same_directory s (with_users (f <$> users s) s).
Proof.
  intros Hf. split_and!; try done; intros k; simpl; rewrite lookup_fmap.
  destruct (users s !! k); by constructor.
Qed.

Lemma same_directory_alter s (f : UserInDB → UserInDB) k0 :
  (∀ u, same_user u (f u)) → same_directory s (with_users (alter f k0 (users s)) s).
Proof.
  intros Hf. split_and!; try done; intros k; simpl.
  destruct (decide (k0 = k)) as [<-|Hne].
  - rewrite lookup_alter_eq. destruct (users s !! k0); by constructor.
  - by rewrite lookup_alter_ne.
Qed.

Lemma setattr_same_user upd u :
  key_free upd → same_user u (foldl (λ u a, setattr a u) u upd).
Proof.
  intros Hk. revert u. induction Hk as [|a upd Ha _ IH]; intros u; simpl; [done|].
  etrans; [|apply IH]. by destruct a.
Qed.

Ltac dir :=
  intros s; unfold modify; simpl;
  repeat case_match; simpl;
  first [ by apply same_directory_same
        | by eapply same_directory_insert
        | reflexivity ].

Lemma same_directory_run op :
  directory_neutral op → preserves same_directory (run op).
Proof.
  apply preserves_run; try apply _; intros.
  - intros s. unfold update_user. destruct (users s !! uid) as [u|] eqn:E; [|done].
    simpl. eapply same_directory_insert; [done|].
    etrans; [by apply setattr_same_user|done].
  - dir.
  - unfold validate_refresh_token. dir.
  - dir.
  - dir.
  - unfold increment_failed_login. dir.
  - unfold reset_failed_login. dir.
  - unfold is_user_locked. dir.
  - unfold create_password_reset_token. dir.
  - unfold validate_reset_token. dir.
  - intros s. simpl. apply same_directory_map. intros u.
    unfold unlock_expired. repeat case_match; done.
  - intros s. simpl. by apply same_directory_alter.
  - dir.
Qed.

Lemma same_directory_find_user s s' ident :
  same_directory s s' → find_user ident s' = find_user ident s.
Proof.
  intros (He & Hn & Hu).
  assert (∀ k, users_get k s' = users_get k s) as Hg.
  { intros k. unfold users_get. by destruct (Hu k). }
  unfold find_user, get_user_by_email, get_user_by_username.
  rewrite He, Hn.
  destruct (email_index s !! ident) as [k|]; [destruct (truthy k)|];
    rewrite ?Hg;
    destruct (username_index s !! lower ident) as [k'|];
    try destruct (truthy k'); rewrite ?Hg; done.
Qed.

Lemma same_directory_consistent s s' :
  same_directory s s' → index_consistent s → index_consistent s'.
Proof.
  intros (He & Hn & Hu) (Hce & Hcn & Hcu). unfold index_consistent.
  rewrite He, Hn. split_and!.
  - intros e k Hk. destruct (Hce e k Hk) as (u & Hku & <-).
    specialize (Hu k). rewrite Hku in Hu. inversion Hu as [? u' (? & ? & ?)|].
    eauto.
  - intros n k Hk. destruct (Hcn n k Hk) as (u & Hku & <-).
    specialize (Hu k). rewrite Hku in Hu. inversion Hu as [? u' (? & ? & ?)|].
    eauto.
  - intros k u' Hku'. specialize (Hu k). rewrite Hku' in Hu.
    destruct (users s !! k) as [u|] eqn:Hku; inversion Hu as [? ? Hs|]; subst.
    destruct Hs as (_ & -> & ->). by apply Hcu.
Qed.

Lemma create_user_consistent d hex salt now s :
  users s !! ("user-" +:+ hex) = None →
  index_consistent s → index_consistent (exec (create_user d hex salt now) s).
Proof.
  intros Hfresh (Hce & Hcn & Hcu). unfold exec, create_user.
  case_bool_decide as He; [done|]. case_bool_decide as Hn; [done|].
  rewrite not_elem_of_dom in He. rewrite not_elem_of_dom in Hn.
  unfold index_consistent. simpl. split_and!.
  - intros e k. destruct (decide (uc_email d = e)) as [<-|Hne].
    + rewrite lookup_insert_eq. intros [= <-]. rewrite lookup_insert_eq. eauto.
    + rewrite lookup_insert_ne by done. intros Hk.
      destruct (Hce e k Hk) as (u & Hu & <-).
      rewrite lookup_insert_ne by congruence. eauto.
  - intros n k. destruct (decide (lower (uc_username d) = n)) as [<-|Hne].
    + rewrite lookup_insert_eq. intros [= <-]. rewrite lookup_insert_eq. eauto.
    + rewrite lookup_insert_ne by done. intros Hk.
      destruct (Hcn n k Hk) as (u & Hu & <-).
      rewrite lookup_insert_ne by congruence. eauto.
  - intros k u. destruct (decide ("user-" +:+ hex = k)) as [<-|Hne].
    + rewrite lookup_insert_eq. intros [= <-]. simpl.
      by rewrite !lookup_insert_eq.
    + rewrite lookup_insert_ne by done. intros Hu.
      destruct (Hcu k u Hu) as [Hek Hnk].
      rewrite !lookup_insert_ne by congruence. done.
Qed.

Lemma delete_user_consistent uid s :
  index_consistent s → index_consistent (exec (delete_user uid) s).
Proof.
  intros (Hce & Hcn & Hcu). rewrite delete_user_exec.
  destruct (users s !! uid) as [u0|] eqn:H0; [|done].
  destruct (Hcu uid u0 H0) as [He0 Hn0].
  unfold index_consistent, exec, cleanup_user_tokens, modify. simpl. split_and!.
  - intros e k. rewrite lookup_delete_Some. intros [Hne Hk].
    destruct (Hce e k Hk) as (u & Hu & <-).
    exists u. split; [|done]. rewrite lookup_delete_ne; [done|].
    intros <-. congruence.
  - intros n k. rewrite lookup_delete_Some. intros [Hne Hk].
    destruct (Hcn n k Hk) as (u & Hu & <-).
    exists u. split; [|done]. rewrite lookup_delete_ne; [done|].
    intros <-. congruence.
  - intros k u. rewrite lookup_delete_Some. intros [Hne Hu].
    destruct (Hcu k u Hu) as [Hek Hnk].
    rewrite !lookup_delete_ne; [done| |]; intros E; rewrite <-E in *; congruence.
Qed.

Lemma keeps_consistent_preorder : PreOrder keeps_consistent.
Proof. split; unfold keeps_consistent; [intros s|intros s1 s2 s3]; auto. Qed.
#[local] Existing Instance keeps_consistent_preorder.

Lemma keeps_consistent_same_directory {A} (m : M A) :
  preserves same_directory m → preserves keeps_consistent m.
Proof. intros Hm s Hc. eapply same_directory_consistent; [apply Hm|done]. Qed.

Lemma exec_void {A} (m : M A) s : exec (void m) s = exec m s.
Proof.
  unfold exec, void, mbind, M_bind, bind. by destruct (m s) as [[a|e] s'].
Qed.

Lemma register_exec d hex salt now s :
  exec (register d hex salt now) s = exec (create_user d hex salt now) s.
Proof.
  unfold exec, register. by destruct (create_user d hex salt now s) as [[u|[]] s'].
Qed.

Lemma keeps_consistent_delete_account cu t :
  preserves keeps_consistent (delete_account cu t).
Proof.
  apply preserves_delete_account; [apply _| |].
  - intros t'. apply keeps_consistent_same_directory.
    intros s. by apply same_directory_same.
  - intros uid s Hc. by apply delete_user_consistent.
Qed.

Lemma neutral_step_consistent op s :
  directory_neutral op → index_consistent s → index_consistent (step op s).
Proof.
  intros Hop. by apply (keeps_consistent_same_directory _ (same_directory_run op Hop)).
Qed.

(** One safe operation keeps the indices consistent. *)
Lemma step_consistent op s :
  directory_safe op s → index_consistent s → index_consistent (step op s).
Proof.
  intros Hsafe.
  destruct op; simpl in Hsafe;
    try (apply neutral_step_consistent; exact I);
    try (by apply neutral_step_consistent);
    unfold step; simpl; rewrite exec_void.
  - by apply create_user_consistent.
  - apply delete_user_consistent.
  - rewrite register_exec. by apply create_user_consistent.
  - apply (preserves_bind keeps_consistent).
    + apply keeps_consistent_same_directory.
      apply preserves_get_current_active_user. apply _.
    + intros cu. apply keeps_consistent_delete_account.
Qed.

Lemma init_consistent salt now : index_consistent (init salt now).
Proof.
  unfold index_consistent, init. simpl. split_and!.
  - intros e k [<- <-]%lookup_singleton_Some. rewrite lookup_singleton_eq. eauto.
  - intros n k [<- <-]%lookup_singleton_Some. rewrite lookup_singleton_eq. eauto.
  - intros k u [<- <-]%lookup_singleton_Some. simpl.
    by rewrite !lookup_singleton_eq.
Qed.

Lemma reachable_safely_consistent s : reachable_safely s → index_consistent s.
Proof.
  induction 1 as [salt now|op s Hs IH Hsafe];
    [apply init_consistent|by apply step_consistent].
Qed.

(** C8, as amended. In every store reached from the initial one by
    operations under which the directory is safe (a new user is stored
    under an id not in use, and a patch of [update_user] leaves the id, the
    email and the username alone, as every patch built by a route does), the
    indices agree with the user records: every entry of the email index and
    of the username index leads to a stored user with that email or
    username, and every stored user has exactly one entry in each index,
    the one under its own email and username. *)
Theorem indices_consistent s :
  reachable_safely s →
  (∀ e k, email_index s !! e = Some k →
     ∃ u, users s !! k = Some u ∧ email u = e) ∧
  (∀ n k, username_index s !! n = Some k →
     ∃ u, users s !! k = Some u ∧ username u = n) ∧
  (∀ k u, users s !! k = Some u →
     (∀ e, email_index s !! e = Some k ↔ e = email u) ∧
     (∀ n, username_index s !! n = Some k ↔ n = username u)).
Proof.
  intros Hs. destruct (reachable_safely_consistent s Hs) as (Hce & Hcn & Hcu).
  split_and!; [done|done|]. intros k u Hu. destruct (Hcu k u Hu) as [He Hn].
  split.
  - intros e. split; [|by intros ->].
    intros Hk. destruct (Hce e k Hk) as (u' & Hu' & <-). congruence.
  - intros n. split; [|by intros ->].
    intros Hk. destruct (Hcn n k Hk) as (u' & Hu' & <-). congruence.
Qed.

End Directory.

Section Directory_examples.
#[local] Existing Instance Sample.ext.

Lemma reachable_safely_steps ops s :
  reachable_safely s → all_safe ops s → reachable_safely (steps ops s).
Proof.
  revert s. induction ops as [|op ops IH]; intros s Hs Hsafe; simpl; [done|].
  destruct Hsafe as [Hop Hrest]. apply IH; [by constructor|done].
Qed.

Lemma indices_consistent_witness :
  let s := steps Sample.deactivated_ops Sample.s0 in
  (∀ e k, email_index s !! e = Some k →
     ∃ u, users s !! k = Some u ∧ email u = e) ∧
  (∀ n k, username_index s !! n = Some k →
     ∃ u, users s !! k = Some u ∧ username u = n) ∧
  (∀ k u, users s !! k = Some u →
     (∀ e, email_index s !! e = Some k ↔ e = email u) ∧
     (∀ n, username_index s !! n = Some k ↔ n = username u)).
Proof.
  intros s. apply (indices_consistent s).
  apply reachable_safely_steps; [constructor|].
  simpl. split_and!; try exact I. by_compute.
Defined.

(** C8, as stated, fails: [update_user] patches any attribute and leaves the
    indices alone, so after a patch of the email the email index holds an
    entry that leads to a user with another email, and the user has no
    entry under its email. *)
Lemma update_user_breaks_email_index :
  let s := step (Call_update_user "admin-001" [A_email "root@aimini.games"] 2000)
             Sample.s0 in
  reachable s ∧
  email_index s !! "admin@aimini.games" = Some "admin-001" ∧
  (∃ u, users s !! "admin-001" = Some u ∧ email u = "root@aimini.games") ∧
  email_index s !! "root@aimini.games" = None ∧
  ¬ index_consistent s.
Proof.
  intros s. split; [repeat constructor|]. split; [by_compute|].
  split; [eexists; split; by_compute|]. split; [by_compute|].
  intros (Hce & _ & _).
  destruct (Hce "admin@aimini.games" "admin-001") as (u & Hu & He); [by_compute|].
  vm_compute in Hu. injection Hu as <-. vm_compute in He. discriminate.
Qed.

End Directory_examples.

(** ** Lockout *)

Section Lockout.
Context `{Ext : External}.

Lemma increment_failed_login_users r now s u :
  users s !! r = Some u →
  ∃ u', users (exec (increment_failed_login r now) s) !! r = Some u' ∧
    failed_login_attempts u' = failed_login_attempts u + 1 ∧
    hashed_password u' = hashed_password u ∧
    locked_until u' =
      if decide (failed_login_attempts u + 1 >= settings.MAX_LOGIN_ATTEMPTS)
      then Some (now + timedelta.minutes settings.LOGIN_TIMEOUT_MINUTES)
      else locked_until u.
Proof.
  intros Hu. unfold exec, increment_failed_login. rewrite Hu. simpl.
  rewrite lookup_insert_eq. eexists. split; [done|].
  case_bool_decide; case_decide; done.
Qed.

Lemma step_login ident password now s :
  step (Post_login ident password now) s = exec (login ident password now) s.
Proof. unfold step. simpl. apply exec_void. Qed.

Lemma step_login_find_user ident password now s ident' :
  find_user ident' (step (Post_login ident password now) s) = find_user ident' s.
Proof.
  apply same_directory_find_user.
  apply (same_directory_run (Post_login ident password now) I).
Qed.

(** One failed login of a user that is not locked. *)
Lemma failed_login_step ident r u password now s :
  find_user ident s = Some r → users s !! r = Some u →
  locked_until u = None →
  verify_password password (hashed_password u) = false →
  eval (login ident password now) s = Raise bad_credentials ∧
  ∃ u', users (step (Post_login ident password now) s) !! r = Some u' ∧
    failed_login_attempts u' = failed_login_attempts u + 1 ∧
    hashed_password u' = hashed_password u ∧
    locked_until u' =
      if decide (failed_login_attempts u + 1 >= settings.MAX_LOGIN_ATTEMPTS)
      then Some (now + timedelta.minutes settings.LOGIN_TIMEOUT_MINUTES)
      else None.
Proof.
  intros Hf Hu Hl Hv. rewrite step_login.
  pose proof (login_cases ident password now s) as Hc. rewrite Hf in Hc.
  destruct Hc as (u0 & Hu0 & Hc). assert (u0 = u) as -> by congruence.
  destruct (is_user_locked_eval r now s u Hu) as [_ Hex].
  unfold locked_at in Hc, Hex. rewrite Hl in Hc, Hex. rewrite Hv in Hc.
  simpl in Hc. rewrite Hex in Hc. unfold eval, exec. rewrite Hc. simpl.
  split; [done|].
  destruct (increment_failed_login_users r now s u Hu) as (u' & ? & ? & ? & Hl').
  rewrite Hl in Hl'. eauto.
Qed.

(** Fewer failed logins than the threshold: the counter counts them and the
    user is not locked. *)
Lemma failed_logins_below_threshold ident r attempts : ∀ s u,
  find_user ident s = Some r → users s !! r = Some u →
  locked_until u = None →
  failed_login_attempts u + Z.of_nat (length attempts) < settings.MAX_LOGIN_ATTEMPTS →
  Forall (λ a, verify_password a.1 (hashed_password u) = false) attempts →
  let s' := steps (login_attempts ident attempts) s in
  find_user ident s' = Some r ∧
  ∃ u', users s' !! r = Some u' ∧
    failed_login_attempts u' = failed_login_attempts u + Z.of_nat (length attempts) ∧
    hashed_password u' = hashed_password u ∧ locked_until u' = None.
Proof.
  induction attempts as [|[pw t] rest IH]; intros s u Hf Hu Hl Hlt Hw; simpl.
  { split; [done|]. exists u. split_and!; try done. lia. }
  inversion Hw as [|? ? Hw1 Hw2]; subst. simpl in Hw1.
  destruct (failed_login_step ident r u pw t s Hf Hu Hl Hw1)
    as (_ & u1 & Hu1 & Hc1 & Hh1 & Hl1).
  rewrite decide_False in Hl1 by (simpl in Hlt; lia).
  destruct (IH (step (Post_login ident pw t) s) u1) as (Hf' & u' & ? & ? & ? & ?).
  - by rewrite step_login_find_user.
  - done.
  - done.
  - simpl in Hlt. lia.
  - by rewrite Hh1.
  - split; [done|]. exists u'. split_and!; try done; [|congruence].
    simpl length. lia.
Qed.

(** C3. Each recorded login failure increments the failed-attempt counter,
    and once the counter reaches the threshold (5) the lock-until timestamp
    is set to now plus the cooldown (15 minutes). For a user whose counter
    is zero and who is not locked, fewer consecutive failed logins than the
    threshold leave the user unlocked; after exactly threshold consecutive
    failed logins the counter is at the threshold, the lock runs until the
    cooldown after the last failure, and every login attempt before that
    time fails Locked, whatever the password. Once the cooldown has elapsed
    the lock check returns unlocked and clears the lock and the counter, and
    a login with the correct password succeeds and leaves the counter at
    zero. *)
Theorem lockout_after_threshold ident r u s attempts password_n now_n :
  find_user ident s = Some r → users s !! r = Some u →
  failed_login_attempts u = 0 → locked_until u = None →
  Z.of_nat (length attempts) + 1 = settings.MAX_LOGIN_ATTEMPTS →
  Forall (λ a, verify_password a.1 (hashed_password u) = false)
    (attempts ++ [(password_n, now_n)]) →
  let s' := steps (login_attempts ident (attempts ++ [(password_n, now_n)])) s in
  let lock_until := now_n + timedelta.minutes settings.LOGIN_TIMEOUT_MINUTES in
  (∀ s0 u0 now, users s0 !! r = Some u0 →
     ∃ u1, users (exec (increment_failed_login r now) s0) !! r = Some u1 ∧
       failed_login_attempts u1 = failed_login_attempts u0 + 1 ∧
       locked_until u1 =
         if decide (failed_login_attempts u0 + 1 >= settings.MAX_LOGIN_ATTEMPTS)
         then Some (now + timedelta.minutes settings.LOGIN_TIMEOUT_MINUTES)
         else locked_until u0) ∧
  (∀ fewer, fewer `prefix_of` attempts →
     ∃ u', users (steps (login_attempts ident fewer) s) !! r = Some u' ∧
       failed_login_attempts u' = Z.of_nat (length fewer) ∧
       locked_until u' = None) ∧
  (∃ u', users s' !! r = Some u' ∧
     failed_login_attempts u' = settings.MAX_LOGIN_ATTEMPTS ∧
     locked_until u' = Some lock_until) ∧
  (∀ password now, now < lock_until →
     login ident password now s' =
       (Raise (account_locked (timedelta.seconds (lock_until - now) `div` 60)), s')) ∧
  (∀ now, lock_until ≤ now →
     eval (is_user_locked r now) s' = Return false ∧
     ∃ u', users (exec (is_user_locked r now) s') !! r = Some u' ∧
       failed_login_attempts u' = 0 ∧ locked_until u' = None) ∧
  (∀ password now, lock_until ≤ now →
     verify_password password (hashed_password u) = true →
     ∃ tok u', eval (login ident password now) s' = Return tok ∧
       users (exec (login ident password now) s') !! r = Some u' ∧
       failed_login_attempts u' = 0 ∧ locked_until u' = None).
Proof.
  intros Hf Hu H0 Hl Hlen Hw s' lock_until.
  apply Forall_app in Hw as [Hw Hwn]. inversion Hwn as [|? ? Hwn' _]; subst.
  simpl in Hwn'.
  (* the failures before the last *)
  destruct (failed_logins_below_threshold ident r attempts s u)
    as (Hf4 & u4 & Hu4 & Hc4 & Hh4 & Hl4); try done; [lia|].
  (* the last failure *)
  assert (s' = step (Post_login ident password_n now_n)
                 (steps (login_attempts ident attempts) s)) as Hs'.
  { unfold s', login_attempts, steps. by rewrite fmap_app, foldl_app. }
  destruct (failed_login_step ident r u4 password_n now_n _ Hf4 Hu4 Hl4)
    as (_ & u5 & Hu5 & Hc5 & Hh5 & Hl5); [by rewrite Hh4|].
  rewrite <-Hs' in Hu5. rewrite decide_True in Hl5 by lia. fold lock_until in Hl5.
  assert (find_user ident s' = Some r) as Hf5
    by (by rewrite Hs', step_login_find_user).
  split_and!.
  - intros s0 u0 now Hu0.
    destruct (increment_failed_login_users r now s0 u0 Hu0) as (u1 & ? & ? & _ & ?).
    eauto.
  - intros fewer [rest ->].
    destruct (failed_logins_below_threshold ident r fewer s u)
      as (_ & u' & ? & ? & _ & ?); try done.
    { rewrite length_app in Hlen. lia. }
    { by apply Forall_app in Hw as [? _]. }
    exists u'. split_and!; try done. lia.
  - exists u5. split_and!; try done. lia.
  - intros password now Hnow.
    pose proof (login_cases ident password now s') as Hc. rewrite Hf5 in Hc.
    destruct Hc as (u0 & Hu0 & Hc). assert (u0 = u5) as -> by congruence.
    unfold locked_at in Hc. rewrite Hl5 in Hc.
    rewrite bool_decide_eq_true_2 in Hc by done.
    destruct Hc as (lu & [= <-] & _ & Hc). done.
  - intros now Hnow.
    destruct (is_user_locked_eval r now s' u5 Hu5) as [Hev _].
    pose proof (is_user_locked_users r now s' u5 Hu5) as Hus.
    unfold locked_at in Hev. unfold unlock_expired in Hus. rewrite Hl5 in Hev, Hus.
    rewrite bool_decide_eq_false_2 in Hev, Hus by lia. split; [done|]. eauto.
  - intros password now Hnow Hv.
    pose proof (login_cases ident password now s') as Hc. rewrite Hf5 in Hc.
    destruct Hc as (u0 & Hu0 & Hc). assert (u0 = u5) as -> by congruence.
    unfold locked_at in Hc. rewrite Hl5 in Hc.
    rewrite bool_decide_eq_false_2 in Hc by lia.
    rewrite Hh5, Hh4, Hv in Hc. simpl in Hc.
    unfold eval, exec. rewrite Hc. simpl.
    eexists _, _. split; [done|]. rewrite lookup_insert_eq. done.
Qed.

End Lockout.

(** ** Password reset *)

Section Reset.
Context `{Ext : External}.

Lemma validate_reset_token_unknown token now s :
  password_reset_tokens s !! token = None →
  validate_reset_token token now s = (Return None, s).
Proof. intros Hd. unfold validate_reset_token. by rewrite Hd. Qed.

Lemma reset_password_unknown token new_password salt now s :
  password_reset_tokens s !! token = None →
  reset_password token new_password salt now s = (Raise invalid_or_expired, s).
Proof.
  intros Hd. unfold reset_password. run_monad.
  by rewrite validate_reset_token_unknown.
Qed.

Lemma reset_password_expired token new_password salt now s d :
  password_reset_tokens s !! token = Some d → now > td_expires_at d →
  reset_password token new_password salt now s =
  (Raise invalid_or_expired,
   with_password_reset_tokens (delete token (password_reset_tokens s)) s).
Proof.
  intros Hd He. unfold reset_password, validate_reset_token. run_monad.
  rewrite Hd. by rewrite bool_decide_eq_true_2.
Qed.

(** The user record after a redemption. *)
Lemma reset_password_valid token new_password salt now s d :
  password_reset_tokens s !! token = Some d → ¬ (now > td_expires_at d) →
  truthy (td_user_id d) = true →
  reset_password token new_password salt now s =
  match users s !! td_user_id d with
  | Some u =>
      (Return (message "Password reset successfully"),
       with_password_reset_tokens (delete token (password_reset_tokens s))
         (exec (cleanup_user_tokens (td_user_id d))
            (with_users
               (<[td_user_id d :=
                    set_updated_at now
                      (set_locked_until None
                         (set_failed_login_attempts 0
                            (set_hashed_password
                               (get_password_hash salt new_password) u)))]>
                  (users s)) s)))
  | None =>
      (Raise (AttributeError "'NoneType' object has no attribute 'email'"),
       with_password_reset_tokens (delete token (password_reset_tokens s))
         (exec (cleanup_user_tokens (td_user_id d)) s))
  end.
Proof.
  intros Hd He Ht. unfold reset_password, validate_reset_token. run_monad.
  rewrite Hd. rewrite bool_decide_eq_false_2 by done. simpl. rewrite Ht. simpl.
  unfold update_user, get_user_by_id, users_get.
  destruct (users s !! td_user_id d) as [u|] eqn:Hu; simpl.
  - by rewrite lookup_insert_eq.
  - by rewrite Hu.
Qed.

(** C6. A valid, unexpired reset token whose owner is stored is redeemed
    successfully. Whenever a redemption succeeds, the reset token was valid
    and unexpired and its owner stored; the redemption has set the owner's
    password hash to the hash of the new password, cleared the failed
    attempts and the lock, revoked every refresh token the ledger held for
    the owner (each removed from the ledger and blacklisted, none left),
    and deleted the reset token. A second redemption of the same token, at
    any time and with any password, fails with InvalidOrExpired; so does
    the redemption of an expired token. *)
Theorem reset_token_redeemed_once token new_password salt now s :
  let s' := exec (reset_password token new_password salt now) s in
  (∀ d u,
     reachable s →
     password_reset_tokens s !! token = Some d → ¬ (now > td_expires_at d) →
     users s !! td_user_id d = Some u →
     eval (reset_password token new_password salt now) s =
       Return (message "Password reset successfully")) ∧
  (∀ resp,
     eval (reset_password token new_password salt now) s = Return resp →
     ∃ d u,
       password_reset_tokens s !! token = Some d ∧ ¬ (now > td_expires_at d) ∧
       users s !! td_user_id d = Some u ∧
       (∃ u', users s' !! td_user_id d = Some u' ∧
          hashed_password u' = get_password_hash salt new_password ∧
          failed_login_attempts u' = 0 ∧ locked_until u' = None) ∧
       (∀ t d', refresh_tokens s !! t = Some d' → td_user_id d' = td_user_id d →
          refresh_tokens s' !! t = None ∧ t ∈ blacklisted_tokens s') ∧
       (∀ t d', refresh_tokens s' !! t = Some d' → td_user_id d' ≠ td_user_id d) ∧
       password_reset_tokens s' !! token = None ∧
       (∀ new_password2 salt2 now2 s2,
          password_reset_tokens s2 = password_reset_tokens s' →
          eval (reset_password token new_password2 salt2 now2) s2 =
            Raise invalid_or_expired)) ∧
  (∀ d, password_reset_tokens s !! token = Some d → now > td_expires_at d →
     eval (reset_password token new_password salt now) s = Raise invalid_or_expired).
Proof.
  unfold eval, exec. split_and!.
  - intros d u Hs Hd He Hu.
    rewrite (reset_password_valid _ _ _ _ _ d), Hu; [done|done|done|].
    apply (reachable_users_truthy s); eauto.
  - intros resp Hok.
    destruct (password_reset_tokens s !! token) as [d|] eqn:Hd.
    2:{ by rewrite reset_password_unknown in Hok. }
    destruct (decide (now > td_expires_at d)) as [He|He].
    { by rewrite (reset_password_expired _ _ _ _ _ d) in Hok. }
    destruct (truthy (td_user_id d)) eqn:Ht.
    2:{ revert Hok. unfold reset_password, validate_reset_token. run_monad.
        rewrite Hd. rewrite bool_decide_eq_false_2 by done. simpl. by rewrite Ht. }
    rewrite (reset_password_valid _ _ _ _ _ d) in Hok |- * by done.
    destruct (users s !! td_user_id d) as [u|] eqn:Hu; [|done].
    exists d, u. cbn [fst snd]. unfold with_password_reset_tokens.
    cbn [users refresh_tokens blacklisted_tokens password_reset_tokens].
    split_and!; try done.
    + eexists. simpl. rewrite lookup_insert_eq. done.
    + intros t d' Hd' Hu'. rewrite cleanup_user_tokens_ledger. simpl.
      rewrite Hd', decide_True by done. split; [done|].
      apply cleanup_user_tokens_blacklist. simpl. eauto.
    + intros t d'. rewrite cleanup_user_tokens_ledger. simpl.
      destruct (refresh_tokens s !! t) as [d0|]; [|done].
      case_decide; [done|]. by intros [= <-].
    + by rewrite lookup_delete_eq.
    + intros new_password2 salt2 now2 s2 Hs2.
      rewrite reset_password_unknown; [done|].
      rewrite Hs2. simpl. by rewrite lookup_delete_eq.
  - intros d Hd He. by rewrite (reset_password_expired _ _ _ _ _ d).
Qed.

Lemma get_user_by_email_Some e s r :
  get_user_by_email e s = Some r → is_Some (users s !! r).
Proof.
  unfold get_user_by_email, users_get. intros H.
  repeat case_match; simplify_eq; eauto.
Qed.

(** C7, as the code has it. The request always returns a response object,
    but the response for the email of a stored user carries the key
    [reset_token] and the response for an unknown email does not: the two
    responses differ in shape. *)
Theorem request_password_reset_shapes s known unknown rnd now r :
  get_user_by_email known s = Some r →
  get_user_by_email unknown s = None →
  (∀ e, ∃ resp, eval (request_password_reset e rnd now) s = Return resp) ∧
  ∃ resp_known resp_unknown,
    eval (request_password_reset known rnd now) s = Return resp_known ∧
    eval (request_password_reset unknown rnd now) s = Return resp_unknown ∧
    shape resp_known = ["message"; "reset_token"] ∧
    shape resp_unknown = ["message"] ∧
    shape resp_known ≠ shape resp_unknown.
Proof.
  intros Hk Hu. split.
  - intros e. unfold eval, request_password_reset. run_monad.
    destruct (get_user_by_email e s) as [r'|] eqn:He; [|eauto].
    destruct (get_user_by_email_Some _ _ _ He) as [u' Hu'].
    rewrite (getattr_Some _ _ _ u') by done. simpl. eauto.
  - destruct (get_user_by_email_Some _ _ _ Hk) as [u' Hu'].
    unfold eval, request_password_reset. run_monad. rewrite Hk, Hu.
    rewrite (getattr_Some _ _ _ u') by done. simpl.
    eexists _, _. split_and!; done.
Qed.

End Reset.

(** ** Lookup by email and by username *)

Section Lookup.
Context `{Ext : External}.

Lemma ascii_lower_idempotent c : ascii_lower (ascii_lower c) = ascii_lower c.
Proof. by destruct c as [[] [] [] [] [] [] [] []]. Qed.

Lemma lower_idempotent n : lower (lower n) = lower n.
Proof. induction n as [|c n IH]; simpl; [done|]. by rewrite ascii_lower_idempotent, IH. Qed.

Lemma reachable_safely_reachable s : reachable_safely s → reachable s.
Proof. induction 1; by constructor. Qed.

End Lookup.


(** ** The theorems at work on the sample instance *)

Section Examples.
#[local] Existing Instance Sample.ext.

Lemma lockout_after_threshold_witness :
  let s' := steps (login_attempts "admin"
                     [("a", 2000); ("b", 2001); ("c", 2002); ("d", 2003);
                      ("e", 2004)]) Sample.s0 in
  eval (login "admin" "Admin123!" 5000) s' = Raise (account_locked 14) ∧
  ∃ tok, eval (login "admin" "Admin123!" 900002004) s' = Return tok.
Proof.
  intros s'.
  destruct (lockout_after_threshold "admin" "admin-001" (admin_user "salt0" 1000)
              Sample.s0 [("a", 2000); ("b", 2001); ("c", 2002); ("d", 2003)]
              "e" 2004)
    as (_ & _ & _ & Hlocked & _ & Hok).
  - by_compute.
  - by_compute.
  - by_compute.
  - by_compute.
  - by_compute.
  - repeat constructor; by_compute.
  - split.
    + assert (login "admin" "Admin123!" 5000 s' =
                (Raise (account_locked 14), s')) as Hl
        by (apply (Hlocked "Admin123!" 5000); by_compute).
      unfold eval. by rewrite Hl.
    + destruct (Hok "Admin123!" 900002004) as (tok & u' & Htok & _);
        [by_compute|by_compute|]. by exists tok.
Defined.

Lemma reset_token_redeemed_once_witness :
  let s := step (Post_request_password_reset "admin@aimini.games" "rst" 2000)
             Sample.s0 in
  let s' := exec (reset_password "rst" "NewPassw0rd1" "salt9" 3000) s in
  eval (reset_password "rst" "NewPassw0rd1" "salt9" 3000) s =
    Return (message "Password reset successfully") ∧
  eval (reset_password "rst" "Other1Passw0rd" "salt8" 3001) s' =
    Raise invalid_or_expired.
Proof.
  intros s s'. assert (eval (reset_password "rst" "NewPassw0rd1" "salt9" 3000) s =
    Return (message "Password reset successfully")) as Hok by by_compute.
  split; [exact Hok|].
  destruct (reset_token_redeemed_once "rst" "NewPassw0rd1" "salt9" 3000 s)
    as (_ & Honce & _).
  destruct (Honce _ Hok) as (d & u & _ & _ & _ & _ & _ & _ & _ & Hagain).
  by apply Hagain.
Defined.

Lemma request_password_reset_shapes_witness :
  shape (match eval (request_password_reset "admin@aimini.games" "rst" 2000) Sample.s0 with
         | Return resp => resp
         | Raise _ => []
         end) ≠
  shape (match eval (request_password_reset "nobody@aimini.games" "rst" 2000) Sample.s0 with
         | Return resp => resp
         | Raise _ => []
         end).
Proof.
  destruct (request_password_reset_shapes Sample.s0 "admin@aimini.games"
              "nobody@aimini.games" "rst" 2000 "admin-001")
    as (_ & r1 & r2 & -> & -> & _ & _ & Hne); [by_compute|by_compute|done].
Defined.

End Examples.

(** * Further properties of the backend *)

(** ** Registration *)

Section Registration.
Context `{Ext : External}.

Lemma create_user_email_taken d hex salt now s :
  is_Some (email_index s !! uc_email d) →
  create_user d hex salt now s = (Raise (ValueError "Email already registered"), s).
Proof.
  intros He. unfold create_user. rewrite bool_decide_eq_true_2; [done|].
  by apply elem_of_dom.
Qed.

Lemma create_user_username_taken d hex salt now s :
  email_index s !! uc_email d = None →
  is_Some (username_index s !! lower (uc_username d)) →
  create_user d hex salt now s = (Raise (ValueError "Username already taken"), s).
Proof.
  intros He Hn. unfold create_user.
  rewrite bool_decide_eq_false_2 by (by apply not_elem_of_dom).
  rewrite bool_decide_eq_true_2; [done|]. by apply elem_of_dom.
Qed.

(** The user a registration creates. *)
Lemma create_user_new d hex salt now s :
  email_index s !! uc_email d = None →
  username_index s !! lower (uc_username d) = None →
  let user_id := "user-" +:+ hex in
  let u := {| id := user_id; email := uc_email d;
              username := lower (uc_username d);
              full_name := uc_full_name d;
              hashed_password := get_password_hash salt (uc_password d);
              role := USER; is_active := true; created_at := now;
              updated_at := now; last_login := None;
              failed_login_attempts := 0; locked_until := None |} in
  create_user d hex salt now s =
  (Return u,
   with_username_index (<[lower (uc_username d) := user_id]> (username_index s))
     (with_email_index (<[uc_email d := user_id]> (email_index s))
        (with_users (<[user_id := u]> (users s)) s))).
Proof.
  intros He Hn. unfold create_user.
  rewrite bool_decide_eq_false_2 by (by apply not_elem_of_dom).
  rewrite bool_decide_eq_false_2 by (by apply not_elem_of_dom). done.
Qed.

(** X1. Registration refuses a taken email with 400 "Email already
    registered" whatever the username, and a taken username, compared in
    lower case, with 400 "Username already taken"; both leave the store
    untouched. Otherwise it stores an active user of role USER under the
    drawn id, with the lower-cased username, after which any registration
    with the same email, or with a username equal up to letter case, is
    refused. *)
Theorem register_rejects_duplicates d hex salt now s :
  (is_Some (email_index s !! uc_email d) →
   register d hex salt now s =
     (Raise (HTTPException 400 "Email already registered"), s)) ∧
  (email_index s !! uc_email d = None →
   is_Some (username_index s !! lower (uc_username d)) →
   register d hex salt now s =
     (Raise (HTTPException 400 "Username already taken"), s)) ∧
  (email_index s !! uc_email d = None →
   username_index s !! lower (uc_username d) = None →
   let s' := exec (register d hex salt now) s in
   ∃ u, eval (register d hex salt now) s = Return (response_of u) ∧
     users s' !! ("user-" +:+ hex) = Some u ∧
     id u = "user-" +:+ hex ∧ email u = uc_email d ∧
     username u = lower (uc_username d) ∧ role u = USER ∧ is_active u = true ∧
     (∀ d' hex' salt' now', uc_email d' = uc_email d →
        register d' hex' salt' now' s' =
          (Raise (HTTPException 400 "Email already registered"), s')) ∧
     (∀ d' hex' salt' now',
        email_index s' !! uc_email d' = None →
        lower (uc_username d') = lower (uc_username d) →
        register d' hex' salt' now' s' =
          (Raise (HTTPException 400 "Username already taken"), s'))).
Proof.
  split_and!.
  - intros He. unfold register. by rewrite create_user_email_taken.
  - intros He Hn. unfold register. by rewrite create_user_username_taken.
  - intros He Hn s'. unfold s', eval, exec, register.
    rewrite create_user_new by done. simpl.
    eexists. split; [done|]. rewrite lookup_insert_eq.
    split_and!; try done.
    + intros d' hex' salt' now' Hd'. rewrite create_user_email_taken; [done|].
      simpl. rewrite Hd', lookup_insert_eq. eauto.
    + intros d' hex' salt' now' He' Hd'.
      rewrite create_user_username_taken; [done|done|].
      simpl. rewrite Hd', lookup_insert_eq. eauto.
Qed.

(** X2. A registered user can log in: after a successful registration, a
    login with the registered email, or with the username in any letter
    case (when that spelling is not a stored email), and the registered
    password returns a token pair for the new user, provided the hasher
    verifies the password against the hash it produced. *)
Theorem register_then_login d hex salt now s ident now' :
  email_index s !! uc_email d = None →
  username_index s !! lower (uc_username d) = None →
  pwd_verify (uc_password d) (pwd_hash salt (uc_password d)) = true →
  let s' := exec (register d hex salt now) s in
  (ident = uc_email d ∨
   (lower ident = lower (uc_username d) ∧ email_index s' !! ident = None)) →
  ∃ tok, eval (login ident (uc_password d) now') s' = Return tok ∧
    ur_id (tk_user tok) = "user-" +:+ hex ∧
    ur_email (tk_user tok) = uc_email d ∧
    ur_last_login (tk_user tok) = Some now' ∧
    tk_refresh_token tok =
      create_token ("user-" +:+ hex, lower (uc_username d)) REFRESH
        (Some (timedelta.days settings.REFRESH_TOKEN_EXPIRE_DAYS)) now'.
Proof.
  intros He Hn Hv s' Hident.
  assert (find_user ident s' = Some ("user-" +:+ hex) ∧
          ∃ u, users s' !! ("user-" +:+ hex) = Some u ∧
               id u = "user-" +:+ hex ∧ email u = uc_email d ∧
               username u = lower (uc_username d) ∧ locked_until u = None ∧
               hashed_password u = pwd_hash salt (uc_password d)) as [Hf (u & Hu & Hi & Hem & Hun & Hl & Hh)].
  { unfold s', exec, register. rewrite create_user_new by done. simpl.
    split.
    - unfold find_user, get_user_by_email, get_user_by_username, users_get. simpl.
      destruct Hident as [->|[Hlow Hnone]].
      + by rewrite !lookup_insert_eq.
      + unfold s', exec, register in Hnone. rewrite create_user_new in Hnone by done.
        simpl in Hnone. rewrite Hnone, Hlow. by rewrite !lookup_insert_eq.
    - eexists. rewrite lookup_insert_eq. split; [done|]. done. }
  pose proof (login_cases ident (uc_password d) now' s') as Hc. rewrite Hf in Hc.
  destruct Hc as (u0 & Hu0 & Hc). assert (u0 = u) as -> by congruence.
  unfold locked_at, unlock_expired in Hc. rewrite Hl in Hc.
  unfold verify_password in Hc. rewrite Hh, Hv in Hc. simpl in Hc.
  unfold eval. rewrite Hc. simpl. eexists. split; [done|]. simpl.
  by rewrite Hi, Hem, Hun.
Qed.

End Registration.

(** ** Access tokens and the current user *)

Section Sessions.
Context `{Ext : External}.

Lemma get_current_user_blacklisted token now s :
  token ∈ blacklisted_tokens s →
  get_current_user token now s =
    (Raise (HTTPException 401 "Token has been revoked"), s).
Proof.
  intros Hb. unfold get_current_user, is_token_blacklisted. run_monad.
  by rewrite bool_decide_eq_true_2.
Qed.

(** What [get_current_user] returns, and that it leaves the store alone. *)
Lemma get_current_user_cases token now s :
  get_current_user token now s =
  (if bool_decide (token ∈ blacklisted_tokens s) then
     Raise (HTTPException 401 "Token has been revoked")
   else
     match jwt_decode token now with
     | None => Raise (HTTPException 401 "Could not validate credentials")
     | Some payload =>
         match c_user_id payload with
         | None => Raise (HTTPException 401 "Invalid token")
         | Some r =>
             if bool_decide (c_type payload ≠ Some (TokenType_value ACCESS)) then
               Raise (HTTPException 401 "Invalid token")
             else
               match users s !! r with
               | None => Raise (HTTPException 404 "User not found")
               | Some u =>
                   if is_active u then Return r
                   else Raise (HTTPException 403 "Inactive user")
               end
         end
     end, s).
Proof.
  unfold get_current_user, is_token_blacklisted, decode_token. run_monad.
  case_bool_decide; [done|].
  destruct (jwt_decode token now) as [payload|]; simpl; [|done].
  destruct (c_user_id payload) as [r|]; [|done].
  case_bool_decide; [done|]. unfold get_user_by_id, users_get, getattr.
  destruct (users s !! r) as [u|] eqn:Hu; simpl; [|done].
  rewrite Hu. by destruct (is_active u).
Qed.

(** X3. The dependency [get_current_user] never changes the store; it
    returns a user exactly when the token is not blacklisted, decodes,
    names a user id, is of kind access, and the user is stored and active.
    A blacklisted token is refused with 401 "Token has been revoked" before
    it is decoded, a stored but inactive user with 403, a missing user with
    404. *)
Theorem get_current_user_spec token now s :
  exec (get_current_user token now) s = s ∧
  (∀ r, eval (get_current_user token now) s = Return r ↔
     (token ∉ blacklisted_tokens s) ∧
     ∃ payload u, jwt_decode token now = Some payload ∧
       c_user_id payload = Some r ∧
       c_type payload = Some (TokenType_value ACCESS) ∧
       users s !! r = Some u ∧ is_active u = true) ∧
  (token ∈ blacklisted_tokens s →
   eval (get_current_user token now) s =
     Raise (HTTPException 401 "Token has been revoked")) ∧
  (∀ payload r u, (token ∉ blacklisted_tokens s) →
     jwt_decode token now = Some payload → c_user_id payload = Some r →
     c_type payload = Some (TokenType_value ACCESS) →
     (users s !! r = None →
      eval (get_current_user token now) s =
        Raise (HTTPException 404 "User not found")) ∧
     (users s !! r = Some u → is_active u = false →
      eval (get_current_user token now) s =
        Raise (HTTPException 403 "Inactive user"))).
Proof.
  unfold eval, exec. rewrite get_current_user_cases. simpl. split_and!.
  - done.
  - intros r. case_bool_decide as Hb.
    { split; [done|]. by intros [? _]. }
    destruct (jwt_decode token now) as [payload|] eqn:Hdec.
    2:{ split; [done|]. by intros (_ & ? & ? & ? & _). }
    destruct (c_user_id payload) as [r0|] eqn:Hr.
    2:{ split; [done|]. intros (_ & p & u' & ? & ? & _). simplify_eq. }
    case_bool_decide as Hty.
    { split; [done|]. intros (_ & p & u' & ? & ? & ? & _). simplify_eq. }
    destruct (users s !! r0) as [u|] eqn:Hu.
    2:{ split; [done|]. intros (_ & p & u' & ? & ? & ? & ? & _). simplify_eq. }
    destruct (is_active u) eqn:Ha.
    + split.
      * intros [= <-]. split; [done|]. exists payload, u. split_and!; try done.
      * intros (_ & p & u' & ? & ? & _). by simplify_eq.
    + split; [done|]. intros (_ & p & u' & ? & ? & ? & ? & ?). simplify_eq. congruence.
  - intros Hb. by rewrite bool_decide_eq_true_2.
  - intros payload r u Hb Hdec Hr Hty.
    rewrite bool_decide_eq_false_2 by done. rewrite Hdec, Hr.
    rewrite bool_decide_eq_false_2 by (intros Hne; by apply Hne).
    split; [by intros ->|]. by intros -> ->.
Qed.

(** X4. The token kinds are not interchangeable: a token that decodes to
    any kind but access is refused by [get_current_user] with 401 "Invalid
    token", and a token that decodes to any kind but refresh is refused by
    the refresh route with 401 "Invalid token type", before the ledger is
    consulted; a malformed or expired token is refused by both with 401
    "Could not validate credentials". Neither refusal changes the store. *)
Theorem token_kinds_not_interchangeable token now s :
  (∀ payload, (token ∉ blacklisted_tokens s) →
     jwt_decode token now = Some payload →
     c_type payload ≠ Some (TokenType_value ACCESS) →
     get_current_user token now s = (Raise (HTTPException 401 "Invalid token"), s)) ∧
  (∀ payload, jwt_decode token now = Some payload →
     c_type payload ≠ Some (TokenType_value REFRESH) →
     refresh_token token now s =
       (Raise (HTTPException 401 "Invalid token type"), s)) ∧
  (jwt_decode token now = None →
   refresh_token token now s =
     (Raise (HTTPException 401 "Could not validate credentials"), s) ∧
   ((token ∉ blacklisted_tokens s) →
    get_current_user token now s =
      (Raise (HTTPException 401 "Could not validate credentials"), s))).
Proof.
  split_and!.
  - intros payload Hb Hdec Hty. rewrite get_current_user_cases.
    rewrite bool_decide_eq_false_2 by done. rewrite Hdec.
    destruct (c_user_id payload); [|done]. by rewrite bool_decide_eq_true_2.
  - intros payload Hdec Hty. unfold refresh_token, decode_token. rewrite Hdec.
    run_monad. by rewrite bool_decide_eq_true_2.
  - intros Hdec. split.
    + unfold refresh_token, decode_token. rewrite Hdec. by run_monad.
    + intros Hb. rewrite get_current_user_cases.
      rewrite bool_decide_eq_false_2 by done. by rewrite Hdec.
Qed.

(** X5. Logout revokes the whole session family: it blacklists the access
    token and every refresh token the ledger holds for the user, and
    removes those from the ledger. From then on, after any further
    operations and at any time, the access token is refused with 401
    "Token has been revoked" and each of those refresh tokens is refused
    by the refresh route with InvalidToken. *)
Theorem logout_revokes_session_family cu u token s :
  users s !! cu = Some u →
  let s' := exec (logout cu token) s in
  eval (logout cu token) s = Return (message "Successfully logged out") ∧
  users s' = users s ∧
  (∀ t, t ∈ blacklisted_tokens s' ↔
     t = token ∨ t ∈ blacklisted_tokens s ∨
     ∃ d, refresh_tokens s !! t = Some d ∧ td_user_id d = id u) ∧
  (∀ t d, refresh_tokens s' !! t = Some d →
     refresh_tokens s !! t = Some d ∧ td_user_id d ≠ id u) ∧
  (∀ ops now,
     eval (get_current_user token now) (steps ops s') =
       Raise (HTTPException 401 "Token has been revoked")) ∧
  (∀ t d ops now, refresh_tokens s !! t = Some d → td_user_id d = id u →
     ∃ e, eval (refresh_token t now) (steps ops s') = Raise e ∧ InvalidToken e).
Proof.
  intros Hu s'.
  assert (logout cu token s =
          (Return (message "Successfully logged out"),
           exec (cleanup_user_tokens (id u)) (exec (blacklist_token token) s))) as Hl.
  { unfold logout. run_monad. by rewrite (getattr_Some _ _ _ u). }
  assert (∀ t, t ∈ blacklisted_tokens s' ↔
     t = token ∨ t ∈ blacklisted_tokens s ∨
     ∃ d, refresh_tokens s !! t = Some d ∧ td_user_id d = id u) as Hbl.
  { intros t. unfold s', exec at 1. rewrite Hl. cbn [snd].
    rewrite cleanup_user_tokens_blacklist, blacklist_token_exec. simpl.
    rewrite elem_of_union, elem_of_singleton. tauto. }
  unfold eval. rewrite Hl. split_and!; try done.
  - unfold s', exec at 1. by rewrite Hl.
  - intros t d. unfold s', exec at 1. rewrite Hl. cbn [snd].
    rewrite cleanup_user_tokens_ledger, blacklist_token_exec. simpl.
    destruct (refresh_tokens s !! t) as [d0|]; [|done].
    case_decide; [done|]. by intros [= <-].
  - intros ops now. unfold eval. rewrite get_current_user_blacklisted; [done|].
    apply (blacklist_le_steps ops). apply Hbl. by left.
  - intros t d ops now Hd Hid.
    destruct (refresh_token_blacklisted t now (steps ops s')) as (e & He & Hi).
    { apply (blacklist_le_steps ops). apply Hbl. eauto. }
    exists e. unfold eval. by rewrite He.
Qed.

End Sessions.

(** ** What every stored user satisfies *)

Lemma keeps_users_preorder P : PreOrder (keeps_users P).
Proof. split; unfold keeps_users; [intros s|intros s1 s2 s3]; auto. Qed.
#[local] Existing Instance keeps_users_preorder.

Section Stored_users.
Context `{Ext : External}.
Context (P : string → UserInDB → Prop).
Hypothesis P_same : ∀ k u u', same_user u u' → P k u → P k u'.

Lemma keeps_users_same_directory s s' :
  same_directory s s' → keeps_users P s s'.
Proof.
  intros (_ & _ & Hus) HP k u' Hu'. specialize (Hus k). rewrite Hu' in Hus.
  destruct (users s !! k) as [u0|] eqn:Hu0; inversion Hus as [? ? Hs0|]; subst.
  eapply P_same; [exact Hs0|]. by apply HP.
Qed.

Lemma keeps_users_delete_user uid : preserves (keeps_users P) (delete_user uid).
Proof.
  intros s HP k u. change ((delete_user uid s).2) with (exec (delete_user uid) s).
  rewrite delete_user_exec. destruct (users s !! uid); [|apply HP]. simpl.
  rewrite lookup_delete_Some. intros [_ ?]. by apply HP.
Qed.

Hypothesis P_new : ∀ d hex salt now s u,
  eval (create_user d hex salt now) s = Return u → P ("user-" +:+ hex) u.

Lemma keeps_users_create_user d hex salt now :
  preserves (keeps_users P) (create_user d hex salt now).
Proof.
  intros s HP k u. pose proof (P_new d hex salt now s) as Hn.
  unfold eval in Hn. unfold create_user in *.
  repeat case_bool_decide; simpl in *; try by apply HP.
  destruct (decide ("user-" +:+ hex = k)) as [<-|Hne].
  - rewrite lookup_insert_eq. intros [= <-]. by apply Hn.
  - rewrite lookup_insert_ne by done. apply HP.
Qed.

Lemma keeps_users_step op s :
  directory_safe op s → users_have P s → users_have P (step op s).
Proof.
  intros Hsafe.
  assert (∀ op', directory_neutral op' → keeps_users P s (step op' s)) as Hdir.
  { intros op' Hop. apply keeps_users_same_directory.
    apply (same_directory_run op' Hop). }
  destruct op; simpl in Hsafe;
    try (apply Hdir; exact I); try (by apply Hdir);
    unfold step; simpl; rewrite exec_void.
  - apply keeps_users_create_user.
  - apply keeps_users_delete_user.
  - rewrite register_exec. apply keeps_users_create_user.
  - apply (preserves_bind (keeps_users P)).
    + intros s0. apply keeps_users_same_directory.
      apply preserves_get_current_active_user. apply _.
    + intros cu. apply preserves_delete_account; [apply _| |].
      * intros t s0. apply keeps_users_same_directory. by apply same_directory_same.
      * apply keeps_users_delete_user.
Qed.

Hypothesis P_admin : ∀ salt now, P "admin-001" (admin_user salt now).

Lemma reachable_safely_users s : reachable_safely s → users_have P s.
Proof.
  induction 1 as [salt now|op s Hs IH Hsafe].
  - intros k u Hu. simpl in Hu. apply lookup_singleton_Some in Hu as [<- <-].
    apply P_admin.
  - by apply keeps_users_step.
Qed.

End Stored_users.

Section Stored_users_facts.
Context `{Ext : External}.

(** A stored user's id is the key it is stored under, and its username is
    in lower case. *)
Lemma reachable_safely_id_username s k u :
  reachable_safely s → users s !! k = Some u →
  id u = k ∧ lower (username u) = username u.
Proof.
  intros Hs. revert k u.
  apply (reachable_safely_users (λ k u, id u = k ∧ lower (username u) = username u));
    try done.
  - intros k' u1 u2 (Hi & _ & Hn) [? ?]. rewrite Hi, Hn. done.
  - intros d hex salt now s0 u0. unfold eval, create_user.
    repeat case_bool_decide; try done. simpl. intros [= <-]. simpl.
    split; [done|apply lower_idempotent].
Qed.

End Stored_users_facts.

(** ** The order of the checks of a login *)

Section Login_order.
Context `{Ext : External}.

(** In a store reached by safe operations the identifier resolves to the
    stored user with that email and, when there is none, to the stored user
    with that handle in lower case. *)
Lemma find_user_resolves ident s r :
  reachable_safely s →
  find_user ident s = Some r ↔
  ∃ u, users s !! r = Some u ∧
    (email u = ident ∨
     ((∀ k v, users s !! k = Some v → email v ≠ ident) ∧ username u = lower ident)).
Proof.
  intros Hs. destruct (reachable_safely_consistent s Hs) as (Hce & Hcn & Hcu).
  assert (∀ k', is_Some (users s !! k') → truthy k' = true) as Hkeys.
  { intros k'. apply reachable_users_truthy. by apply reachable_safely_reachable. }
  unfold find_user, get_user_by_email, get_user_by_username, users_get.
  destruct (email_index s !! ident) as [k|] eqn:He.
  - destruct (Hce _ _ He) as (v & Hv & Hev). rewrite (Hkeys k) by eauto. rewrite Hv.
    split.
    + intros [= <-]. eauto.
    + intros (u & Hu & [Heu|[Hno _]]).
      * destruct (Hcu r u Hu) as [Her _]. rewrite Heu in Her. congruence.
      * by destruct (Hno k v Hv).
  - assert (∀ k v, users s !! k = Some v → email v ≠ ident) as Hno.
    { intros k v Hv Hev. destruct (Hcu k v Hv) as [Hek _]. congruence. }
    destruct (username_index s !! lower ident) as [k|] eqn:Hn.
    + destruct (Hcn _ _ Hn) as (v & Hv & Hnv). rewrite (Hkeys k) by eauto. rewrite Hv.
      split.
      * intros [= <-]. eauto.
      * intros (u & Hu & [Heu|[_ Hnu]]); [by destruct (Hno r u Hu)|].
        destruct (Hcu r u Hu) as [_ Hnr]. rewrite Hnu in Hnr. congruence.
    + split; [done|]. intros (u & Hu & [Heu|[_ Hnu]]); [by destruct (Hno r u Hu)|].
      destruct (Hcu r u Hu) as [_ Hnr]. rewrite Hnu in Hnr. congruence.
Qed.

(** The minutes the handler computes from the time [d] left of a lock. *)
Lemma whole_minutes_left lu now :
  now ≤ lu → lu - now < timedelta.days 1 →
  timedelta.seconds (lu - now) `div` 60 = (lu - now) `div` timedelta.minutes 1.
Proof.
  unfold timedelta.seconds. change (timedelta.days 1) with 86400000000.
  change (timedelta.minutes 1) with 60000000. intros.
  rewrite Z.mod_small by lia. by rewrite Z.div_div by lia.
Qed.

Lemma minutes_after_the_lock lu now :
  lu < now → now ≤ lu + timedelta.minutes 1 →
  timedelta.seconds (lu - now) `div` 60 = 1439.
Proof.
  unfold timedelta.seconds. change (timedelta.days 1) with 86400000000.
  change (timedelta.minutes 1) with 60000000. intros.
  rewrite Z.div_div by lia. change (1000000 * 60) with 60000000.
  assert ((lu - now) `mod` 86400000000 = lu - now + 86400000000) as ->.
  { symmetry. apply (Z.mod_unique _ _ (-1)); lia. }
  symmetry. apply (Z.div_unique _ _ _ (lu - now + 60000000)); lia.
Qed.

(** The store after the lock check of a stored user. *)
Lemma is_user_locked_store r now s u :
  users s !! r = Some u →
  let s1 := exec (is_user_locked r now) s in
  users s1 = <[r := unlock_expired now u]> (users s) ∧
  email_index s1 = email_index s ∧ username_index s1 = username_index s ∧
  refresh_tokens s1 = refresh_tokens s ∧
  blacklisted_tokens s1 = blacklisted_tokens s ∧
  password_reset_tokens s1 = password_reset_tokens s.
Proof.
  intros Hu. unfold exec, is_user_locked, unlock_expired. rewrite Hu.
  destruct (locked_until u); [case_bool_decide|]; simpl; split_and!; try done;
    by rewrite insert_id.
Qed.

(** C2, as the code has it, with every reading of the clock apart. If no
    stored user has the identifier as email, or else as handle, the login
    fails with [bad_credentials], the very failure of a wrong password, and
    the store is untouched. If the user is locked at the first reading, the
    login fails with [account_locked] and the store is untouched; the
    minutes it carries are computed from a second reading: they are the
    whole minutes left of the cooldown when that reading is not past the
    end of the lock (and less than a day before it), and 1439 when the lock
    has run out, by up to a minute, between the two readings. Otherwise (an
    expired lock having been cleared by the check) the password is
    verified. On mismatch the failure is recorded in the record of the
    user, the counter one higher and, from the threshold on, the lock set
    to the cooldown after the reading, nothing else in the store is
    changed, and the login fails with [bad_credentials]. On match the
    counter is zero, the lock is cleared and the last login is set in the
    record of the user, an access and a refresh token are issued for the
    user, and the refresh token is recorded in the ledger for the user with
    the refresh lifetime; nothing else in the store is changed. *)
Theorem login_checks_in_order ident password clock s :
  (reachable_safely s →
   ∀ r, find_user ident s = Some r ↔
     ∃ u, users s !! r = Some u ∧
       (email u = ident ∨
        ((∀ k v, users s !! k = Some v → email v ≠ ident) ∧
         username u = lower ident))) ∧
  match find_user ident s with
  | None => login_at ident password clock s = (Raise bad_credentials, s)
  | Some r =>
      ∃ u, users s !! r = Some u ∧
        if locked_at (at_lock_check clock) u then
          ∃ lu, locked_until u = Some lu ∧ at_lock_check clock < lu ∧
            let minutes := timedelta.seconds (lu - at_remaining clock) `div` 60 in
            login_at ident password clock s = (Raise (account_locked minutes), s) ∧
            (at_remaining clock ≤ lu →
             lu - at_remaining clock < timedelta.days 1 →
             minutes = (lu - at_remaining clock) `div` timedelta.minutes 1) ∧
            (lu < at_remaining clock →
             at_remaining clock ≤ lu + timedelta.minutes 1 →
             minutes = 1439)
        else
          let u0 := unlock_expired (at_lock_check clock) u in
          if verify_password password (hashed_password u) then
            let u' := set_last_login (Some (at_last_login clock))
                        (set_locked_until None (set_failed_login_attempts 0 u0)) in
            let refresh :=
              create_token_at (id u, username u) REFRESH
                (Some (timedelta.days settings.REFRESH_TOKEN_EXPIRE_DAYS))
                (at_refresh_expire clock) (at_refresh_issued clock) in
            ∃ s',
              login_at ident password clock s =
                (Return
                   {| tk_access_token :=
                        create_token_at (id u, username u) ACCESS
                          (Some (timedelta.minutes
                                   settings.ACCESS_TOKEN_EXPIRE_MINUTES))
                          (at_access_expire clock) (at_access_issued clock);
                      tk_refresh_token := refresh;
                      tk_token_type := "bearer";
                      tk_expires_in := settings.ACCESS_TOKEN_EXPIRE_MINUTES * 60;
                      tk_user := response_of u' |}, s') ∧
              users s' = <[r := u']> (users s) ∧
              refresh_tokens s' =
                <[refresh :=
                    {| td_user_id := id u;
                       td_expires_at :=
                         at_expires clock +
                         timedelta.days settings.REFRESH_TOKEN_EXPIRE_DAYS;
                       td_created_at := at_stored clock |}]> (refresh_tokens s) ∧
              email_index s' = email_index s ∧
              username_index s' = username_index s ∧
              blacklisted_tokens s' = blacklisted_tokens s ∧
              password_reset_tokens s' = password_reset_tokens s
          else
            let failures := failed_login_attempts u0 + 1 in
            let u1 := set_failed_login_attempts failures u0 in
            let u' :=
              if bool_decide (failures >= settings.MAX_LOGIN_ATTEMPTS) then
                set_locked_until
                  (Some (at_failure clock +
                         timedelta.minutes settings.LOGIN_TIMEOUT_MINUTES)) u1
              else u1 in
            ∃ s',
              login_at ident password clock s = (Raise bad_credentials, s') ∧
              users s' = <[r := u']> (users s) ∧
              refresh_tokens s' = refresh_tokens s ∧
              email_index s' = email_index s ∧
              username_index s' = username_index s ∧
              blacklisted_tokens s' = blacklisted_tokens s ∧
              password_reset_tokens s' = password_reset_tokens s
  end.
Proof.
  split; [intros Hs r; by apply find_user_resolves|].
  pose proof (login_at_cases ident password clock s) as Hc.
  destruct (find_user ident s) as [r|]; [|done].
  destruct Hc as (u & Hu & Hc). exists u. split; [done|].
  destruct (locked_at (at_lock_check clock) u).
  - destruct Hc as (lu & Hlu & Hlt & Hc). exists lu.
    split; [done|]. split; [done|]. split; [done|].
    split; [apply whole_minutes_left|apply minutes_after_the_lock].
  - cbv zeta in Hc.
    destruct (verify_password password (hashed_password u)).
    + eexists. split; [exact Hc|]. by split_and!.
    + destruct (is_user_locked_store r (at_lock_check clock) s u Hu)
        as (Hus & ? & ? & ? & ? & ?).
      eexists. split; [exact Hc|].
      set (s1 := exec (is_user_locked r (at_lock_check clock)) s) in *.
      assert (users s1 !! r = Some (unlock_expired (at_lock_check clock) u)) as Hu1
        by (rewrite Hus; by rewrite lookup_insert_eq).
      unfold exec at 1 2 3 4 5 6, increment_failed_login. rewrite Hu1. simpl.
      split_and!; try done. rewrite Hus. by rewrite insert_insert_eq.
Qed.

(** A login changes no record but that of the user it resolves to. *)
Lemma login_users_other ident password now s k :
  find_user ident s ≠ Some k →
  users (exec (login ident password now) s) !! k = users s !! k.
Proof.
  intros Hne. pose proof (login_cases ident password now s) as Hc. unfold exec at 1.
  destruct (find_user ident s) as [r|]; [|by rewrite Hc].
  assert (r ≠ k) as Hrk by congruence.
  destruct Hc as (u & Hu & Hc).
  destruct (locked_at now u); [destruct Hc as (lu & _ & _ & Hc); by rewrite Hc|].
  cbv zeta in Hc. destruct (verify_password password (hashed_password u)).
  - rewrite Hc. simpl. by rewrite lookup_insert_ne.
  - rewrite Hc. cbn [snd].
    destruct (is_user_locked_store r now s u Hu) as (Hus & _).
    set (s1 := exec (is_user_locked r now) s) in *.
    assert (users s1 !! r = Some (unlock_expired now u)) as Hu1
      by (rewrite Hus; by rewrite lookup_insert_eq).
    unfold exec, increment_failed_login. rewrite Hu1. simpl.
    rewrite lookup_insert_ne by done. rewrite Hus. by rewrite lookup_insert_ne.
Qed.

(** A login returns tokens for the user it resolves to. *)
Lemma login_returns_resolved ident password now s tok :
  reachable_safely s →
  eval (login ident password now) s = Return tok →
  find_user ident s = Some (ur_id (tk_user tok)).
Proof.
  intros Hs. pose proof (login_cases ident password now s) as Hc. unfold eval.
  destruct (find_user ident s) as [r|]; [|by rewrite Hc].
  destruct Hc as (u & Hu & Hc).
  destruct (reachable_safely_id_username s r u Hs Hu) as [Hid _].
  destruct (locked_at now u); [destruct Hc as (lu & _ & _ & Hc); by rewrite Hc|].
  cbv zeta in Hc. destruct (verify_password password (hashed_password u));
    rewrite Hc; [|done].
  intros [= <-]. simpl. f_equal. rewrite <- Hid.
  unfold unlock_expired. by destruct (locked_until u); [case_bool_decide|].
Qed.

End Login_order.

(** ** Letter case in emails and handles *)

Section Letter_case.
Context `{Ext : External} `{Val : Validator}.

(** C10, as amended. Lookup by email is an exact, case-sensitive match on
    the stored email, while lookup by username lower-cases its argument
    before it consults the index. Hence, for every stored user and every
    identifier that differs from the user's email only in letter case: the
    email lookup never leads to that user; a login with the identifier,
    when it is not the user's own handle, does not resolve to that user,
    returns no tokens for that user and leaves the user's record as it is;
    and when the identifier is not the email or the handle of any stored
    user, the login fails exactly as for an unknown user and leaves the
    store untouched. A password-reset request is looked up by the address
    as the request model has normalised it, not as it was submitted: when
    the normalised address is the stored email, the user is found and a
    reset token is created and returned; when no stored user has the
    normalised address as email, the response carries no token and nothing
    is written. *)
Theorem email_lookup_case_sensitive s k u ident password rnd now :
  reachable_safely s → users s !! k = Some u →
  lower ident = lower (email u) → ident ≠ email u →
  get_user_by_email (email u) s = Some k ∧
  get_user_by_email ident s ≠ Some k ∧
  (∀ n, get_user_by_username n s = username_index s !! lower n ≫= λ k', users_get k' s) ∧
  (∀ n, get_user_by_username n s = get_user_by_username (lower n) s) ∧
  (∀ n, lower n = username u → get_user_by_username n s = Some k) ∧
  (username u ≠ lower ident →
   find_user ident s ≠ Some k ∧
   (∀ tok, eval (login ident password now) s = Return tok →
      ur_id (tk_user tok) ≠ k) ∧
   users (exec (login ident password now) s) !! k = Some u) ∧
  ((∀ k' v, users s !! k' = Some v → email v ≠ ident ∧ username v ≠ lower ident) →
   find_user ident s = None ∧
   login ident password now s = (Raise bad_credentials, s)) ∧
  (∀ e, PasswordResetRequest ident = Some e →
     ∃ m, post_request_password_reset ident rnd now = Some m ∧
       (e = email u →
        eval m s =
          Return [("message", reset_link_sent); ("reset_token", rnd)] ∧
        password_reset_tokens (exec m s) !! rnd =
          Some {| td_user_id := k; td_created_at := now;
                  td_expires_at := now + timedelta.hours 1 |}) ∧
       ((∀ k' v, users s !! k' = Some v → email v ≠ e) →
        m s = (Return (message reset_link_sent), s))).
Proof.
  intros Hs Hu Hcase Hne.
  destruct (reachable_safely_consistent s Hs) as (Hce & Hcn & Hcu).
  assert (∀ k', is_Some (users s !! k') → truthy k' = true) as Hkeys.
  { intros k'. apply reachable_users_truthy. by apply reachable_safely_reachable. }
  destruct (Hcu k u Hu) as [Hek Hnk].
  destruct (reachable_safely_id_username s k u Hs Hu) as [Hid _].
  assert (∀ n, get_user_by_username n s =
               username_index s !! lower n ≫= λ k', users_get k' s) as Hun.
  { intros n. unfold get_user_by_username.
    destruct (username_index s !! lower n) as [k'|] eqn:Hk'; [|done]. simpl.
    destruct (Hcn _ _ Hk') as (v & Hv & _). by rewrite Hkeys. }
  assert (get_user_by_email (email u) s = Some k) as Hfound.
  { unfold get_user_by_email, users_get. rewrite Hek, Hu. by rewrite Hkeys. }
  split_and!; try done.
  - unfold get_user_by_email.
    destruct (email_index s !! ident) as [k'|] eqn:Hk'; [|done].
    destruct (Hce _ _ Hk') as (v & Hv & Hev).
    destruct (truthy k'); [|done]. intros [-> _]%users_get_Some. congruence.
  - intros n. by rewrite !Hun, lower_idempotent.
  - intros n Hn. rewrite Hun, Hn, Hnk. simpl. unfold users_get. by rewrite Hu.
  - intros Hhandle.
    assert (find_user ident s ≠ Some k) as Hnot.
    { intros (u0 & Hu0 & Hor)%find_user_resolves; [|done].
      assert (u0 = u) as -> by congruence.
      destruct Hor as [?|[_ ?]]; congruence. }
    split_and!; [done| |].
    + intros tok Htok Hk. apply login_returns_resolved in Htok; [|done]. congruence.
    + by rewrite login_users_other.
  - intros Hnobody.
    assert (find_user ident s = None) as Hfu.
    { destruct (find_user ident s) as [r|] eqn:Hf; [|done].
      apply find_user_resolves in Hf as (v & Hv & Hor); [|done].
      destruct (Hnobody r v Hv). destruct Hor as [?|[_ ?]]; congruence. }
    split; [done|].
    pose proof (login_cases ident password now s) as Hc. by rewrite Hfu in Hc.
  - intros e He. unfold post_request_password_reset. rewrite He. simpl.
    eexists. split; [done|]. split.
    + intros ->. unfold eval, exec, request_password_reset. run_monad.
      rewrite Hfound, (getattr_Some _ _ _ u) by done. simpl.
      rewrite lookup_insert_eq, Hid. done.
    + intros Hno. unfold request_password_reset, mbind, M_bind, bind, gets.
      assert (get_user_by_email e s = None) as ->; [|done].
      unfold get_user_by_email.
      destruct (email_index s !! e) as [k'|] eqn:Hk'; [|done].
      destruct (Hce _ _ Hk') as (v & Hv & Hev). by destruct (Hno k' v Hv).
Qed.

End Letter_case.

(** ** Lookups in the directory *)

Section Directory_lookups.
Context `{Ext : External}.

(** X6. In every store reached by safe operations, a stored user carries as
    id the key it is stored under and a lower-case username; it is found by
    its id, by its exact email, and by its username in any letter case, and
    a lookup by username only ever returns a user whose username is the
    lower-cased argument. *)
Theorem stored_user_is_found s k u :
  reachable_safely s → users s !! k = Some u →
  id u = k ∧ lower (username u) = username u ∧
  get_user_by_id k s = Some k ∧
  get_user_by_email (email u) s = Some k ∧
  (∀ n, lower n = lower (username u) → get_user_by_username n s = Some k) ∧
  (∀ n r, get_user_by_username n s = Some r →
     ∃ v, users s !! r = Some v ∧ username v = lower n).
Proof.
  intros Hs Hu.
  destruct (reachable_safely_id_username s k u Hs Hu) as [Hid Hlow].
  destruct (reachable_safely_consistent s Hs) as (Hce & Hcn & Hcu).
  destruct (Hcu k u Hu) as [Hek Hnk].
  assert (truthy k = true) as Ht.
  { apply (reachable_users_truthy s); [by apply reachable_safely_reachable|eauto]. }
  split_and!; try done.
  - unfold get_user_by_id, users_get. by rewrite Hu.
  - unfold get_user_by_email, users_get. by rewrite Hek, Ht, Hu.
  - intros n Hn. unfold get_user_by_username, users_get.
    by rewrite Hn, Hlow, Hnk, Ht, Hu.
  - intros n r. unfold get_user_by_username.
    destruct (username_index s !! lower n) as [k'|] eqn:Hk'; [|done].
    destruct (Hcn _ _ Hk') as (v & Hv & Hvn).
    destruct (truthy k'); [|done]. intros [-> _]%users_get_Some. eauto.
Qed.

End Directory_lookups.

(** ** Changing and resetting passwords *)

Section Passwords.
Context `{Ext : External}.

Lemma update_user_stored uid upd now s u :
  users s !! uid = Some u →
  update_user uid upd now s =
  (Return (Some uid),
   with_users (<[uid := set_updated_at now (foldl (λ u a, setattr a u) u upd)]>
                 (users s)) s).
Proof. intros Hu. unfold update_user. by rewrite Hu. Qed.

(** The outcome of [get_current_user] depends on the blacklist entry of the
    token and on the activity of the user it names only. *)
Lemma get_current_user_same token now s s' :
  (token ∈ blacklisted_tokens s' ↔ token ∈ blacklisted_tokens s) →
  (∀ r, is_active <$> users s' !! r = is_active <$> users s !! r) →
  eval (get_current_user token now) s' = eval (get_current_user token now) s.
Proof.
  intros Hb Hu. unfold eval. rewrite !get_current_user_cases. simpl.
  rewrite (bool_decide_ext _ _ Hb). case_bool_decide; [done|].
  destruct (jwt_decode token now) as [payload|]; [|done].
  destruct (c_user_id payload) as [r|]; [|done].
  case_bool_decide; [done|]. specialize (Hu r).
  destruct (users s' !! r) as [u'|], (users s !! r) as [u|]; simpl in Hu;
    try done. injection Hu as ->. done.
Qed.


(** X8. A created reset token is valid for one hour: until then its
    validation returns the user id and keeps the store; after that it
    returns absent and evicts the token, and any later validation returns
    absent too. A token that was never created is absent. *)
Theorem reset_token_round_trip uid rnd now s now' :
  let s' := exec (create_password_reset_token uid rnd now) s in
  eval (create_password_reset_token uid rnd now) s = Return rnd ∧
  (now' ≤ now + timedelta.hours 1 →
   validate_reset_token rnd now' s' = (Return (Some uid), s')) ∧
  (now' > now + timedelta.hours 1 →
   let s'' := exec (validate_reset_token rnd now') s' in
   eval (validate_reset_token rnd now') s' = Return None ∧
   password_reset_tokens s'' = delete rnd (password_reset_tokens s) ∧
   ∀ now'', validate_reset_token rnd now'' s'' = (Return None, s'')) ∧
  (∀ t, t ≠ rnd →
     password_reset_tokens s' !! t = password_reset_tokens s !! t) ∧
  (password_reset_tokens s !! rnd = None →
   validate_reset_token rnd now' s = (Return None, s)).
Proof.
  intros s'. split_and!.
  - done.
  - intros Hle. unfold s', exec, create_password_reset_token, validate_reset_token.
    simpl. rewrite lookup_insert_eq. simpl. by rewrite bool_decide_eq_false_2 by lia.
  - intros Hgt s''.
    assert (validate_reset_token rnd now' s' =
            (Return None,
             with_password_reset_tokens (delete rnd (password_reset_tokens s')) s'))
      as Hv.
    { unfold s', exec, create_password_reset_token, validate_reset_token.
      simpl. rewrite lookup_insert_eq. simpl. by rewrite bool_decide_eq_true_2 by lia. }
    unfold s'', eval, exec. rewrite Hv. simpl. split; [done|].
    split; [by rewrite delete_insert_eq|].
    intros now''. apply validate_reset_token_unknown. simpl.
    by rewrite lookup_delete_eq.
  - intros t Ht. unfold s', exec, create_password_reset_token. simpl.
    by rewrite lookup_insert_ne.
  - apply validate_reset_token_unknown.
Qed.

End Passwords.

(** ** Deleting and deactivating users *)

Section Accounts.
Context `{Ext : External}.

Lemma delete_user_stored k u s :
  users s !! k = Some u →
  delete_user k s =
  (Return true,
   exec (cleanup_user_tokens k)
     (with_users (delete k (users s))
        (with_username_index (delete (username u) (username_index s))
           (with_email_index (delete (email u) (email_index s)) s)))).
Proof. intros Hu. unfold delete_user. by rewrite Hu. Qed.

(** X9. Deleting a stored user cascades: the user is no longer found by id,
    by email or by username in any letter case; every refresh token the
    ledger held for the user is removed and blacklisted; and the email and
    the username are free for a new registration. The user's password-reset
    tokens are not touched. Deleting a user that is not stored returns
    false and changes nothing. *)
Theorem delete_user_cascades k u s :
  reachable_safely s → users s !! k = Some u →
  let s' := exec (delete_user k) s in
  eval (delete_user k) s = Return true ∧
  get_user_by_id k s' = None ∧
  get_user_by_email (email u) s' = None ∧
  (∀ n, lower n = lower (username u) → get_user_by_username n s' = None) ∧
  (∀ t d, refresh_tokens s !! t = Some d → td_user_id d = k →
     refresh_tokens s' !! t = None ∧ t ∈ blacklisted_tokens s') ∧
  (∀ t d, refresh_tokens s' !! t = Some d → td_user_id d ≠ k) ∧
  password_reset_tokens s' = password_reset_tokens s ∧
  (∀ d hex salt now,
     uc_email d = email u → lower (uc_username d) = username u →
     ∃ u2, eval (register d hex salt now) s' = Return (response_of u2) ∧
           email u2 = email u ∧ username u2 = username u) ∧
  (∀ k', users s !! k' = None → delete_user k' s = (Return false, s)).
Proof.
  intros Hs Hu s'.
  destruct (reachable_safely_id_username s k u Hs Hu) as [_ Hlow].
  unfold s', eval, exec. rewrite (delete_user_stored k u s Hu). cbn [fst snd].
  split_and!; try done.
  - unfold get_user_by_id, users_get. simpl. by rewrite lookup_delete_eq.
  - unfold get_user_by_email. simpl. by rewrite lookup_delete_eq.
  - intros n Hn. unfold get_user_by_username. simpl.
    by rewrite Hn, Hlow, lookup_delete_eq.
  - intros t d Hd Hk. rewrite cleanup_user_tokens_ledger. simpl.
    rewrite Hd, decide_True by done. split; [done|].
    apply cleanup_user_tokens_blacklist. simpl. eauto.
  - intros t d. rewrite cleanup_user_tokens_ledger. simpl.
    destruct (refresh_tokens s !! t) as [d0|]; [|done].
    case_decide; [done|]. by intros [= <-].
  - intros d hex salt now Hde Hdn. unfold register.
    rewrite create_user_new.
    + simpl. eexists. split; [done|]. simpl. by rewrite Hde, Hdn.
    + simpl. by rewrite Hde, lookup_delete_eq.
    + simpl. by rewrite Hdn, lookup_delete_eq.
  - intros k' Hk'. unfold delete_user. by rewrite Hk'.
Qed.

(** X10. A reset token outlives its user: deleting the user leaves the
    token in place, and redeeming it afterwards is not refused as invalid
    but ends in an AttributeError (the user looked up for the log line is
    [None]), after the token has been consumed and without any user
    having been changed. *)
Theorem reset_token_of_deleted_user token d k u new_password salt now s :
  reachable_safely s → users s !! k = Some u →
  password_reset_tokens s !! token = Some d → td_user_id d = k →
  ¬ (now > td_expires_at d) →
  let s1 := exec (delete_user k) s in
  let s2 := exec (reset_password token new_password salt now) s1 in
  password_reset_tokens s1 !! token = Some d ∧
  eval (reset_password token new_password salt now) s1 =
    Raise (AttributeError "'NoneType' object has no attribute 'email'") ∧
  password_reset_tokens s2 !! token = None ∧
  users s2 = users s1.
Proof.
  intros Hs Hu Hd Hk He s1 s2.
  assert (truthy k = true) as Ht.
  { apply (reachable_users_truthy s); [by apply reachable_safely_reachable|eauto]. }
  assert (password_reset_tokens s1 !! token = Some d) as Hd1.
  { unfold s1, exec. by rewrite (delete_user_stored k u s Hu). }
  assert (users s1 !! td_user_id d = None) as Hu1.
  { unfold s1, exec. rewrite (delete_user_stored k u s Hu), Hk. simpl.
    by rewrite lookup_delete_eq. }
  split; [done|]. unfold s2, eval, exec.
  rewrite (reset_password_valid _ _ _ _ _ d) by (by rewrite ?Hk).
  rewrite Hu1. simpl. split; [done|]. by rewrite lookup_delete_eq.
Qed.

Lemma get_user_by_id_stored k u s : users s !! k = Some u → get_user_by_id k s = Some k.
Proof. intros Hu. unfold get_user_by_id, users_get. by rewrite Hu. Qed.

Lemma deactivate_user_other uid u cu c now s :
  reachable_safely s → users s !! uid = Some u → users s !! cu = Some c →
  uid ≠ cu →
  deactivate_user uid cu now s =
    (Return (message "User deactivated successfully"),
     exec (cleanup_user_tokens uid)
       (with_users (<[uid := set_updated_at now (set_is_active false u)]> (users s)) s)).
Proof.
  intros Hs Hu Hc Hne.
  destruct (reachable_safely_id_username s uid u Hs Hu) as [Hid _].
  destruct (reachable_safely_id_username s cu c Hs Hc) as [Hidc _].
  unfold deactivate_user. run_monad.
  rewrite (get_user_by_id_stored _ u) by done.
  rewrite (getattr_Some _ _ _ u) by done. simpl.
  rewrite (getattr_Some _ _ _ c) by done. simpl.
  rewrite bool_decide_eq_false_2 by congruence.
  rewrite (update_user_stored _ _ _ _ u) by done. done.
Qed.


(** X12. Reactivation restores what deactivation suspended: after
    [deactivate_user] and then [activate_user] the user is active again
    with the same id, email, username, hash and role, and every access
    token that is not one of the user's revoked refresh tokens is accepted
    or refused exactly as before the deactivation. The revoked refresh
    tokens stay blacklisted. *)
Theorem activate_after_deactivate uid u cu c now now2 s :
  reachable_safely s → users s !! uid = Some u → users s !! cu = Some c →
  uid ≠ cu → is_active u = true →
  let s' := exec (activate_user uid now2) (exec (deactivate_user uid cu now) s) in
  eval (activate_user uid now2) (exec (deactivate_user uid cu now) s) =
    Return (message "User activated successfully") ∧
  users s' !! uid = Some (set_updated_at now2 u) ∧
  (∀ token now',
     (∀ d, refresh_tokens s !! token = Some d → td_user_id d ≠ uid) →
     eval (get_current_user token now') s' =
     eval (get_current_user token now') s) ∧
  (∀ t d ops now', refresh_tokens s !! t = Some d → td_user_id d = uid →
     ∃ e, eval (refresh_token t now') (steps ops s') = Raise e ∧ InvalidToken e).
Proof.
  intros Hs Hu Hc Hne Ha s'.
  set (s1 := exec (deactivate_user uid cu now) s) in *.
  assert (users s1 = <[uid := set_updated_at now (set_is_active false u)]> (users s))
    as Hus1.
  { unfold s1, exec. by rewrite (deactivate_user_other uid u cu c). }
  assert (∀ t, t ∈ blacklisted_tokens s1 ↔
      t ∈ blacklisted_tokens s ∨
      ∃ d, refresh_tokens s !! t = Some d ∧ td_user_id d = uid) as Hbl1.
  { intros t. unfold s1, exec at 1. rewrite (deactivate_user_other uid u cu c) by done.
    cbn [snd]. by rewrite cleanup_user_tokens_blacklist. }
  assert (activate_user uid now2 s1 =
    (Return (message "User activated successfully"),
     with_users (<[uid := set_updated_at now2
                    (set_is_active true (set_updated_at now (set_is_active false u)))]>
                   (users s1)) s1)) as Hact.
  { unfold activate_user. run_monad.
    rewrite (get_user_by_id_stored _ (set_updated_at now (set_is_active false u)))
      by (by rewrite Hus1, lookup_insert_eq).
    rewrite (update_user_stored _ _ _ _ (set_updated_at now (set_is_active false u)))
      by (by rewrite Hus1, lookup_insert_eq). done. }
  assert (s' = with_users (<[uid := set_updated_at now2
                    (set_is_active true (set_updated_at now (set_is_active false u)))]>
                   (users s1)) s1) as Hs'.
  { unfold s', exec at 1. by rewrite Hact. }
  clearbody s'. subst s'. unfold eval. rewrite Hact. cbn [fst]. split_and!.
  - done.
  - simpl. rewrite lookup_insert_eq. f_equal. destruct u. simpl in *. by subst.
  - intros token now' Hnot. apply get_current_user_same.
    + simpl. rewrite Hbl1. split; [|by left]. intros [?|(d & Hd & ?)]; [done|].
      by destruct (Hnot d Hd).
    + intros r. simpl. destruct (decide (uid = r)) as [<-|Hr].
      * rewrite lookup_insert_eq, Hu. simpl. by rewrite Ha.
      * by rewrite lookup_insert_ne, Hus1, lookup_insert_ne.
  - intros t d ops now' Hd Hid.
    match goal with |- context [steps ops ?w] =>
      destruct (refresh_token_blacklisted t now' (steps ops w)) as (e & He & Hi)
    end.
    { apply (blacklist_le_steps ops). simpl. apply Hbl1. eauto. }
    exists e. unfold eval. by rewrite He.
Qed.

End Accounts.

(** ** Sessions from login to refresh *)

Section Session_flow.
Context `{Ext : External}.

(** A successful login, from [login_cases]. *)
Lemma login_success ident password now s r u :
  find_user ident s = Some r → users s !! r = Some u →
  locked_at now u = false →
  verify_password password (hashed_password u) = true →
  let u' := set_last_login (Some now)
              (set_locked_until None
                 (set_failed_login_attempts 0 (unlock_expired now u))) in
  let refresh :=
    create_token (id u, username u) REFRESH
      (Some (timedelta.days settings.REFRESH_TOKEN_EXPIRE_DAYS)) now in
  login ident password now s =
    (Return
       {| tk_access_token :=
            create_token (id u, username u) ACCESS
              (Some (timedelta.minutes settings.ACCESS_TOKEN_EXPIRE_MINUTES)) now;
          tk_refresh_token := refresh;
          tk_token_type := "bearer";
          tk_expires_in := settings.ACCESS_TOKEN_EXPIRE_MINUTES * 60;
          tk_user := response_of u' |},
     with_refresh_tokens
       (<[refresh := {| td_user_id := id u;
                        td_expires_at :=
                          now + timedelta.days settings.REFRESH_TOKEN_EXPIRE_DAYS;
                        td_created_at := now |}]> (refresh_tokens s))
       (with_users (<[r := u']> (users s)) s)).
Proof.
  intros Hf Hu Hl Hv. pose proof (login_cases ident password now s) as Hc.
  rewrite Hf in Hc. destruct Hc as (u0 & Hu0 & Hc).
  assert (u0 = u) as -> by congruence. rewrite Hl, Hv in Hc. exact Hc.
Qed.

(** X13. The refresh token of a successful login is recorded in the ledger
    for seven days: unless that very string was blacklisted before, it
    validates to the user's id up to its expiry, and is absent and evicted
    after it; a string blacklisted before the login is born unusable. The
    login blacklists nothing and leaves every other ledger entry, so
    earlier sessions stay valid. For an active user, refreshing with the
    token at a time when it decodes as a refresh token succeeds and
    returns a token pair for the same user. *)
Theorem login_token_is_valid ident password now s r u :
  reachable_safely s →
  find_user ident s = Some r → users s !! r = Some u →
  locked_at now u = false →
  verify_password password (hashed_password u) = true →
  let s' := exec (login ident password now) s in
  let refresh :=
    create_token (id u, username u) REFRESH
      (Some (timedelta.days settings.REFRESH_TOKEN_EXPIRE_DAYS)) now in
  let expiry := now + timedelta.days settings.REFRESH_TOKEN_EXPIRE_DAYS in
  (∃ tok, eval (login ident password now) s = Return tok ∧
          tk_refresh_token tok = refresh) ∧
  blacklisted_tokens s' = blacklisted_tokens s ∧
  (∀ t, t ≠ refresh → refresh_tokens s' !! t = refresh_tokens s !! t) ∧
  ((refresh ∉ blacklisted_tokens s) → ∀ now', now' ≤ expiry →
     validate_refresh_token refresh now' s' = (Return (Some r), s')) ∧
  ((refresh ∉ blacklisted_tokens s) → ∀ now', now' > expiry →
     eval (validate_refresh_token refresh now') s' = Return None ∧
     refresh_tokens (exec (validate_refresh_token refresh now') s') !! refresh = None) ∧
  (refresh ∈ blacklisted_tokens s → ∀ ops now',
     validate_refresh_token refresh now' (steps ops s') = (Return None, steps ops s')) ∧
  ((refresh ∉ blacklisted_tokens s) → is_active u = true →
   ∀ now' payload, now' ≤ expiry →
     jwt_decode refresh now' = Some payload →
     c_type payload = Some (TokenType_value REFRESH) →
     ∃ tok', eval (refresh_token refresh now') s' = Return tok' ∧
             ur_id (tk_user tok') = r).
Proof.
  intros Hs Hf Hu Hl Hv s' refresh expiry.
  destruct (reachable_safely_id_username s r u Hs Hu) as [Hid _].
  pose proof (login_success ident password now s r u Hf Hu Hl Hv) as Hlogin.
  cbv zeta in Hlogin. fold refresh expiry in Hlogin.
  assert (refresh_tokens s' !! refresh =
          Some {| td_user_id := r; td_expires_at := expiry; td_created_at := now |}) as Hled.
  { unfold s', exec. rewrite Hlogin. simpl. by rewrite lookup_insert_eq, Hid. }
  assert (blacklisted_tokens s' = blacklisted_tokens s) as Hbl.
  { unfold s', exec. by rewrite Hlogin. }
  split_and!.
  - unfold eval. rewrite Hlogin. simpl. eauto.
  - done.
  - intros t Ht. unfold s', exec. rewrite Hlogin. simpl. by rewrite lookup_insert_ne.
  - intros Hb now' Hle.
    rewrite (validate_refresh_token_valid _ _ _ _ (ltac:(by rewrite Hbl)) Hled); [done|].
    simpl. lia.
  - intros Hb now' Hgt.
    unfold eval, exec.
    rewrite (validate_refresh_token_expired _ _ _ _ (ltac:(by rewrite Hbl)) Hled)
      by (simpl; lia).
    simpl. by rewrite lookup_delete_eq.
  - intros Hb ops now'. apply blacklisted_never_valid. by rewrite Hbl.
  - intros Hb Ha now' payload Hle Hdec Hty.
    assert (users s' !! r =
            Some (set_last_login (Some now)
                    (set_locked_until None
                       (set_failed_login_attempts 0 (unlock_expired now u))))) as Hu'.
    { unfold s', exec. rewrite Hlogin. simpl. by rewrite lookup_insert_eq. }
    assert (is_active (unlock_expired now u) = true ∧ id (unlock_expired now u) = r)
      as [Ha' Hid'].
    { unfold unlock_expired. by destruct (locked_until u); try case_bool_decide. }
    unfold eval.
    rewrite (refresh_token_rotates refresh now' s' payload
               {| td_user_id := r; td_expires_at := expiry; td_created_at := now |}
               (set_last_login (Some now)
                  (set_locked_until None
                     (set_failed_login_attempts 0 (unlock_expired now u))))
               Hdec Hty).
    + simpl. eauto.
    + by rewrite Hbl.
    + done.
    + simpl. lia.
    + simpl. apply (reachable_users_truthy s);
        [by apply reachable_safely_reachable|eauto].
    + done.
    + done.
Qed.

(** X14. The refresh token a rotation returns is usable only if it is a new
    string: when the newly issued token differs from the presented one and
    was not blacklisted before, it validates to the user's id for seven
    days; when the codec issues the presented string again (same claims at
    the same clock reading), or a string blacklisted earlier, the returned
    refresh token is refused with InvalidToken from the start. *)
Theorem rotated_token_usable_iff_new s token now payload uid u :
  reachable s →
  jwt_decode token now = Some payload →
  c_type payload = Some (TokenType_value REFRESH) →
  eval (validate_refresh_token token now) s = Return (Some uid) →
  users s !! uid = Some u →
  is_active u = true →
  let s' := exec (refresh_token token now) s in
  let new :=
    create_token (id u, username u) REFRESH
      (Some (timedelta.days settings.REFRESH_TOKEN_EXPIRE_DAYS)) now in
  (new ≠ token → (new ∉ blacklisted_tokens s) →
   ∀ now', now' ≤ now + timedelta.days settings.REFRESH_TOKEN_EXPIRE_DAYS →
     validate_refresh_token new now' s' = (Return (Some (id u)), s')) ∧
  (new = token ∨ new ∈ blacklisted_tokens s →
   ∀ ops now',
     ∃ e, eval (refresh_token new now') (steps ops s') = Raise e ∧ InvalidToken e).
Proof.
  intros Hs Hdec Hty Hv Hu Ha s' new.
  apply validate_refresh_token_Some in Hv as (Hb & d & Hd & He & <-).
  assert (truthy (td_user_id d) = true) as Ht
    by (apply (reachable_users_truthy s); eauto).
  pose proof (refresh_token_rotates token now s payload d u
                Hdec Hty Hb Hd He Ht Hu Ha) as Hr.
  assert (s' = (rotated token u now s).2) as Hs' by (unfold s', exec; by rewrite Hr).
  split.
  - intros Hne Hnb now' Hle. rewrite Hs'.
    apply (validate_refresh_token_valid _ _ _
             {| td_user_id := id u;
                td_expires_at := now + timedelta.days settings.REFRESH_TOKEN_EXPIRE_DAYS;
                td_created_at := now |}).
    + simpl. fold new. set_solver.
    + simpl. fold new. by rewrite lookup_insert_eq.
    + simpl. lia.
  - intros Hor ops now'.
    destruct (refresh_token_blacklisted new now' (steps ops s')) as (e & He' & Hi).
    { apply (blacklist_le_steps ops). rewrite Hs'. simpl.
      destruct Hor as [->|?]; set_solver. }
    exists e. unfold eval. by rewrite He'.
Qed.

End Session_flow.

(** ** Statistics *)

Section Statistics.
Context `{Ext : External}.

Lemma store_eq s1 s2 :
  users s1 = users s2 → email_index s1 = email_index s2 →
  username_index s1 = username_index s2 → refresh_tokens s1 = refresh_tokens s2 →
  blacklisted_tokens s1 = blacklisted_tokens s2 →
  password_reset_tokens s1 = password_reset_tokens s2 → s1 = s2.
Proof. destruct s1, s2; simpl; intros; by subst. Qed.

Lemma unlock_expired_idempotent now u :
  unlock_expired now (unlock_expired now u) = unlock_expired now u.
Proof.
  unfold unlock_expired. destruct (locked_until u) eqn:Hl; simpl.
  - case_bool_decide; simpl; [|done]. rewrite Hl. by rewrite bool_decide_true.
  - by rewrite Hl.
Qed.

Lemma locked_at_unlock_expired now u :
  locked_at now (unlock_expired now u) = locked_at now u.
Proof.
  unfold locked_at, unlock_expired. destruct (locked_until u) eqn:Hl; simpl.
  - case_bool_decide as Hlt; simpl; [|done]. rewrite Hl. by rewrite bool_decide_true.
  - by rewrite Hl.
Qed.

Lemma unlock_expired_not_locked now u lu :
  locked_until (unlock_expired now u) = Some lu → now < lu.
Proof.
  unfold unlock_expired. destruct (locked_until u) eqn:Hl; simpl.
  - case_bool_decide; simpl; [|done]. rewrite Hl. by intros [= ->].
  - by rewrite Hl.
Qed.

Lemma unlock_expired_same_user now u : same_user u (unlock_expired now u).
Proof.
  unfold unlock_expired, same_user.
  destruct (locked_until u); [case_bool_decide|]; done.
Qed.

(** One call of [is_user_locked] unlocks the user it is given, if the lock
    has run out. *)
Lemma is_user_locked_alter r now s :
  is_user_locked r now s =
  (Return (match users s !! r with Some u => locked_at now u | None => false end),
   with_users (alter (unlock_expired now) r (users s)) s).
Proof.
  unfold is_user_locked, locked_at.
  destruct (users s !! r) as [u|] eqn:Hu.
  - assert (alter (unlock_expired now) r (users s)
            = <[r := unlock_expired now u]> (users s)) as ->.
    { apply map_eq. intros k. destruct (decide (k = r)) as [->|].
      - by rewrite lookup_alter_eq, lookup_insert_eq, Hu.
      - by rewrite lookup_alter_ne, lookup_insert_ne. }
    unfold unlock_expired. destruct (locked_until u); [case_bool_decide|]; f_equal;
      try done; apply store_eq; simpl; try done; by rewrite insert_id.
  - f_equal. apply store_eq; simpl; try done.
    apply map_eq. intros k. destruct (decide (k = r)) as [->|].
    + by rewrite lookup_alter_eq, Hu.
    + by rewrite lookup_alter_ne.
Qed.

Lemma count_locked_run now l : ∀ s,
  ∃ s', count_locked now l s =
          (Return (length (filter (λ k, locked_at now <$> users s !! k = Some true) l)),
           s') ∧
        (∀ k, users s' !! k =
              if decide (k ∈ l) then unlock_expired now <$> users s !! k
              else users s !! k) ∧
        email_index s' = email_index s ∧ username_index s' = username_index s ∧
        refresh_tokens s' = refresh_tokens s ∧
        blacklisted_tokens s' = blacklisted_tokens s ∧
        password_reset_tokens s' = password_reset_tokens s.
Proof.
  induction l as [|a l IH]; intros s.
  - exists s. split_and!; try done.
  - set (s1 := with_users (alter (unlock_expired now) a (users s)) s).
    destruct (IH s1) as (s' & Hrun & Hus & ? & ? & ? & ? & ?).
    assert (∀ k, locked_at now <$> users s1 !! k = locked_at now <$> users s !! k) as Hla.
    { intros k. unfold s1. simpl. destruct (decide (k = a)) as [->|].
      - rewrite lookup_alter_eq. destruct (users s !! a); simpl; [|done].
        by rewrite locked_at_unlock_expired.
      - by rewrite lookup_alter_ne. }
    exists s'. split_and!; try done.
    + simpl. run_monad. rewrite is_user_locked_alter. fold s1. rewrite Hrun. simpl.
      rewrite (list_filter_iff _ (λ k, locked_at now <$> users s !! k = Some true))
        by (intros k; by rewrite Hla).
      rewrite filter_cons.
      destruct (users s !! a) as [u|] eqn:Hu; simpl.
      * destruct (locked_at now u) eqn:Hlk.
        -- by rewrite decide_True by done.
        -- by rewrite decide_False by done.
      * done.
    + intros k. rewrite Hus. unfold s1. simpl.
      destruct (decide (k = a)) as [->|Hne].
      * rewrite lookup_alter_eq, (decide_True (P := a ∈ a :: l)) by set_solver.
        destruct (decide (a ∈ l)); [|done].
        destruct (users s !! a); simpl; [|done]. by rewrite unlock_expired_idempotent.
      * rewrite lookup_alter_ne by done.
        destruct (decide (k ∈ l)).
        -- by rewrite decide_True by set_solver.
        -- by rewrite decide_False by set_solver.
Qed.

Lemma size_filter_locked now (m : gmap string UserInDB) :
  size (filter (λ kv, locked_at now kv.2 = true) m) =
  length (filter (λ k, locked_at now <$> m !! k = Some true) (map_to_list m).*1).
Proof.
  rewrite map_filter_alt, map_size_list_to_map.
  - assert (Forall (λ kv, m !! kv.1 = Some kv.2) (map_to_list m)) as Hall.
    { apply Forall_forall. intros [k x]. by rewrite elem_of_map_to_list. }
    induction (map_to_list m) as [|[k x] l IH]; [done|].
    apply Forall_cons in Hall as [Hk Hall]. simpl in Hk.
    rewrite fmap_cons, !filter_cons. simpl. rewrite Hk. simpl.
    destruct (locked_at now x).
    + rewrite !decide_True by done. simpl. by rewrite IH.
    + rewrite !decide_False by done. by rewrite IH.
  - eapply sublist_NoDup; [apply (NoDup_fst_map_to_list m)|].
    apply fmap_sublist, sublist_filter.
Qed.

(** X15. The report of [get_stats] counts as locked exactly the users that
    [is_user_locked] answers for when it is called on them in turn, in any
    order of the users, and the store [get_stats] leaves is the one these
    calls leave: every lock that has run out is cleared and its failure
    counter reset, so a read of the statistics writes to the user records.
    Afterwards no stored user carries a lock that is past; the directory,
    the ledger, the blacklist and the reset tokens are untouched; a second
    report at the same time changes nothing and answers the same; and the
    active and the locked users are each at most the total. The health
    check, which asks for no credentials, leaves this same store. *)
Theorem get_stats_unlocks_expired now s user_ids :
  user_ids ≡ₚ (map_to_list (users s)).*1 →
  let s' := exec (get_stats now) s in
  (∃ st, get_stats now s = (Return st, s') ∧
         count_locked now user_ids s = (Return (locked_users st), s') ∧
         (active_users st ≤ total_users st)%nat ∧
         (locked_users st ≤ total_users st)%nat) ∧
  (∀ k, users s' !! k = unlock_expired now <$> users s !! k) ∧
  (∀ k u lu, users s' !! k = Some u → locked_until u = Some lu → now < lu) ∧
  same_directory s s' ∧
  refresh_tokens s' = refresh_tokens s ∧
  blacklisted_tokens s' = blacklisted_tokens s ∧
  password_reset_tokens s' = password_reset_tokens s ∧
  get_stats now s' = (eval (get_stats now) s, s') ∧
  step (Get_health now) s = s'.
Proof.
  intros Hperm s'.
  assert (∀ k, users s' !! k = unlock_expired now <$> users s !! k) as Hus.
  { intros k. unfold s', exec, get_stats. simpl. by rewrite lookup_fmap. }
  split_and!; try done.
  - eexists. split; [done|]. simpl. split_and!.
    + destruct (count_locked_run now user_ids s) as (s1 & Hrun & Hu1 & ? & ? & ? & ? & ?).
      rewrite Hrun. f_equal.
      * f_equal. rewrite size_filter_locked. by rewrite Hperm.
      * apply store_eq; try done. apply map_eq. intros k.
        rewrite Hu1, Hus. destruct (decide (k ∈ user_ids)) as [|Hn]; [done|].
        destruct (users s !! k) as [u|] eqn:Hk; [|done].
        destruct Hn. rewrite Hperm. apply list_elem_of_fmap. exists (k, u).
        split; [done|]. by apply elem_of_map_to_list.
    + apply map_size_filter.
    + apply map_size_filter.
  - intros k u lu. rewrite Hus. destruct (users s !! k) as [v|]; simpl; [|done].
    intros [= <-]. apply unlock_expired_not_locked.
  - split_and!; try done. intros k. rewrite Hus.
    destruct (users s !! k); constructor. apply unlock_expired_same_user.
  - unfold s', exec, eval, get_stats. simpl. f_equal.
    + f_equal. f_equal.
      * by rewrite map_size_fmap.
      * rewrite map_filter_fmap, map_size_fmap. f_equal.
        apply map_filter_ext. intros k u _. simpl.
        unfold unlock_expired. by destruct (locked_until u); [case_bool_decide|].
      * rewrite map_filter_fmap, map_size_fmap. f_equal.
        apply map_filter_ext. intros k u _. simpl.
        by rewrite locked_at_unlock_expired.
    + apply store_eq; simpl; try done. rewrite <- map_fmap_compose.
      apply map_fmap_ext. intros k u _. simpl. apply unlock_expired_idempotent.
Qed.

End Statistics.

(** ** Recovery of a locked account *)

Section Recovery.
Context `{Ext : External}.

(** X16. A password reset lifts a lockout. Redeeming a live reset token
    of a stored user answers "Password reset successfully", stores the new
    hash, zeroes the failure counter and clears the lock whatever time it ran
    to, and blacklists the user's refresh tokens. If the hasher verifies the
    new password against its own hash, a login with it succeeds at any time
    from then on, also inside the lockout window that was running; a password
    the new hash does not verify is answered with bad credentials. *)
Theorem reset_password_unlocks token d u ident new_password salt now s :
  reachable s →
  password_reset_tokens s !! token = Some d → ¬ (now > td_expires_at d) →
  users s !! td_user_id d = Some u →
  find_user ident s = Some (td_user_id d) →
  verify_password new_password (get_password_hash salt new_password) = true →
  let s' := exec (reset_password token new_password salt now) s in
  eval (reset_password token new_password salt now) s =
    Return (message "Password reset successfully") ∧
  users s' !! td_user_id d =
    Some (set_updated_at now
            (set_locked_until None
               (set_failed_login_attempts 0
                  (set_hashed_password (get_password_hash salt new_password) u)))) ∧
  (∀ t d', refresh_tokens s !! t = Some d' → td_user_id d' = td_user_id d →
     t ∈ blacklisted_tokens s' ∧ refresh_tokens s' !! t = None) ∧
  (∀ now', ∃ tok, eval (login ident new_password now') s' = Return tok ∧
                  ur_email (tk_user tok) = email u ∧
                  ur_last_login (tk_user tok) = Some now') ∧
  (∀ password now',
     verify_password password (get_password_hash salt new_password) = false →
     eval (login ident password now') s' = Raise bad_credentials).
Proof.
  intros Hs Hd He Hu Hf Hv s'.
  assert (truthy (td_user_id d) = true) as Ht
    by (apply (reachable_users_truthy s); eauto).
  pose proof (reset_password_valid token new_password salt now s d Hd He Ht) as Hr.
  rewrite Hu in Hr.
  set (u' := set_updated_at now
               (set_locked_until None
                  (set_failed_login_attempts 0
                     (set_hashed_password (get_password_hash salt new_password) u)))).
  assert (users s' !! td_user_id d = Some u') as Hu'.
  { unfold s', exec. rewrite Hr. unfold cleanup_user_tokens, modify. simpl.
    by rewrite lookup_insert_eq. }
  assert (find_user ident s' = Some (td_user_id d)) as Hf'.
  { rewrite <- Hf. apply same_directory_find_user.
    pose proof (same_directory_run (Post_reset_password token new_password salt now) I s)
      as Hsd.
    simpl in Hsd. fold (exec (void (reset_password token new_password salt now)) s) in Hsd.
    by rewrite exec_void in Hsd. }
  split_and!.
  - unfold eval. by rewrite Hr.
  - done.
  - intros t d' Ht' Hid. unfold s'. unfold exec at 1 2. rewrite Hr. cbn [snd].
    unfold with_password_reset_tokens. cbn [blacklisted_tokens refresh_tokens].
    split.
    + apply cleanup_user_tokens_blacklist. right. simpl. eauto.
    + rewrite cleanup_user_tokens_ledger. simpl. rewrite Ht'. by rewrite decide_True.
  - intros now'.
    pose proof (login_success ident new_password now' s' (td_user_id d) u' Hf' Hu') as Hl.
    unfold eval. rewrite Hl; [simpl; eauto|done|done].
  - intros password now' Hw.
    pose proof (login_cases ident password now' s') as Hc.
    rewrite Hf' in Hc. destruct Hc as (u0 & Hu0 & Hc).
    assert (u0 = u') as -> by congruence.
    change (locked_at now' u') with false in Hc.
    change (hashed_password u') with (get_password_hash salt new_password) in Hc.
    rewrite Hw in Hc. unfold eval. by rewrite Hc.
Qed.

End Recovery.

(** ** The profile *)

Section Profile.
Context `{Ext : External}.

(** X17. Updating the profile: without a full name the route answers and
    writes nothing, not even the modification time. With one (the empty
    string included) it changes, in the caller's own record, the full name
    and the modification time and nothing else; every other user, the
    indices, the ledger, the blacklist and the reset tokens stay as they
    were, and the profile read afterwards shows the new full name with every
    other field as before. *)
Theorem update_profile_effects cu u now s :
  reachable_safely s → users s !! cu = Some u →
  update_profile None cu now s =
    (Return (message "Profile updated successfully"), s) ∧
  ∀ v,
    let s' := exec (update_profile (Some v) cu now) s in
    eval (update_profile (Some v) cu now) s =
      Return (message "Profile updated successfully") ∧
    users s' !! cu = Some (set_updated_at now (set_full_name (Some v) u)) ∧
    (∀ k, k ≠ cu → users s' !! k = users s !! k) ∧
    email_index s' = email_index s ∧ username_index s' = username_index s ∧
    refresh_tokens s' = refresh_tokens s ∧
    blacklisted_tokens s' = blacklisted_tokens s ∧
    password_reset_tokens s' = password_reset_tokens s ∧
    eval (get_current_user_profile cu) s' =
      Return {| ur_id := cu; ur_email := email u; ur_username := username u;
                ur_full_name := Some v; ur_role := role u;
                ur_is_active := is_active u; ur_created_at := created_at u;
                ur_last_login := last_login u |}.
Proof.
  intros Hs Hu. split; [done|]. intros v s'.
  destruct (reachable_safely_id_username s cu u Hs Hu) as [Hid _].
  assert (update_profile (Some v) cu now s =
          (Return (message "Profile updated successfully"),
           with_users (<[cu := set_updated_at now (set_full_name (Some v) u)]>
                         (users s)) s)) as Hr.
  { unfold update_profile. run_monad. rewrite (getattr_Some _ _ _ _ Hu), Hid.
    by rewrite (update_user_stored _ _ _ _ _ Hu). }
  unfold s', eval, exec. rewrite Hr. simpl. split_and!; try done.
  - by rewrite lookup_insert_eq.
  - intros k Hk. by rewrite lookup_insert_ne.
  - unfold get_current_user_profile, user_response, getattr. simpl.
    rewrite lookup_insert_eq. simpl. unfold response_of. simpl. by rewrite Hid.
Qed.

End Profile.

(** ** The dependencies of the protected routes *)

Section Guards.
Context `{Ext : External}.

(** X18. The active-user dependency adds nothing to [get_current_user]: the
    two agree on every token, time and store, because an inactive user is
    already turned away with 403 by [get_current_user]; the 400 "Inactive
    user" of [get_current_active_user] is never raised. *)
Theorem get_current_active_user_redundant token now s :
  get_current_active_user token now s = get_current_user token now s ∧
  eval (get_current_active_user token now) s ≠
    Raise (HTTPException 400 "Inactive user").
Proof.
  assert (get_current_active_user token now s = get_current_user token now s) as Heq.
  { unfold get_current_active_user, mbind, M_bind, bind.
    rewrite get_current_user_cases.
    destruct (bool_decide (token ∈ blacklisted_tokens s)); [done|].
    destruct (jwt_decode token now) as [c|]; [|done].
    destruct (c_user_id c) as [r|]; [|done].
    destruct (bool_decide (c_type c ≠ Some (TokenType_value ACCESS))); [done|].
    destruct (users s !! r) as [u|] eqn:Hu; [|done].
    destruct (is_active u) eqn:Ha; [|done].
    rewrite (getattr_Some _ _ _ _ Hu). by rewrite Ha. }
  split; [done|]. unfold eval. rewrite Heq, get_current_user_cases. simpl.
  repeat (case_bool_decide || case_match); done.
Qed.

Lemma get_admin_user_cases token now s :
  get_admin_user token now s =
  (match eval (get_current_user token now) s with
   | Return r =>
       match users s !! r with
       | Some u =>
           match role u with
           | ADMIN => Return r
           | _ => Raise (HTTPException 403 "Not enough permissions")
           end
       | None => Raise (AttributeError "'NoneType' object has no attribute")
       end
   | Raise e => Raise e
   end, s).
Proof.
  unfold get_admin_user, eval, mbind, M_bind, bind.
  rewrite get_current_user_cases. cbn [fst].
  destruct (bool_decide (token ∈ blacklisted_tokens s)); [done|].
  destruct (jwt_decode token now) as [c|]; [|done].
  destruct (c_user_id c) as [r|]; [|done].
  destruct (bool_decide (c_type c ≠ Some (TokenType_value ACCESS))); [done|].
  destruct (users s !! r) as [u|] eqn:Hu; [|done].
  destruct (is_active u) eqn:Ha; [|done].
  rewrite (getattr_Some _ _ _ _ Hu), Hu. by destruct (role u).
Qed.

(** X19. The administrator guard: [get_admin_user] never changes the store;
    it returns a user exactly when [get_current_user] returns that user and
    the stored role is ADMIN, and answers 403 "Not enough permissions" for
    an authenticated user of any other role. When the guard fails, the four
    administrator routes leave the store as it was: no user is listed,
    activated or deactivated, and the statistics are not taken, so no expired
    lock is cleared. *)
Theorem admin_routes_guarded token now s :
  exec (get_admin_user token now) s = s ∧
  (∀ r, eval (get_admin_user token now) s = Return r ↔
     eval (get_current_user token now) s = Return r ∧
     ∃ u, users s !! r = Some u ∧ role u = ADMIN) ∧
  (∀ r u, eval (get_current_user token now) s = Return r →
     users s !! r = Some u → role u ≠ ADMIN →
     eval (get_admin_user token now) s =
       Raise (HTTPException 403 "Not enough permissions")) ∧
  (∀ e, eval (get_admin_user token now) s = Raise e →
     ∀ skip limit uid,
       step (Get_admin_users skip limit token now) s = s ∧
       step (Get_admin_stats token now) s = s ∧
       step (Put_activate uid token now) s = s ∧
       step (Put_deactivate uid token now) s = s).
Proof.
  pose proof (get_admin_user_cases token now s) as Hc.
  split_and!.
  - unfold exec. by rewrite Hc.
  - intros r. unfold eval at 1. rewrite Hc. simpl.
    destruct (eval (get_current_user token now) s) as [r'|e];
      [|split; [done|by intros [? _]]].
    destruct (users s !! r') as [u|] eqn:Hu;
      [|split; [done|intros [[= ->] (u' & Hu' & _)]; congruence]].
    destruct (role u) eqn:Hro;
      (split; [intros [= ->]; eauto|intros [[= ->] (u' & Hu' & Hr')]; congruence]).
  - intros r u Hr Hu Hro. unfold eval at 1. rewrite Hc, Hr, Hu. simpl.
    by destruct (role u).
  - intros e He skip limit uid.
    assert (get_admin_user token now s = (Raise e, s)) as Hg.
    { unfold eval in He. rewrite Hc in He |- *. simpl in He. by rewrite He. }
    unfold step, exec, run, void. run_monad. by rewrite Hg.
Qed.

End Guards.

(** ** Listing the users *)

Section Listing.
Context `{Ext : External}.

Lemma slice_sublist {A} start stop (l : list A) : slice start stop l `sublist_of` l.
Proof. unfold slice. etrans; [apply sublist_take|apply sublist_drop]. Qed.

Lemma take_min_length {A} n (l : list A) : take (n `min` length l) l = take n l.
Proof.
  destruct (decide (n ≤ length l)%nat).
  - by rewrite Nat.min_l.
  - rewrite Nat.min_r, !take_ge by lia. done.
Qed.

(** A slice with a non-negative offset and length. *)
Lemma slice_nonneg {A} skip limit (l : list A) :
  0 ≤ skip → 0 ≤ limit →
  slice skip (skip + limit) l = take (Z.to_nat limit) (drop (Z.to_nat skip) l).
Proof.
  intros Hs Hl. unfold slice, slice_index.
  rewrite !bool_decide_eq_false_2 by lia.
  rewrite Z2Nat.inj_add by done.
  destruct (decide (length l ≤ Z.to_nat skip)%nat).
  - rewrite Nat.min_r by lia. by rewrite !drop_ge, !take_nil by lia.
  - rewrite (Nat.min_l (Z.to_nat skip)) by lia.
    rewrite <- (take_min_length (Z.to_nat limit)), length_drop. f_equal. lia.
Qed.

(** The values of a dictionary, in the order of an enumeration of its keys. *)
Lemma omap_lookup_keys {A} (m : gmap string A) :
  omap (λ k, m !! k) (map_to_list m).*1 = (map_to_list m).*2.
Proof.
  assert (Forall (λ kv, m !! kv.1 = Some kv.2) (map_to_list m)) as Hall.
  { apply Forall_forall. intros [k x]. by rewrite elem_of_map_to_list. }
  induction Hall as [|[k x] l Hk _ IH]; [done|].
  csimpl in *. rewrite Hk. csimpl. by rewrite IH.
Qed.

Lemma omap_lookup_total {A B} (f : A → option B) (l : list A) i :
  Forall (λ k, is_Some (f k)) l → omap f l !! i = l !! i ≫= f.
Proof.
  intros Hall. revert i. induction Hall as [|k l [x Hk] _ IH]; intros i; [done|].
  csimpl. rewrite Hk. destruct i as [|i]; csimpl; [done|]. apply IH.
Qed.

(** X20. Listing the users, whatever the order in which the dictionary
    enumerates them: the store is not changed; every entry of the page is
    the public view of a stored user, and in a store reached by safe
    operations no id is listed twice, for every offset and limit, negative
    ones included. For a non-negative offset and limit the page holds the
    smaller of the limit and the number of users past the offset, its
    entries are the users at the positions of the enumeration from the
    offset on, a page from offset zero that is as long as the store holds
    every user, and two consecutive pages add up to the page that spans
    them. *)
Theorem list_users_pages user_ids skip limit s :
  user_ids ≡ₚ (map_to_list (users s)).*1 →
  exec (list_users user_ids skip limit) s = s ∧
  ∃ page, eval (list_users user_ids skip limit) s = Return page ∧
    (∀ r, r ∈ page → ∃ k u, users s !! k = Some u ∧ r = response_of u) ∧
    (reachable_safely s → NoDup (ur_id <$> page)) ∧
    (0 ≤ skip → 0 ≤ limit →
     length page = (Z.to_nat limit `min` (size (users s) - Z.to_nat skip))%nat ∧
     (∀ i, (i < Z.to_nat limit)%nat →
        page !! i =
          user_ids !! (Z.to_nat skip + i)%nat ≫= λ k, response_of <$> users s !! k) ∧
     (skip = 0 → Z.of_nat (size (users s)) ≤ limit →
      ∀ k u, users s !! k = Some u → response_of u ∈ page) ∧
     (∀ limit' page', 0 ≤ limit' →
        eval (list_users user_ids (skip + limit) limit') s = Return page' →
        eval (list_users user_ids skip (limit + limit')) s = Return (page ++ page'))).
Proof.
  intros Hperm. split; [done|]. eexists. split; [done|].
  set (l := omap (λ k, users s !! k) user_ids).
  assert (l ≡ₚ (map_to_list (users s)).*2) as Hl.
  { unfold l. by rewrite Hperm, omap_lookup_keys. }
  assert (Forall (λ k, is_Some (users s !! k)) user_ids) as Hstored.
  { apply Forall_forall. intros k. rewrite Hperm.
    intros ([k' u] & -> & Hin%elem_of_map_to_list)%list_elem_of_fmap. eauto. }
  assert (length l = size (users s)) as Hlen
    by (rewrite Hl; by rewrite length_fmap, length_map_to_list).
  split_and!.
  - intros r (u & -> & Hin)%list_elem_of_fmap.
    apply (λ H, elem_of_sublist _ _ _ H (slice_sublist _ _ _)) in Hin.
    rewrite Hl in Hin. apply list_elem_of_fmap in Hin as ([k u'] & -> & Hin).
    apply elem_of_map_to_list in Hin. eauto.
  - intros Hs. rewrite <- list_fmap_compose.
    eapply sublist_NoDup; [|apply fmap_sublist, slice_sublist].
    fold l. rewrite Hl.
    assert ((ur_id ∘ response_of) <$> (map_to_list (users s)).*2
            = (map_to_list (users s)).*1) as ->.
    { rewrite <- list_fmap_compose. apply Forall_fmap_ext_1.
      apply Forall_forall. intros [k u] Hin%elem_of_map_to_list. simpl.
      by destruct (reachable_safely_id_username s k u Hs Hin) as [-> _]. }
    apply NoDup_fst_map_to_list.
  - intros Hskip Hlimit. fold l. rewrite (slice_nonneg skip limit) by done.
    split_and!.
    + rewrite length_fmap, length_take, length_drop. lia.
    + intros i Hi. rewrite list_lookup_fmap, lookup_take_lt, lookup_drop by done.
      unfold l. rewrite omap_lookup_total by done.
      by destruct (user_ids !! (Z.to_nat skip + i)%nat).
    + intros -> Hle k u Hu. apply list_elem_of_fmap. exists u. split; [done|].
      rewrite drop_0, take_ge by lia. rewrite Hl.
      apply list_elem_of_fmap. exists (k, u). split; [done|].
      by apply elem_of_map_to_list.
    + intros limit' page' Hlimit' [= <-]. unfold eval, list_users, gets. simpl. f_equal.
      fold l. rewrite <- fmap_app. f_equal.
      rewrite (slice_nonneg (skip + limit) limit') by lia.
      rewrite (slice_nonneg skip (limit + limit')) by lia.
      rewrite !Z2Nat.inj_add by lia.
      by rewrite <- take_take_drop, drop_drop.
Qed.

End Listing.

(** ** Deleting one's own account *)

Section Account_deletion.
Context `{Ext : External}.

(** X21. Deleting one's own account, in a store reached by safe
    operations: the route answers "Account deleted successfully" and its 500
    "Failed to delete account" is never raised, because the id read from the
    caller's record is the key the record is stored under. The store it
    leaves is that of blacklisting the access token and then deleting the
    user: the caller is gone, every other user is kept, the blacklist gains
    the access token and the caller's refresh tokens and nothing else, and
    the access token is refused as revoked from then on. *)
Theorem delete_account_effects cu u token s :
  reachable_safely s → users s !! cu = Some u →
  let s' := exec (delete_account cu token) s in
  eval (delete_account cu token) s =
    Return (message "Account deleted successfully") ∧
  s' = exec (delete_user cu) (exec (blacklist_token token) s) ∧
  users s' !! cu = None ∧
  (∀ k, k ≠ cu → users s' !! k = users s !! k) ∧
  (∀ t, t ∈ blacklisted_tokens s' ↔
     t = token ∨ t ∈ blacklisted_tokens s ∨
     ∃ d, refresh_tokens s !! t = Some d ∧ td_user_id d = cu) ∧
  (∀ ops now,
     eval (get_current_user token now) (steps ops s') =
       Raise (HTTPException 401 "Token has been revoked")).
Proof.
  intros Hs Hu s'.
  destruct (reachable_safely_id_username s cu u Hs Hu) as [Hid _].
  assert (users (exec (blacklist_token token) s) !! cu = Some u) as Hu1 by done.
  assert (delete_account cu token s =
          (Return (message "Account deleted successfully"),
           exec (delete_user cu) (exec (blacklist_token token) s))) as Hd.
  { unfold delete_account. run_monad. rewrite (getattr_Some _ _ _ u) by exact Hu.
    rewrite Hid.
    change (with_blacklisted_tokens ({[token]} ∪ blacklisted_tokens s) s)
      with (exec (blacklist_token token) s).
    by rewrite delete_user_exec, Hu1, (delete_user_stored _ _ _ Hu1). }
  assert (s' = exec (delete_user cu) (exec (blacklist_token token) s)) as Hs'
    by (unfold s', exec at 1; by rewrite Hd).
  assert (∀ t, t ∈ blacklisted_tokens s' ↔
     t = token ∨ t ∈ blacklisted_tokens s ∨
     ∃ d, refresh_tokens s !! t = Some d ∧ td_user_id d = cu) as Hbl.
  { intros t. rewrite Hs', delete_user_exec, Hu1.
    rewrite cleanup_user_tokens_blacklist. simpl.
    rewrite elem_of_union, elem_of_singleton. tauto. }
  split_and!; try done.
  - unfold eval. by rewrite Hd.
  - rewrite Hs', delete_user_exec, Hu1. unfold exec, cleanup_user_tokens, modify. simpl.
    by rewrite lookup_delete_eq.
  - intros k Hk. rewrite Hs', delete_user_exec, Hu1.
    unfold exec, cleanup_user_tokens, modify. simpl. by rewrite lookup_delete_ne.
  - intros ops now. unfold eval. rewrite get_current_user_blacklisted; [done|].
    apply (blacklist_le_steps ops). apply Hbl. by left.
Qed.

End Account_deletion.

(** ** Instances of the properties on the sample store *)

Section Further_examples.
#[local] Existing Instance Sample.ext.
#[local] Existing Instance Sample.val.

Local Ltac safely ops :=
  apply (reachable_safely_steps ops); [constructor|];
  cbv [all_safe directory_safe]; split_and!; by_compute.

Lemma register_then_login_witness :
  ∃ tok,
    eval (login "BOB" "Passw0rd" 2000)
      (exec (register Sample.bob "b0b" "salt1" 1500) Sample.s0) = Return tok ∧
    ur_id (tk_user tok) = "user-b0b".
Proof.
  assert (email_index Sample.s0 !! uc_email Sample.bob = None) as H1 by by_compute.
  assert (username_index Sample.s0 !! lower (uc_username Sample.bob) = None) as H2
    by by_compute.
  assert (pwd_verify (uc_password Sample.bob)
            (pwd_hash "salt1" (uc_password Sample.bob)) = true) as H3 by by_compute.
  destruct (register_then_login Sample.bob "b0b" "salt1" 1500 Sample.s0 "BOB" 2000
              H1 H2 H3) as (tok & Htok & Hid & _).
  - right. split; by_compute.
  - exists tok. split; [exact Htok|exact Hid].
Defined.

Lemma logout_revokes_session_family_witness :
  let s := steps [Post_login "admin" "Admin123!" 2000] Sample.s0 in
  let s' := exec (logout "admin-001" Sample.admin_access_token) s in
  eval (get_current_user Sample.admin_access_token 3000) s' =
    Raise (HTTPException 401 "Token has been revoked") ∧
  ∃ e, eval (refresh_token Sample.admin_refresh_token 3000) s' = Raise e ∧
       InvalidToken e.
Proof.
  intros s s'.
  destruct (logout_revokes_session_family "admin-001" (Sample.stored "admin-001" s)
              Sample.admin_access_token s) as (_ & _ & _ & _ & Hacc & Href).
  - by_compute.
  - split; [exact (Hacc [] 3000)|].
    apply (Href Sample.admin_refresh_token
             {| td_user_id := "admin-001"; td_expires_at := 604800002000;
                td_created_at := 2000 |} [] 3000); by_compute.
Defined.

Lemma stored_user_is_found_witness :
  get_user_by_username "BOB" Sample.s1 = Some "user-b0b" ∧
  get_user_by_email "Bob@x.com" Sample.s1 = Some "user-b0b".
Proof.
  destruct (stored_user_is_found Sample.s1 "user-b0b" (Sample.stored "user-b0b" Sample.s1))
    as (_ & _ & _ & Hemail & Hname & _).
  - safely [Post_register Sample.bob "b0b" "salt1" 1500].
  - by_compute.
  - split; [apply Hname; by_compute|exact Hemail].
Defined.


Lemma delete_user_cascades_witness :
  let s' := exec (delete_user "user-b0b") Sample.s1 in
  eval (delete_user "user-b0b") Sample.s1 = Return true ∧
  get_user_by_id "user-b0b" s' = None ∧
  get_user_by_email "Bob@x.com" s' = None ∧
  get_user_by_username "Bob" s' = None.
Proof.
  intros s'.
  destruct (delete_user_cascades "user-b0b" (Sample.stored "user-b0b" Sample.s1) Sample.s1)
    as (Hret & Hid & Hemail & Hname & _).
  - safely [Post_register Sample.bob "b0b" "salt1" 1500].
  - by_compute.
  - split_and!; [exact Hret|exact Hid|exact Hemail|apply Hname; by_compute].
Defined.

Lemma reset_token_of_deleted_user_witness :
  let s := step (Post_request_password_reset "Bob@x.com" "rst" 2000) Sample.s1 in
  let s1 := exec (delete_user "user-b0b") s in
  eval (reset_password "rst" "NewPassw0rd1" "salt9" 3000) s1 =
    Raise (AttributeError "'NoneType' object has no attribute 'email'") ∧
  password_reset_tokens
    (exec (reset_password "rst" "NewPassw0rd1" "salt9" 3000) s1) !! "rst" = None.
Proof.
  intros s s1.
  destruct (reset_token_of_deleted_user "rst" (Sample.recorded "rst" s) "user-b0b"
              (Sample.stored "user-b0b" s) "NewPassw0rd1" "salt9" 3000 s)
    as (_ & Hraise & Hgone & _).
  - safely [Post_register Sample.bob "b0b" "salt1" 1500;
            Post_request_password_reset "Bob@x.com" "rst" 2000].
  - by_compute.
  - by_compute.
  - by_compute.
  - by_compute.
  - split; [exact Hraise|exact Hgone].
Defined.


Lemma activate_after_deactivate_witness :
  let s' := exec (activate_user "user-b0b" 2600)
              (exec (deactivate_user "user-b0b" "admin-001" 2500) Sample.s1) in
  users s' !! "user-b0b" =
    Some (set_updated_at 2600 (Sample.stored "user-b0b" Sample.s1)).
Proof.
  intros s'.
  destruct (activate_after_deactivate "user-b0b" (Sample.stored "user-b0b" Sample.s1)
              "admin-001" (Sample.stored "admin-001" Sample.s1) 2500 2600 Sample.s1)
    as (_ & Hu & _).
  - safely [Post_register Sample.bob "b0b" "salt1" 1500].
  - by_compute.
  - by_compute.
  - by_compute.
  - by_compute.
  - exact Hu.
Defined.

Lemma login_token_is_valid_witness :
  let s' := exec (login "admin" "Admin123!" 2000) Sample.s0 in
  validate_refresh_token Sample.admin_refresh_token 3000 s' =
    (Return (Some "admin-001"), s').
Proof.
  intros s'.
  destruct (login_token_is_valid "admin" "Admin123!" 2000 Sample.s0 "admin-001"
              (admin_user "salt0" 1000))
    as (_ & _ & _ & Hvalid & _).
  - constructor.
  - by_compute.
  - by_compute.
  - by_compute.
  - by_compute.
  - apply Hvalid; [apply (bool_decide_unpack _); by_compute|by_compute].
Defined.

Lemma rotated_token_usable_iff_new_witness :
  let s := steps [Post_login "admin" "Admin123!" 2000] Sample.s0 in
  let s' := exec (refresh_token Sample.admin_refresh_token 3000) s in
  validate_refresh_token "refresh.admin-001.admin.604800003000.3000" 4000 s' =
    (Return (Some "admin-001"), s').
Proof.
  intros s s'.
  destruct (rotated_token_usable_iff_new s Sample.admin_refresh_token 3000
    {| c_user_id := Some "admin-001"; c_username := Some "admin";
       c_type := Some "refresh"; c_exp := 604800002000; c_iat := 2000 |}
    "admin-001" (Sample.stored "admin-001" s)) as [Hnew _].
  - apply reachable_steps. constructor.
  - by_compute.
  - by_compute.
  - by_compute.
  - by_compute.
  - by_compute.
  - apply Hnew; [by_compute|apply (bool_decide_unpack _); by_compute|by_compute].
Defined.

Lemma get_stats_unlocks_expired_witness :
  let s := steps Sample.locked_ops Sample.s0 in
  (∃ st, count_locked 5000 ["admin-001"] s =
           (Return (locked_users st), exec (get_stats 5000) s) ∧
         get_stats 5000 s = (Return st, exec (get_stats 5000) s)) ∧
  ∀ u lu, users (exec (get_stats 900002005) s) !! "admin-001" = Some u →
    locked_until u = Some lu → 900002005 < lu.
Proof.
  intros s. split.
  - destruct (get_stats_unlocks_expired 5000 s ["admin-001"])
      as ((st & Hst & Hcount & _) & _); [by_compute|].
    exists st. split; [exact Hcount|exact Hst].
  - destruct (get_stats_unlocks_expired 900002005 s ["admin-001"])
      as (_ & _ & Hlocks & _); [by_compute|].
    exact (Hlocks "admin-001").
Defined.

Lemma reset_password_unlocks_witness :
  let s := steps Sample.locked_ops Sample.s0 in
  let s' := exec (reset_password "rst" "NewPassw0rd1" "salt9" 4000) s in
  eval (login "admin" "NewPassw0rd1" 5000) s = Raise (account_locked 14) ∧
  ∃ tok, eval (login "admin" "NewPassw0rd1" 5000) s' = Return tok.
Proof.
  intros s s'. split; [by_compute|].
  destruct (reset_password_unlocks "rst" (Sample.recorded "rst" s)
              (Sample.stored "admin-001" s) "admin" "NewPassw0rd1" "salt9" 4000 s)
    as (_ & _ & _ & Hlogin & _).
  - apply reachable_steps. constructor.
  - by_compute.
  - by_compute.
  - by_compute.
  - by_compute.
  - by_compute.
  - destruct (Hlogin 5000) as (tok & Htok & _). by exists tok.
Defined.

Lemma update_profile_effects_witness :
  update_profile None "admin-001" 2000 Sample.s0 =
    (Return (message "Profile updated successfully"), Sample.s0) ∧
  users (exec (update_profile (Some "Root") "admin-001" 2000) Sample.s0) !! "admin-001" =
    Some (set_updated_at 2000 (set_full_name (Some "Root") (admin_user "salt0" 1000))).
Proof.
  destruct (update_profile_effects "admin-001" (admin_user "salt0" 1000) 2000 Sample.s0)
    as [Hnone Hsome].
  - constructor.
  - by_compute.
  - split; [exact Hnone|]. by destruct (Hsome "Root") as (_ & Hu & _).
Defined.

Lemma delete_account_effects_witness :
  let s := steps [Post_login "admin" "Admin123!" 2000] Sample.s0 in
  let s' := exec (delete_account "admin-001" Sample.admin_access_token) s in
  eval (delete_account "admin-001" Sample.admin_access_token) s =
    Return (message "Account deleted successfully") ∧
  users s' !! "admin-001" = None ∧
  eval (get_current_user Sample.admin_access_token 3000) s' =
    Raise (HTTPException 401 "Token has been revoked").
Proof.
  intros s s'.
  destruct (delete_account_effects "admin-001" (Sample.stored "admin-001" s)
              Sample.admin_access_token s) as (Hret & _ & Hgone & _ & _ & Hrev).
  - safely [Post_login "admin" "Admin123!" 2000].
  - by_compute.
  - split_and!; [exact Hret|exact Hgone|exact (Hrev [] 3000)].
Defined.

Lemma list_users_pages_witness :
  ∃ page,
    eval (list_users ["admin-001"; "user-b0b"] 0 1) Sample.s1 = Return page ∧
    length page = 1%nat ∧
    page !! 0%nat = Some (response_of (admin_user "salt0" 1000)).
Proof.
  destruct (list_users_pages ["admin-001"; "user-b0b"] 0 1 Sample.s1)
    as (_ & page & Hpage & _ & _ & Hnonneg).
  - vm_compute. first [reflexivity | apply perm_swap].
  - destruct Hnonneg as (Hlen & Hat & _); [lia|lia|].
    exists page. split; [exact Hpage|]. split.
    + rewrite Hlen. by_compute.
    + rewrite (Hat 0%nat) by (simpl; lia). by_compute.
Defined.

(** The failing input of C2: the administrator is locked until 900002004;
    the lock check reads the clock one microsecond before that time and the
    handler reads it again one microsecond after it. The login is refused
    as locked and tells the caller to try again in 1439 minutes. *)
Lemma login_checks_in_order_witness :
  let s := steps (login_attempts "admin"
                    [("a", 2000); ("b", 2001); ("c", 2002); ("d", 2003);
                     ("e", 2004)]) Sample.s0 in
  let clock :=
    {| at_lock_check := 900002003; at_remaining := 900002005;
       at_failure := 900002005; at_last_login := 900002005;
       at_access_expire := 900002005; at_access_issued := 900002005;
       at_refresh_expire := 900002005; at_refresh_issued := 900002005;
       at_expires := 900002005; at_stored := 900002005 |} in
  locked_until <$> users s !! "admin-001" = Some (Some 900002004) ∧
  login_at "admin" "Admin123!" clock s =
    (Raise (HTTPException 423 "Account locked. Try again in 1439 minutes"), s).
Proof.
  intros s clock. split; [by_compute|].
  destruct (login_checks_in_order "admin" "Admin123!" clock s) as [_ Hc].
  assert (find_user "admin" s = Some "admin-001") as Hf by by_compute.
  rewrite Hf in Hc. destruct Hc as (u & Hu & Hc).
  assert (u = Sample.stored "admin-001" s) as ->.
  { assert (users s !! "admin-001" = Some (Sample.stored "admin-001" s)) as Hu'
      by by_compute.
    congruence. }
  assert (locked_at (at_lock_check clock) (Sample.stored "admin-001" s) = true) as Hl
    by by_compute.
  rewrite Hl in Hc. destruct Hc as (lu & Hlu & _ & Hraise & _ & Hslip).
  assert (lu = 900002004) as ->.
  { assert (locked_until (Sample.stored "admin-001" s) = Some 900002004) as Hlu'
      by by_compute.
    congruence. }
  rewrite Hraise, Hslip; [reflexivity|simpl; lia|by_compute].
Defined.

Lemma email_lookup_case_sensitive_witness :
  get_user_by_email "Bob@x.com" Sample.s1 = Some "user-b0b" ∧
  login "bob@x.com" "Passw0rd" 2000 Sample.s1 = (Raise bad_credentials, Sample.s1) ∧
  ∃ m, post_request_password_reset "bob@x.com" "rst" 2000 = Some m ∧
       m Sample.s1 = (Return (message reset_link_sent), Sample.s1).
Proof.
  destruct (email_lookup_case_sensitive Sample.s1 "user-b0b"
              (Sample.stored "user-b0b" Sample.s1)
              "bob@x.com" "Passw0rd" "rst" 2000)
    as (Hexact & _ & _ & _ & _ & _ & Hnobody & Hreset).
  - safely [Post_register Sample.bob "b0b" "salt1" 1500].
  - by_compute.
  - by_compute.
  - by_compute.
  - split; [exact Hexact|]. split.
    + apply Hnobody. apply map_Forall_lookup.
      apply (bool_decide_unpack _). by_compute.
    + destruct (Hreset "bob@x.com") as (m & Hm & _ & Hnone); [by_compute|].
      exists m. split; [exact Hm|]. apply Hnone.
      apply map_Forall_lookup. apply (bool_decide_unpack _). by_compute.
Defined.

(** C10, as stated, fails for a password-reset request: the address
    submitted differs from the stored email of the administrator only in
    the letter case of its domain, the request model lower-cases the
    domain, and the handler finds the user and returns a reset token, where
    a request for an unknown address gets the message alone. *)
Lemma reset_request_ignores_domain_case :
  let raw := "admin@AIMINI.GAMES" in
  (email <$> users Sample.s0 !! "admin-001" = Some "admin@aimini.games") ∧
  lower raw = lower "admin@aimini.games" ∧ raw ≠ "admin@aimini.games" ∧
  PasswordResetRequest raw = Some "admin@aimini.games" ∧
  (∃ m, post_request_password_reset raw "rst" 2000 = Some m ∧
        eval m Sample.s0 =
          Return [("message", reset_link_sent); ("reset_token", "rst")]) ∧
  (∃ m, post_request_password_reset "nobody@aimini.games" "rst" 2000 = Some m ∧
        eval m Sample.s0 = Return (message reset_link_sent)).
Proof.
  intros raw. split_and!; try by_compute.
  - eexists. split; by_compute.
  - eexists. split; by_compute.
Qed.

End Further_examples.
